(** * LipTrackCalculator: active-speaker tracking and shot-boundary signal

    A shallow embedding of
    [autoflip_calculators/lip_track/lip_track_calculator.cc] and the
    properties of its tracking-and-decision core.

    Conventions of the embedding.
    - C++ [float] values are modelled by [F.float]: exact rational
      arithmetic on finite values, together with the IEEE 754 special
      values (infinities and NaN) that arise from division by zero.
      Rounding is not modelled; comparisons with NaN are false.
    - [std::sqrt] is a parameter of the development ([sqrtf]);
      [std::pow(v, 2)] is [v * v].
    - [std::vector] and [std::deque] are lists; an out-of-range
      [operator[]] is undefined behaviour and is modelled by the
      outcome [Undefined].
    - [std::map<int32, T>] is a key-ordered association list
      ([StdMap.t]), so that iteration order is the one of the source.
    - [int] and [int32] counters and ids are unbounded integers.
    - The options message and the graph configuration are not part of
      the sources; their fields are parameters
      ([LipTrackCalculatorOptions], [GraphConfig]). The two history
      sizes are natural numbers.
    - Timestamps count microseconds; [Seconds()] divides by 10^6.
    - Visualization frames (CONTOUR_INFORMATION_FRAME) are not modelled.

    The file has the definitions first (the float model, containers,
    the calculator, the predicates used in statements, concrete
    inputs), then the proofs. *)

From Stdlib Require Import ZArith QArith List Bool Sorted Lia Lqa.
Import ListNotations.

Set Implicit Arguments.

(* ================================================================= *)
(** ** Floating-point values *)

Module F.

Inductive float : Type :=
| Fin (q : Q)
| Inf (neg : bool)
| NaN.

Definition Qlt_bool (a b : Q) : bool := negb (Qle_bool b a).

Definition zero : float := Fin 0.
Definition of_Z (z : Z) : float := Fin (inject_Z z).
Definition of_nat (n : nat) : float := Fin (inject_Z (Z.of_nat n)).

Definition neg (a : float) : float :=
  match a with
  | Fin q => Fin (- q)
  | Inf s => Inf (negb s)
  | NaN => NaN
  end.

Definition add (a b : float) : float :=
  match a, b with
  | NaN, _ | _, NaN => NaN
  | Fin p, Fin q => Fin (p + q)
  | Fin _, Inf s => Inf s
  | Inf s, Fin _ => Inf s
  | Inf s, Inf s' => if Bool.eqb s s' then Inf s else NaN
  end.

Definition sub (a b : float) : float := add a (neg b).

Definition mul (a b : float) : float :=
  match a, b with
  | NaN, _ | _, NaN => NaN
  | Fin p, Fin q => Fin (p * q)
  | Fin p, Inf s => if Qeq_bool p 0 then NaN else Inf (xorb (Qlt_bool p 0) s)
  | Inf s, Fin q => if Qeq_bool q 0 then NaN else Inf (xorb s (Qlt_bool q 0))
  | Inf s, Inf s' => Inf (xorb s s')
  end.

(** Division as in IEEE 754: [0/0] is NaN, [x/0] is an infinity (zero
    carries no sign here and counts as [+0]). *)
Definition div (a b : float) : float :=
  match a, b with
  | NaN, _ | _, NaN => NaN
  | Fin p, Fin q =>
      if Qeq_bool q 0
      then (if Qeq_bool p 0 then NaN else Inf (Qlt_bool p 0))
      else Fin (p / q)
  | Fin _, Inf _ => Fin 0
  | Inf s, Fin q => Inf (xorb s (Qlt_bool q 0))
  | Inf _, Inf _ => NaN
  end.

(** [a < b] *)
Definition ltb (a b : float) : bool :=
  match a, b with
  | NaN, _ | _, NaN => false
  | Fin p, Fin q => Qlt_bool p q
  | Fin _, Inf s => negb s
  | Inf s, Fin _ => s
  | Inf s, Inf s' => s && negb s'
  end.

(** [a <= b] *)
Definition leb (a b : float) : bool :=
  match a, b with
  | NaN, _ | _, NaN => false
  | Fin p, Fin q => Qle_bool p q
  | Fin _, Inf s => negb s
  | Inf s, Fin _ => s
  | Inf s, Inf s' => s || negb s'
  end.

(** [a == b] *)
Definition eqb (a b : float) : bool :=
  match a, b with
  | Fin p, Fin q => Qeq_bool p q
  | Inf s, Inf s' => Bool.eqb s s'
  | _, _ => false
  end.

Definition gtb (a b : float) : bool := ltb b a.
Definition geb (a b : float) : bool := leb b a.

(** [std::min(a, b)] is [(b < a) ? b : a]; [std::max(a, b)] is
    [(a < b) ? b : a]. *)
Definition min (a b : float) : float := if ltb b a then b else a.
Definition max (a b : float) : float := if ltb a b then b else a.

(** [std::pow(v, 2)] *)
Definition pow2 (v : float) : float := mul v v.

(** Sum of a sequence, accumulated left to right from [acc]. *)
Definition sum_from (acc : float) (l : list float) : float :=
  fold_left add l acc.

End F.

(* ================================================================= *)
(** ** Outcomes: normal return, error status, undefined behaviour *)

Inductive outcome (A : Type) : Type :=
| Ok (a : A)
| StatusError
| Undefined.

Arguments Ok {A} a.
Arguments StatusError {A}.
Arguments Undefined {A}.

Definition bind {A B : Type} (m : outcome A) (k : A -> outcome B) : outcome B :=
  match m with
  | Ok a => k a
  | StatusError => StatusError
  | Undefined => Undefined
  end.

Notation "x <- m ;; k" := (bind m (fun x => k))
  (at level 61, m at next level, right associativity).
Notation "' pat <- m ;; k" := (bind m (fun x => match x with pat => k end))
  (at level 61, pat pattern, m at next level, right associativity).

(** [v[i]] on a [std::vector] or [std::deque]. *)
Definition vec_get {A : Type} (v : list A) (i : Z) : outcome A :=
  if (i <? 0)%Z then Undefined
  else match nth_error v (Z.to_nat i) with
       | Some a => Ok a
       | None => Undefined
       end.

Fixpoint list_set {A : Type} (v : list A) (n : nat) (a : A) : option (list A) :=
  match v, n with
  | [], _ => None
  | _ :: tl, O => Some (a :: tl)
  | hd :: tl, S n' =>
      match list_set tl n' a with
      | Some tl' => Some (hd :: tl')
      | None => None
      end
  end.

(** [v[i] = a] on a [std::vector]. *)
Definition vec_set {A : Type} (v : list A) (i : Z) (a : A) : outcome (list A) :=
  if (i <? 0)%Z then Undefined
  else match list_set v (Z.to_nat i) a with
       | Some v' => Ok v'
       | None => Undefined
       end.

(* ================================================================= *)
(** ** [std::map<int32, V>] as a key-ordered association list *)

Module StdMap.

Definition t (V : Type) : Type := list (Z * V).

Definition empty {V : Type} : t V := [].

Fixpoint find {V : Type} (k : Z) (m : t V) : option V :=
  match m with
  | [] => None
  | (k', v) :: tl => if (k' =? k)%Z then Some v else find k tl
  end.

(** [m.insert({k, v})]: no effect when the key is present. *)
Fixpoint insert {V : Type} (k : Z) (v : V) (m : t V) : t V :=
  match m with
  | [] => [(k, v)]
  | (k', v') :: tl =>
      if (k <? k')%Z then (k, v) :: m
      else if (k =? k')%Z then m
      else (k', v') :: insert k v tl
  end.

(** [m[k] = v] *)
Fixpoint set {V : Type} (k : Z) (v : V) (m : t V) : t V :=
  match m with
  | [] => [(k, v)]
  | (k', v') :: tl =>
      if (k <? k')%Z then (k, v) :: m
      else if (k =? k')%Z then (k, v) :: tl
      else (k', v') :: set k v tl
  end.

(** [m[k]] read: a missing key yields the value-initialised [d]. *)
Definition at_default {V : Type} (k : Z) (d : V) (m : t V) : V :=
  match find k m with
  | Some v => v
  | None => d
  end.

Definition keys {V : Type} (m : t V) : list Z := map fst m.

(** Keys strictly ascending: the order in which [begin()..end()] runs. *)
Fixpoint ordered {V : Type} (m : t V) : Prop :=
  match m with
  | [] => True
  | (k, _) :: tl =>
      (forall k', In k' (keys tl) -> (k < k')%Z) /\ ordered tl
  end.

End StdMap.

(* ================================================================= *)
(** ** Data model *)

Import F.

(** A [NormalizedLandmark]: normalized image coordinates. *)
Record NormalizedLandmark : Type := mkLandmark {
  lm_x : float;
  lm_y : float
}.

(** A [NormalizedLandmarkList]; [landmark_size] is its length. *)
Definition NormalizedLandmarkList : Type := list NormalizedLandmark.

(** A [Detection], reduced to
    [location_data().relative_bounding_box()]. *)
Record Detection : Type := mkDetection {
  xmin : float;
  ymin : float;
  width : float;
  height : float
}.

(** [cv::Rect2f] *)
Record Rect2f : Type := mkRect {
  rect_x : float;
  rect_y : float;
  rect_width : float;
  rect_height : float
}.

Record LipSignal : Type := mkSignal {
  landmark_lists : list NormalizedLandmarkList;
  detections : list Detection;
  timestamp : Z
}.

(** The fields of the options message read by the calculator. *)
Record LipTrackCalculatorOptions : Type := mkOptions {
  min_speaker_span : Z;
  variance_history : nat;
  mean_history : nat;
  lip_mean_threshold_big_mouth : float;
  lip_variance_threshold_big_mouth : float;
  lip_mean_threshold_small_mouth : float;
  lip_variance_threshold_small_mouth : float;
  iou_threshold : float;
  min_shot_span : float;
  output_shot_boundary : bool;
  output_shot_boundary_only_on_change : bool
}.

(** What the graph connects: [cc->Outputs().HasTag(kOutputShot)]. *)
Record GraphConfig : Type := mkGraph {
  has_output_shot : bool
}.

(** The members of the calculator object. *)
Record LipTrackCalculator : Type := mkCalculator {
  face_bbox_ : list Detection;
  face_statistics_ : StdMap.t (list float);
  meta_face_indices_ : list Z;
  speaker_mean_ : float;
  speaker_variance_ : float;
  pre_dominate_speaker_id_ : Z;
  pre_dominate_speaker_detection_ : list Detection;
  last_shot_timestamp_ : Z;
  frame_width_ : Z;
  frame_height_ : Z;
  signal_buff_ : list LipSignal
}.

(** Packets written to the output streams, oldest first. *)
Record Outputs : Type := mkOutputs {
  shot_packets : list (bool * Z);
  roi_packets : list (list Detection * Z)
}.

Definition no_outputs : Outputs := mkOutputs [] [].

Definition append_outputs (a b : Outputs) : Outputs :=
  mkOutputs (shot_packets a ++ shot_packets b) (roi_packets a ++ roi_packets b).

(** Lip contour landmarks. *)
Definition kLipLeftInnerCornerIdx : Z := 78.
Definition kLipRightInnerCornerIdx : Z := 308.
Definition kLipUpperIdx : list Z := [82; 13; 312]%Z.
Definition kLipLowerIdx : list Z := [87; 14; 317]%Z.

(** Landmarks size *)
Definition kFaceMeshLandmarks : Z := 468.

(* ================================================================= *)
(** ** Geometry *)

(** [cv::Rect_] operations ([empty], [area], [&], [|]) as OpenCV's
    [core/types.hpp] (3.4, 4.x) defines them: [a & b] is the default
    rectangle when the overlap has no positive width or height;
    [a | b] is [b] when [a] is empty, [a] when [b] is empty, and the
    bounding rectangle of both otherwise. *)
Definition rect_empty (r : Rect2f) : bool :=
  leb (rect_width r) zero || leb (rect_height r) zero.

Definition rect_area (r : Rect2f) : float :=
  mul (rect_width r) (rect_height r).

Definition rect_default : Rect2f := mkRect zero zero zero zero.

Definition rect_and (a b : Rect2f) : Rect2f :=
  let x1 := max (rect_x a) (rect_x b) in
  let y1 := max (rect_y a) (rect_y b) in
  let w := sub (min (add (rect_x a) (rect_width a))
                    (add (rect_x b) (rect_width b))) x1 in
  let h := sub (min (add (rect_y a) (rect_height a))
                    (add (rect_y b) (rect_height b))) y1 in
  if leb w zero || leb h zero then rect_default else mkRect x1 y1 w h.

Definition rect_or (a b : Rect2f) : Rect2f :=
  if rect_empty a then b
  else if negb (rect_empty b) then
    let x1 := min (rect_x a) (rect_x b) in
    let y1 := min (rect_y a) (rect_y b) in
    let w := sub (max (add (rect_x a) (rect_width a))
                      (add (rect_x b) (rect_width b))) x1 in
    let h := sub (max (add (rect_y a) (rect_height a))
                      (add (rect_y b) (rect_height b))) y1 in
    mkRect x1 y1 w h
  else a.

Definition DetectionToRect (bbox : Detection) : Rect2f :=
  mkRect (xmin bbox) (ymin bbox) (width bbox) (height bbox).

Definition GetIOU (bbox_1 bbox_2 : Detection) : float :=
  let cv_bbox_1 := DetectionToRect bbox_1 in
  let cv_bbox_2 := DetectionToRect bbox_2 in
  let intersecting_region := rect_and cv_bbox_1 cv_bbox_2 in
  let union_region := rect_or cv_bbox_1 cv_bbox_2 in
  div (rect_area intersecting_region) (rect_area union_region).

(* ================================================================= *)
(** ** Face association *)

(** The loop of [MatchFace] from index [i] on, over the remaining
    previous boxes. *)
Fixpoint MatchFace_loop (iou_thr : float) (face_bbox : Detection)
    (rest : list Detection) (i idx : Z) (maxi_iou : float) : Z :=
  match rest with
  | [] => idx
  | bbox :: rest' =>
      let iou := GetIOU bbox face_bbox in
      if ltb iou iou_thr then
        MatchFace_loop iou_thr face_bbox rest' (i + 1) idx maxi_iou
      else if gtb iou maxi_iou then
        MatchFace_loop iou_thr face_bbox rest' (i + 1) i iou
      else
        MatchFace_loop iou_thr face_bbox rest' (i + 1) idx maxi_iou
  end.

Definition MatchFace (options_ : LipTrackCalculatorOptions)
    (face_bbox_ : list Detection) (face_bbox : Detection) : Z :=
  MatchFace_loop (iou_threshold options_) face_bbox face_bbox_ 0 (-1) zero.

(* ================================================================= *)
(** ** Active-speaker classifier *)

(** [for (i = first; i < first + count; ++i) acc += d[i];] *)
Fixpoint sum_indices (d : list float) (first count : nat) (acc : float)
    : float :=
  match count with
  | O => acc
  | S count' => sum_indices d (S first) count' (add acc (nth first d zero))
  end.

(** [mean_short] as computed after the minimum-evidence check. *)
Definition mean_short_of (options_ : LipTrackCalculatorOptions)
    (face_lip_statistics : list float) : float :=
  let size := length face_lip_statistics in
  if (size <? mean_history options_)%nat then
    nth 0 face_lip_statistics zero
  else
    div (sum_indices face_lip_statistics (size - mean_history options_)
           (size - (size - mean_history options_)) zero)
        (of_nat (mean_history options_)).

Definition mean_of (face_lip_statistics : list float) : float :=
  div (sum_from zero face_lip_statistics)
      (of_nat (length face_lip_statistics)).

Definition variance_of (face_lip_statistics : list float) : float :=
  let mean := mean_of face_lip_statistics in
  div (fold_left (fun variance value => add variance (pow2 (sub value mean)))
                 face_lip_statistics zero)
      (of_nat (length face_lip_statistics)).

(** The final test of [IsActiveSpeaker]. *)
Definition speaking_test (options_ : LipTrackCalculatorOptions)
    (speaker_mean speaker_variance mean_short variance : float) : bool :=
  (geb mean_short (lip_mean_threshold_big_mouth options_)
   && geb variance (lip_variance_threshold_big_mouth options_)
   && gtb mean_short speaker_mean)
  || (geb mean_short (lip_mean_threshold_small_mouth options_)
      && geb variance (lip_variance_threshold_small_mouth options_)
      && gtb variance speaker_variance).

(** [IsActiveSpeaker]: the result and the new values of
    [speaker_mean_] and [speaker_variance_]. *)
Definition IsActiveSpeaker (options_ : LipTrackCalculatorOptions)
    (speaker_mean speaker_variance : float)
    (face_lip_statistics : list float) : bool * (float * float) :=
  if (length face_lip_statistics <=? variance_history options_ / 2)%nat then
    (false, (speaker_mean, speaker_variance))
  else
    let mean_short := mean_short_of options_ face_lip_statistics in
    let variance := variance_of face_lip_statistics in
    if speaking_test options_ speaker_mean speaker_variance mean_short variance
    then (true, (mean_short, variance))
    else (false, (speaker_mean, speaker_variance)).

(* ================================================================= *)
(** ** The calculator *)

(** Locals of [ProcessScene] that live across the buffered frames. *)
Record SceneLocals : Type := mkScene {
  meta_faces : StdMap.t (list Z);
  meta_face_count : Z;
  num_of_active_speaker : StdMap.t Z
}.

(** Locals of one iteration of the frame loop. *)
Record FrameLocals : Type := mkFrame {
  cur_face_statistics : StdMap.t (list float);
  cur_meta_face_indices : list Z;
  cur_speaker_id : Z
}.

(** A [for] loop over a vector with its index, in the outcome monad. *)
Fixpoint for_each {A S : Type} (body : S -> Z -> A -> outcome S)
    (v : list A) (i : Z) (s : S) : outcome S :=
  match v with
  | [] => Ok s
  | a :: tl => s' <- body s i a ;; for_each body tl (i + 1)%Z s'
  end.

(** [while (d.size() > n) d.pop_front();] *)
Fixpoint trim_history (n : nat) (d : list float) : list float :=
  match d with
  | [] => []
  | _ :: tl => if (n <? length d)%nat then trim_history n tl else d
  end.

(** The dominant-speaker loop over [num_of_active_speaker]: the pair
    [(dominate_speaker_id, max_num)] after the entries of [m]. *)
Definition dominate_loop (m : StdMap.t Z) (init : Z * Z) : Z * Z :=
  fold_left (fun (acc : Z * Z) (it : Z * Z) =>
               if (snd it >? snd acc)%Z then (fst it, snd it) else acc)
            m init.

Definition find_dominate_speaker (m : StdMap.t Z) : Z :=
  fst (dominate_loop m ((-1)%Z, 0%Z)).

(** [TimestampDiff::Seconds()] of [Timestamp(a) - Timestamp(b)]:
    timestamps count microseconds. *)
Definition diff_seconds (a b : Z) : float :=
  div (of_Z (a - b)) (of_Z 1000000).

(** [Transmit]: the packets added to IS_SPEAKER_CHANGE. *)
Definition Transmit (options_ : LipTrackCalculatorOptions)
    (last_shot_timestamp : Z) (is_speaker_change : bool) (timestamp : Z)
    : list (bool * Z) :=
  let is_speaker_change :=
    if ltb (diff_seconds timestamp last_shot_timestamp) (min_shot_span options_)
    then false else is_speaker_change in
  if is_speaker_change then [(true, timestamp)]
  else if negb (output_shot_boundary_only_on_change options_)
       then [(false, timestamp)]
       else [].

Section Calculator.

Variable sqrtf : float -> float.
Variable options_ : LipTrackCalculatorOptions.
Variable graph : GraphConfig.

Definition GetDistance (frame_width frame_height : Z)
    (mark_1 mark_2 : NormalizedLandmark) : float :=
  sqrtf (add (pow2 (mul (sub (lm_x mark_1) (lm_x mark_2)) (of_Z frame_width)))
             (pow2 (mul (sub (lm_y mark_1) (lm_y mark_2)) (of_Z frame_height)))).

(** [landmark_list.landmark(idx)]; only used below the size check of
    [GetStatistics], where [idx] is in range. *)
Definition landmark (landmark_list : NormalizedLandmarkList) (idx : Z)
    : NormalizedLandmark :=
  nth (Z.to_nat idx) landmark_list (mkLandmark zero zero).

(** The inner loop of [GetStatistics] over the lip pairs. *)
Definition add_heights (frame_width frame_height : Z)
    (landmark_list : NormalizedLandmarkList) (mouth_height : float) : float :=
  fold_left
    (fun acc (p : Z * Z) =>
       add acc (GetDistance frame_width frame_height
                  (landmark landmark_list (fst p))
                  (landmark landmark_list (snd p))))
    (combine kLipUpperIdx kLipLowerIdx) mouth_height.

(** The loop of [GetStatistics]; [mouth_width] and [mouth_height] are
    declared before the loop and carried through it. *)
Fixpoint GetStatistics_loop (frame_width frame_height : Z)
    (landmark_lists : list NormalizedLandmarkList)
    (mouth_width mouth_height : float) (lip_statistics : list float)
    : list float :=
  match landmark_lists with
  | [] => lip_statistics
  | landmark_list :: rest =>
      if (Z.of_nat (length landmark_list) <? kFaceMeshLandmarks)%Z then
        GetStatistics_loop frame_width frame_height rest
          mouth_width mouth_height lip_statistics
      else
        let mouth_width :=
          GetDistance frame_width frame_height
            (landmark landmark_list kLipLeftInnerCornerIdx)
            (landmark landmark_list kLipRightInnerCornerIdx) in
        let mouth_height :=
          add_heights frame_width frame_height landmark_list mouth_height in
        let mouth_height :=
          div mouth_height (of_nat (length kLipUpperIdx)) in
        GetStatistics_loop frame_width frame_height rest
          mouth_width mouth_height
          (lip_statistics ++ [div mouth_height mouth_width])
  end.

Definition GetStatistics (frame_width frame_height : Z)
    (landmark_lists : list NormalizedLandmarkList)
    (lip_statistics : list float) : list float :=
  GetStatistics_loop frame_width frame_height landmark_lists
    zero zero lip_statistics.

(** The rolling-history update of one face: the new deque stored at
    [cur_face_statistics[cur_face_idx]]. *)
Definition matched_history (previous : list float) (value : float)
    : list float :=
  trim_history (variance_history options_) (previous ++ [value]).

Definition fresh_history (value : float) : list float := [value].

(** One iteration of the loop over [input_detections]. *)
Definition face_step (buff_size : nat) (buff_position : Z)
    (statistics : list float)
    (s : LipTrackCalculator * SceneLocals * FrameLocals)
    (cur_face_idx : Z) (bbox : Detection)
    : outcome (LipTrackCalculator * SceneLocals * FrameLocals) :=
  let '(this, scene, frame) := s in
  let previous_face_idx := MatchFace options_ (face_bbox_ this) bbox in
  let stats0 := StdMap.insert cur_face_idx [] (cur_face_statistics frame) in
  '(stats1, scene1, indices1) <-
    (if negb (previous_face_idx =? -1)%Z then
       let previous :=
         StdMap.at_default previous_face_idx [] (face_statistics_ this) in
       value <- vec_get statistics cur_face_idx ;;
       let deque :=
         matched_history (StdMap.at_default cur_face_idx [] stats0 ++ previous)
                         value in
       meta_face_idx <- vec_get (meta_face_indices_ this) previous_face_idx ;;
       row <- vec_set (StdMap.at_default meta_face_idx [] (meta_faces scene))
                      buff_position cur_face_idx ;;
       Ok (StdMap.set cur_face_idx deque stats0,
           mkScene (StdMap.set meta_face_idx row (meta_faces scene))
                   (meta_face_count scene)
                   (num_of_active_speaker scene),
           cur_meta_face_indices frame ++ [meta_face_idx])
     else
       value <- vec_get statistics cur_face_idx ;;
       let deque := StdMap.at_default cur_face_idx [] stats0
                    ++ fresh_history value in
       let count := meta_face_count scene in
       let faces0 := StdMap.insert count [] (meta_faces scene) in
       row <- vec_set (StdMap.at_default count [] faces0
                       ++ repeat (-1)%Z buff_size)
                      buff_position cur_face_idx ;;
       Ok (StdMap.set cur_face_idx deque stats0,
           mkScene (StdMap.set count row faces0)
                   (count + 1)%Z
                   (num_of_active_speaker scene),
           cur_meta_face_indices frame ++ [count])) ;;
  let '(speaking, (mean', variance')) :=
    IsActiveSpeaker options_ (speaker_mean_ this) (speaker_variance_ this)
      (StdMap.at_default cur_face_idx [] stats1) in
  Ok (mkCalculator (face_bbox_ this) (face_statistics_ this)
        (meta_face_indices_ this) mean' variance'
        (pre_dominate_speaker_id_ this) (pre_dominate_speaker_detection_ this)
        (last_shot_timestamp_ this) (frame_width_ this) (frame_height_ this)
        (signal_buff_ this),
      scene1,
      mkFrame stats1 indices1
        (if speaking then cur_face_idx else cur_speaker_id frame)).

(** The bookkeeping after the face loop: one more hit for the meta
    face of the frame's speaker. *)
Definition count_speaker (frame : FrameLocals) (scene : SceneLocals)
    : outcome SceneLocals :=
  if negb (cur_speaker_id frame =? -1)%Z then
    meta_face <- vec_get (cur_meta_face_indices frame) (cur_speaker_id frame) ;;
    let hits := num_of_active_speaker scene in
    Ok (mkScene (meta_faces scene) (meta_face_count scene)
          (match StdMap.find meta_face hits with
           | Some n => StdMap.set meta_face (n + 1)%Z hits
           | None => StdMap.insert meta_face 1%Z hits
           end))
  else Ok scene.

(** One iteration of the loop over [signal_buff_]. *)
Definition frame_step (buff_size : nat)
    (s : LipTrackCalculator * SceneLocals)
    (buff_position : Z) (signal : LipSignal)
    : outcome (LipTrackCalculator * SceneLocals) :=
  let '(this, scene) := s in
  let input_landmark_lists := landmark_lists signal in
  let input_detections := detections signal in
  match input_landmark_lists, input_detections with
  | [], _ | _, [] => Ok s
  | _, _ =>
      let statistics :=
        GetStatistics (frame_width_ this) (frame_height_ this)
          input_landmark_lists [] in
      '(this1, scene1, frame) <-
        for_each (face_step buff_size buff_position statistics)
          input_detections 0%Z
          (this, scene, mkFrame StdMap.empty [] (-1)%Z) ;;
      scene2 <- count_speaker frame scene1 ;;
      Ok (mkCalculator input_detections (cur_face_statistics frame)
            (cur_meta_face_indices frame) zero zero
            (pre_dominate_speaker_id_ this1)
            (pre_dominate_speaker_detection_ this1)
            (last_shot_timestamp_ this1) (frame_width_ this1)
            (frame_height_ this1) (signal_buff_ this1),
          scene2)
  end.

(** The frame loop of [ProcessScene]. *)
Definition process_frames (this : LipTrackCalculator)
    : outcome (LipTrackCalculator * SceneLocals) :=
  for_each (frame_step (length (signal_buff_ this))) (signal_buff_ this) 0%Z
    (this, mkScene StdMap.empty 0%Z StdMap.empty).

(** The loop that picks the dominant speaker's detection in the
    closest frame: stops at the first slot that is not [-1]. *)
Fixpoint closest_detection (buff : list LipSignal) (dominate_speaker : list Z)
    (i : Z) : outcome (list Detection) :=
  match dominate_speaker with
  | [] => Ok []
  | face_id :: rest =>
      if negb (face_id =? -1)%Z then
        signal <- vec_get buff i ;;
        detection <- vec_get (detections signal) face_id ;;
        Ok [detection]
      else closest_detection buff rest (i + 1)%Z
  end.

(** The shot-boundary block of [ProcessScene] when a dominant speaker
    exists: the candidate decision handed to [Transmit], if any. *)
Definition shot_candidate (this : LipTrackCalculator)
    (dominate_speaker_detection : list Detection) : outcome (option bool) :=
  if has_output_shot graph && output_shot_boundary options_ then
    if (pre_dominate_speaker_id_ this =? -1)%Z then Ok (Some true)
    else
      match pre_dominate_speaker_detection_ this with
      | [] => Ok None
      | _ :: _ =>
          previous <- vec_get (pre_dominate_speaker_detection_ this) 0%Z ;;
          current <- vec_get dominate_speaker_detection 0%Z ;;
          Ok (Some (if gtb (GetIOU previous current) (iou_threshold options_)
                    then false else true))
      end
  else Ok None.

(** The packets of the block and the new [last_shot_timestamp_]. *)
Definition shot_boundary (this : LipTrackCalculator)
    (dominate_speaker_detection : list Detection)
    : outcome (list (bool * Z) * Z) :=
  candidate <- shot_candidate this dominate_speaker_detection ;;
  match candidate with
  | None => Ok ([], last_shot_timestamp_ this)
  | Some is_speaker_change =>
      first <- vec_get (signal_buff_ this) 0%Z ;;
      Ok (Transmit options_ (last_shot_timestamp_ this) is_speaker_change
            (timestamp first),
          if is_speaker_change then timestamp first
          else last_shot_timestamp_ this)
  end.

(** One iteration of the ROI loop: the state is the packets so far
    and [dominate_speaker_detection]. *)
Definition roi_step (dominate_speaker : list Z)
    (s : list (list Detection * Z) * list Detection)
    (buff_position : Z) (signal : LipSignal)
    : outcome (list (list Detection * Z) * list Detection) :=
  let '(packets, dominate_speaker_detection) := s in
  face_id <- vec_get dominate_speaker buff_position ;;
  if negb (face_id =? -1)%Z then
    detection <- vec_get (detections signal) face_id ;;
    updated <- vec_set dominate_speaker_detection 0%Z detection ;;
    Ok (packets ++ [([detection], timestamp signal)], updated)
  else
    carried <- vec_get dominate_speaker_detection 0%Z ;;
    Ok (packets ++ [([carried], timestamp signal)], dominate_speaker_detection).

(** The "Update history" block at the end of [ProcessScene]. *)
Definition update_history (this : LipTrackCalculator)
    (dominate_speaker_id : Z) (detection : list Detection)
    (last_shot : Z) : LipTrackCalculator :=
  mkCalculator [] StdMap.empty [] (speaker_mean_ this) (speaker_variance_ this)
    dominate_speaker_id detection last_shot
    (frame_width_ this) (frame_height_ this) [].

Definition ProcessScene (this : LipTrackCalculator)
    : outcome (LipTrackCalculator * Outputs) :=
  '(this1, scene) <- process_frames this ;;
  let buff := signal_buff_ this1 in
  let dominate_speaker_id :=
    find_dominate_speaker (num_of_active_speaker scene) in
  if (dominate_speaker_id =? -1)%Z then
    shot <-
      (if has_output_shot graph && output_shot_boundary options_ then
         first <- vec_get buff 0%Z ;;
         Ok (Transmit options_ (last_shot_timestamp_ this1) false
               (timestamp first))
       else Ok []) ;;
    Ok (update_history this1 dominate_speaker_id []
          (last_shot_timestamp_ this1),
        mkOutputs shot
          (map (fun signal => (@nil Detection, timestamp signal)) buff))
  else
    let dominate_speaker :=
      StdMap.at_default dominate_speaker_id [] (meta_faces scene) in
    dominate_speaker_detection <-
      closest_detection buff dominate_speaker 0%Z ;;
    '(shot, last_shot) <- shot_boundary this1 dominate_speaker_detection ;;
    '(roi, final_detection) <-
      for_each (roi_step dominate_speaker) buff 0%Z
        ([], dominate_speaker_detection) ;;
    kept <- vec_get final_detection 0%Z ;;
    Ok (update_history this1 dominate_speaker_id [kept] last_shot,
        mkOutputs shot roi).

(** The input packets of one [Process] call. *)
Record ProcessInput : Type := mkInput {
  video : option (Z * Z);
  input_landmarks : option (list NormalizedLandmarkList);
  input_detections : option (list Detection);
  input_timestamp : Z
}.

Definition Process (this : LipTrackCalculator) (input : ProcessInput)
    : outcome (LipTrackCalculator * Outputs) :=
  match video input with
  | None => StatusError
  | Some (frame_w, frame_h) =>
      let '(w, h) :=
        if (frame_width_ this <? 0)%Z then (frame_w, frame_h)
        else (frame_width_ this, frame_height_ this) in
      let signal :=
        match input_landmarks input, input_detections input with
        | Some lists, Some dets => mkSignal lists dets (input_timestamp input)
        | _, _ => mkSignal [] [] (input_timestamp input)
        end in
      let buff := signal_buff_ this ++ [signal] in
      let this1 :=
        mkCalculator (face_bbox_ this) (face_statistics_ this)
          (meta_face_indices_ this) (speaker_mean_ this)
          (speaker_variance_ this) (pre_dominate_speaker_id_ this)
          (pre_dominate_speaker_detection_ this) (last_shot_timestamp_ this)
          w h buff in
      match buff with
      | first :: _ =>
          if (input_timestamp input - timestamp first
              >=? min_speaker_span options_)%Z
          then ProcessScene this1
          else Ok (this1, no_outputs)
      | [] => Ok (this1, no_outputs)
      end
  end.

Definition Close (this : LipTrackCalculator)
    : outcome (LipTrackCalculator * Outputs) :=
  '(this1, out) <-
    (match signal_buff_ this with
     | [] => Ok (this, no_outputs)
     | _ :: _ => ProcessScene this
     end) ;;
  Ok (mkCalculator (face_bbox_ this1) StdMap.empty [] (speaker_mean_ this1)
        (speaker_variance_ this1) (pre_dominate_speaker_id_ this1) []
        (last_shot_timestamp_ this1) (frame_width_ this1)
        (frame_height_ this1) (signal_buff_ this1),
      out).

(** A run of the calculator: [Process] on every input, the outputs
    appended in order. *)
Fixpoint run (this : LipTrackCalculator) (inputs : list ProcessInput)
    (out : Outputs) : outcome (LipTrackCalculator * Outputs) :=
  match inputs with
  | [] => Ok (this, out)
  | input :: rest =>
      '(this1, out1) <- Process this input ;;
      run this1 rest (append_outputs out out1)
  end.

End Calculator.

(** The object after construction and [Open]. *)
Definition initial : LipTrackCalculator :=
  mkCalculator [] StdMap.empty [] zero zero (-1)%Z [] 0%Z (-1)%Z (-1)%Z [].

(* ================================================================= *)
(** ** Properties stated about the code *)

(** A box whose area is zero. *)
Definition zero_area (bbox : Detection) : bool :=
  eqb (rect_area (DetectionToRect bbox)) zero.

(** A box whose four coordinates are finite numbers. *)
Definition finite_box (bbox : Detection) : Prop :=
  exists x y w h, bbox = mkDetection (Fin x) (Fin y) (Fin w) (Fin h).

(** No previous box qualifies for [face_bbox]: each has an IOU below
    the threshold or not above zero. *)
Definition no_candidate (iou_thr : float) (face_bbox : Detection)
    (previous : list Detection) : Prop :=
  forall bbox, In bbox previous ->
    ltb (GetIOU bbox face_bbox) iou_thr = true
    \/ gtb (GetIOU bbox face_bbox) zero = false.

(** [idx] is the first previous box of maximum IOU with [face_bbox],
    and that IOU is not below the threshold and is above zero. *)
Definition first_maximum (iou_thr : float) (face_bbox : Detection)
    (previous : list Detection) (idx : Z) : Prop :=
  (0 <= idx)%Z /\
  exists bbox,
    nth_error previous (Z.to_nat idx) = Some bbox /\
    ltb (GetIOU bbox face_bbox) iou_thr = false /\
    gtb (GetIOU bbox face_bbox) zero = true /\
    (forall other, In other previous ->
       ltb (GetIOU bbox face_bbox) (GetIOU other face_bbox) = false) /\
    (forall j other, (j < Z.to_nat idx)%nat ->
       nth_error previous j = Some other ->
       leb (GetIOU bbox face_bbox) (GetIOU other face_bbox) = false).

(** The last [n] values of a history, oldest first. *)
Definition last_values (n : nat) (history : list float) : list float :=
  rev (firstn n (rev history)).

Definition average (values : list float) : float :=
  div (sum_from zero values) (of_nat (length values)).

(** The mouth aspect ratio of one face in the spec's words: the average
    of the three upper/lower lip distances divided by the distance of
    the two inner mouth corners, in pixels. *)
Definition mouth_aspect_ratio (sqrtf : float -> float)
    (frame_width frame_height : Z) (face_landmarks : NormalizedLandmarkList)
    : float :=
  let distance a b :=
    GetDistance sqrtf frame_width frame_height
      (landmark face_landmarks a) (landmark face_landmarks b) in
  div (average [distance 82 87; distance 13 14; distance 312 317]%Z)
      (distance 78 308)%Z.

(** A landmark list that [GetStatistics] does not skip. *)
Definition full_face (landmark_list : NormalizedLandmarkList) : bool :=
  negb (Z.of_nat (length landmark_list) <? kFaceMeshLandmarks)%Z.

(** The faces of a frame that [GetStatistics] does not skip. *)
Definition full_faces (landmark_lists : list NormalizedLandmarkList)
    : list NormalizedLandmarkList :=
  filter full_face landmark_lists.

(** What [MatchFace_loop] has established after the boxes [seen]:
    either nothing qualified yet, or [idx] is the first maximum of
    [seen] and [maxi_iou] is its IOU. *)
Definition match_state (iou_thr : float) (face_bbox : Detection)
    (seen : list Detection) (idx : Z) (maxi_iou : float) : Prop :=
  (idx = (-1)%Z /\ maxi_iou = zero /\ no_candidate iou_thr face_bbox seen)
  \/ (first_maximum iou_thr face_bbox seen idx /\
      exists bbox, nth_error seen (Z.to_nat idx) = Some bbox /\
                   maxi_iou = GetIOU bbox face_bbox).

(** The deque stored for a face, given what was in the current map
    under its index ([existing]), the matched previous history and the
    new statistic. *)
Definition stored_history (options_ : LipTrackCalculatorOptions)
    (previous_face_idx : Z) (existing previous : list float) (value : float)
    : list float :=
  if (previous_face_idx =? -1)%Z then existing ++ fresh_history value
  else matched_history options_ (existing ++ previous) value.

(** The ratchet of the classifier. *)
Definition ratchet (this : LipTrackCalculator) : float * float :=
  (speaker_mean_ this, speaker_variance_ this).

(** A buffered frame that the frame loop passes over. *)
Definition frame_skipped (signal : LipSignal) : bool :=
  match landmark_lists signal, detections signal with
  | [], _ | _, [] => true
  | _, _ => false
  end.

(** The members that the face loop leaves alone (all but the ratchet). *)
Definition same_but_ratchet (a b : LipTrackCalculator) : Prop :=
  face_bbox_ a = face_bbox_ b
  /\ face_statistics_ a = face_statistics_ b
  /\ meta_face_indices_ a = meta_face_indices_ b
  /\ pre_dominate_speaker_id_ a = pre_dominate_speaker_id_ b
  /\ pre_dominate_speaker_detection_ a = pre_dominate_speaker_detection_ b
  /\ last_shot_timestamp_ a = last_shot_timestamp_ b
  /\ frame_width_ a = frame_width_ b
  /\ frame_height_ a = frame_height_ b
  /\ signal_buff_ a = signal_buff_ b.

(** The members that the frame loop leaves alone. *)
Definition same_session (a b : LipTrackCalculator) : Prop :=
  pre_dominate_speaker_id_ a = pre_dominate_speaker_id_ b
  /\ pre_dominate_speaker_detection_ a = pre_dominate_speaker_detection_ b
  /\ last_shot_timestamp_ a = last_shot_timestamp_ b
  /\ frame_width_ a = frame_width_ b
  /\ frame_height_ a = frame_height_ b
  /\ signal_buff_ a = signal_buff_ b.

(** The history that the frame update stores for the face [bbox] whose
    statistic is [value], given the members [this] at the start of the
    frame. *)
Definition history_of_face (options_ : LipTrackCalculatorOptions)
    (this : LipTrackCalculator) (bbox : Detection) (value : float)
    : list float :=
  let previous_face_idx := MatchFace options_ (face_bbox_ this) bbox in
  stored_history options_ previous_face_idx []
    (StdMap.at_default previous_face_idx [] (face_statistics_ this)) value.

(** The current-frame history map after the faces [visited]: exactly
    the indices of [visited] are keys, each with the history of its
    face. *)
Definition histories_of (options_ : LipTrackCalculatorOptions)
    (this : LipTrackCalculator) (statistics : list float)
    (visited : list Detection) (stats : StdMap.t (list float)) : Prop :=
  (forall k, ~ (0 <= k < Z.of_nat (length visited))%Z ->
             StdMap.find k stats = None)
  /\ (forall k, (0 <= k < Z.of_nat (length visited))%Z ->
        exists bbox value,
          nth_error visited (Z.to_nat k) = Some bbox
          /\ vec_get statistics k = Ok value
          /\ StdMap.find k stats
             = Some (history_of_face options_ this bbox value)).

(** The hit-count map as the frame loop builds it: keys ascending,
    meta-face ids not negative, every count at least 1. *)
Definition hits_wellformed (hits : StdMap.t Z) : Prop :=
  StdMap.ordered hits
  /\ forall k count, In (k, count) hits -> (0 <= k)%Z /\ (1 <= count)%Z.

(** [dominate] is the meta face of highest count in [hits], the lowest
    id among those of that count; [-1] stands for no dominant speaker,
    which is the case just when there is no hit at all. *)
Definition dominant_of (hits : StdMap.t Z) (dominate : Z) : Prop :=
  (hits = [] /\ dominate = (-1)%Z)
  \/ (dominate <> (-1)%Z
      /\ exists count,
           In (dominate, count) hits
           /\ (forall k c, In (k, c) hits -> (c <= count)%Z)
           /\ (forall k, In (k, count) hits -> (dominate <= k)%Z)).

Definition nonnegative (ids : list Z) : Prop :=
  forall id, In id ids -> (0 <= id)%Z.

(** What the frame loop maintains about meta-face ids and hit counts. *)
Definition scene_invariant (this : LipTrackCalculator) (scene : SceneLocals)
    : Prop :=
  nonnegative (meta_face_indices_ this)
  /\ (0 <= meta_face_count scene)%Z
  /\ hits_wellformed (num_of_active_speaker scene).

(** The dominant speaker's detection in the closest frame, as
    [ProcessScene] computes it before the shot-boundary block. *)
Definition dominate_detection_of (sqrtf : float -> float)
    (options_ : LipTrackCalculatorOptions) (this : LipTrackCalculator)
    : outcome (list Detection) :=
  '(this1, scene) <- process_frames sqrtf options_ this ;;
  closest_detection (signal_buff_ this1)
    (StdMap.at_default
       (find_dominate_speaker (num_of_active_speaker scene)) []
       (meta_faces scene))
    0%Z.

(** Any two [true] packets of a shot stream are in timestamp order and
    their timestamps do not differ by less than [min_shot_span]
    seconds. *)
Definition debounced (options_ : LipTrackCalculatorOptions)
    (packets : list (bool * Z)) : Prop :=
  forall i j ti tj,
    (i < j)%nat ->
    nth_error packets i = Some (true, ti) ->
    nth_error packets j = Some (true, tj) ->
    (ti <= tj)%Z
    /\ ltb (diff_seconds tj ti) (min_shot_span options_) = false.

(** No [false] packet in a shot stream. *)
Definition only_changes (packets : list (bool * Z)) : Prop :=
  forall packet, In packet packets -> fst packet = true.

(** What holds between the calculator, the shot packets emitted so far
    and the inputs still to come, when input timestamps do not
    decrease. *)
Definition debounce_invariant (options_ : LipTrackCalculatorOptions)
    (this : LipTrackCalculator) (packets : list (bool * Z))
    (inputs : list ProcessInput) : Prop :=
  debounced options_ packets
  /\ (forall t, In (true, t) packets -> (t <= last_shot_timestamp_ this)%Z)
  /\ (forall t s, In (true, t) packets -> In s (signal_buff_ this) ->
                  (t <= timestamp s)%Z)
  /\ (forall t input, In (true, t) packets -> In input inputs ->
                      (t <= input_timestamp input)%Z)
  /\ (forall s input, In s (signal_buff_ this) -> In input inputs ->
                      (timestamp s <= input_timestamp input)%Z)
  /\ (output_shot_boundary_only_on_change options_ = true ->
      only_changes packets).

(** Input timestamps in non-decreasing order, as the framework delivers
    them. *)
Definition timestamps_ordered (inputs : list ProcessInput) : Prop :=
  StronglySorted Z.le (map input_timestamp inputs).

(** A buffered frame whose statistics line up with its detections: it
    is passed over, or no face is skipped and there is a landmark list
    for every detection. *)
Definition aligned (signal : LipSignal) : bool :=
  frame_skipped signal
  || (forallb full_face (landmark_lists signal)
      && (length (detections signal) <=? length (landmark_lists signal))%nat).

(** The rows of [meta_faces] during the evaluation of the window
    [buff]: one row of [buff]'s length for each id below
    [meta_face_count], and every slot that is not [-1] names a
    detection of its frame. *)
Definition rows_wellformed (buff : list LipSignal) (scene : SceneLocals)
    : Prop :=
  (0 <= meta_face_count scene)%Z
  /\ (forall m, (0 <= m < meta_face_count scene)%Z ->
        exists row, StdMap.find m (meta_faces scene) = Some row
                    /\ length row = length buff)
  /\ (forall m, ~ (0 <= m < meta_face_count scene)%Z ->
        StdMap.find m (meta_faces scene) = None)
  /\ (forall m row i face_id,
        StdMap.find m (meta_faces scene) = Some row ->
        nth_error row i = Some face_id -> face_id <> (-1)%Z ->
        exists signal, nth_error buff i = Some signal
                       /\ (0 <= face_id
                            < Z.of_nat (length (detections signal)))%Z).

(** Every meta face with a hit appears in some frame of its row. *)
Definition hits_have_rows (hits : StdMap.t Z) (scene : SceneLocals) : Prop :=
  forall m count, In (m, count) hits ->
    exists row i face_id,
      StdMap.find m (meta_faces scene) = Some row
      /\ nth_error row i = Some face_id /\ face_id <> (-1)%Z.

(** The state between two buffered frames of the window [buff]. *)
Definition window_invariant (buff : list LipSignal)
    (this : LipTrackCalculator) (scene : SceneLocals) : Prop :=
  length (meta_face_indices_ this) = length (face_bbox_ this)
  /\ (forall m, In m (meta_face_indices_ this) ->
        (0 <= m < meta_face_count scene)%Z)
  /\ rows_wellformed buff scene
  /\ hits_have_rows (num_of_active_speaker scene) scene.

(** The state between two faces of the frame at [buff_position]. *)
Definition face_loop_invariant (buff : list LipSignal) (buff_position : nat)
    (this : LipTrackCalculator) (hits : StdMap.t Z) (visited : list Detection)
    (s : LipTrackCalculator * SceneLocals * FrameLocals) : Prop :=
  let '(this_i, scene_i, frame_i) := s in
  same_but_ratchet this_i this
  /\ num_of_active_speaker scene_i = hits
  /\ rows_wellformed buff scene_i
  /\ (forall m, In m (meta_face_indices_ this) ->
        (0 <= m < meta_face_count scene_i)%Z)
  /\ hits_have_rows hits scene_i
  /\ length (cur_meta_face_indices frame_i) = length visited
  /\ (forall m, In m (cur_meta_face_indices frame_i) ->
        exists row face_id,
          StdMap.find m (meta_faces scene_i) = Some row
          /\ nth_error row buff_position = Some face_id
          /\ face_id <> (-1)%Z)
  /\ (cur_speaker_id frame_i = (-1)%Z
      \/ (0 <= cur_speaker_id frame_i < Z.of_nat (length visited))%Z).

(** A calculator at the start of a window evaluation: no faces carried
    over from an earlier window, a non-empty buffer, and every buffered
    frame aligned. *)
Definition window_ready (this : LipTrackCalculator) : Prop :=
  face_bbox_ this = []
  /\ meta_face_indices_ this = []
  /\ signal_buff_ this <> []
  /\ Forall (fun signal => aligned signal = true) (signal_buff_ this).

(** An input of [Process] with its video frame, whose landmarks and
    detections (when both are present) are aligned. *)
Definition input_aligned (input : ProcessInput) : bool :=
  match video input with
  | None => false
  | Some _ =>
      match input_landmarks input, input_detections input with
      | Some lists, Some dets =>
          aligned (mkSignal lists dets (input_timestamp input))
      | _, _ => true
      end
  end.

(** Between two [Process] calls no face is carried over unless frames
    are buffered, and the buffered frames are aligned. *)
Definition between_windows (this : LipTrackCalculator) : Prop :=
  face_bbox_ this = []
  /\ meta_face_indices_ this = []
  /\ Forall (fun signal => aligned signal = true) (signal_buff_ this).

(* ================================================================= *)
(** ** Concrete inputs *)

(** A square root that is exact on squares of rationals, for running
    the calculator on concrete landmarks. *)
Definition sqrt_exact (a : float) : float :=
  match a with
  | Fin q =>
      if Qlt_bool q 0 then NaN
      else Fin (Z.sqrt (Qnum q) # Pos.sqrt (Qden q))
  | Inf false => Inf false
  | Inf true => NaN
  | NaN => NaN
  end.

Definition box (x y w h : Q) : Detection :=
  mkDetection (Fin x) (Fin y) (Fin w) (Fin h).

Definition point (x y : Q) : NormalizedLandmark := mkLandmark (Fin x) (Fin y).

(** A full face mesh (468 landmarks) whose inner mouth corners are [w]
    apart and whose three upper/lower lip pairs are each [h] apart (in
    a frame of 1 x 1 pixels). *)
Definition face (w h : Q) : NormalizedLandmarkList :=
  map (fun i : nat =>
         if (i =? 308)%nat then point w 0
         else if ((i =? 87) || (i =? 14) || (i =? 317))%nat then point 0 h
         else point 0 0)
      (seq 0 468).

(** A landmark list that is too short for the lip indices. *)
Definition short_face : NormalizedLandmarkList := [point 0 0].

Definition example_options : LipTrackCalculatorOptions :=
  mkOptions 0 1 1 (Fin 1) (Fin 0) (Fin 1) (Fin 0) (Fin (1 # 2)) (Fin 2)
            true false.

Definition example_graph : GraphConfig := mkGraph true.

Definition short_history_options : LipTrackCalculatorOptions :=
  mkOptions 0 2 3 (Fin 1) (Fin 0) (Fin 1) (Fin 0) (Fin (1 # 2)) (Fin 2)
            true false.

Definition frame_input (lists : list NormalizedLandmarkList)
    (dets : list Detection) (ts : Z) : ProcessInput :=
  mkInput (Some (1, 1)%Z) (Some lists) (Some dets) ts.

(** The object once the first frame has fixed the frame size (1 x 1),
    holding the buffered frames [buff]. *)
Definition ready (buff : list LipSignal) : LipTrackCalculator :=
  mkCalculator [] StdMap.empty [] zero zero (-1)%Z [] 0%Z 1%Z 1%Z buff.

Definition zero_history_options : LipTrackCalculatorOptions :=
  mkOptions 0 0 1 (Fin 1) (Fin 0) (Fin 1) (Fin 0) (Fin (1 # 2)) (Fin 2)
            true false.

(** Two buffered frames with the same face box; the mouth is wide open
    in the first (ratio 2) and less so in the second (ratio 1). *)
Definition two_frame_window : list LipSignal :=
  [ mkSignal [face 1 2] [box 0 0 1 1] 0%Z;
    mkSignal [face 1 1] [box 0 0 1 1] 1%Z ].

(** One buffered frame, one second after the start, with a face whose
    mouth is wide open. *)
Definition late_window : list LipSignal :=
  [ mkSignal [face 1 2] [box 0 0 1 1] 1000000%Z ].

(** Four frames, each evaluated as a window of its own (the speaker
    span of [example_options] is 0): a speaker appears at 3 s, and the
    speaking face sits in a different place at 4 s, 5.5 s and 8 s. *)
Definition debounce_inputs : list ProcessInput :=
  [ frame_input [face 1 2] [box 0 0 1 1] 3000000;
    frame_input [face 1 2] [box 5 5 1 1] 4000000;
    frame_input [face 1 2] [box 0 0 1 1] 5500000;
    frame_input [face 1 2] [box 5 5 1 1] 8000000 ]%Z.

(* ================================================================= *)
(** ** Further properties of the calculator *)

(** The detection list that the ROI loop carries when it reaches the
    frame at position [p]: the closest detection before the first
    frame, and afterwards what the packet of the frame before holds. *)
Definition box_before (closest : Detection)
    (packets : list (list Detection * Z)) (p : nat) : list Detection :=
  match p with
  | O => [closest]
  | S p' =>
      match nth_error packets p' with
      | Some packet => fst packet
      | None => []
      end
  end.

(** The row of the dominant meta face, as [ProcessScene] reads it from
    [meta_faces] after the frame loop. *)
Definition dominate_row (scene : SceneLocals) : list Z :=
  StdMap.at_default (find_dominate_speaker (num_of_active_speaker scene)) []
    (meta_faces scene).

(** The previous dominant speaker is recorded consistently: no id and
    no detection, or an id and exactly one detection. *)
Definition pre_consistent (this : LipTrackCalculator) : Prop :=
  (pre_dominate_speaker_id_ this = (-1)%Z
   /\ pre_dominate_speaker_detection_ this = [])
  \/ (pre_dominate_speaker_id_ this <> (-1)%Z
      /\ exists box, pre_dominate_speaker_detection_ this = [box]).

(** The signal that [Process] buffers for an input. *)
Definition signal_of (input : ProcessInput) : LipSignal :=
  match input_landmarks input, input_detections input with
  | Some lists, Some dets => mkSignal lists dets (input_timestamp input)
  | _, _ => mkSignal [] [] (input_timestamp input)
  end.

(** The buffered frames span less than [min_speaker_span]. *)
Definition within_span (options_ : LipTrackCalculatorOptions)
    (buff : list LipSignal) : Prop :=
  forall first rest signal,
    buff = first :: rest -> In signal buff ->
    (timestamp signal - timestamp first < min_speaker_span options_)%Z.

(** The buffered frames that the frame loop does not pass over. *)
Definition processed_frames (buff : list LipSignal) : nat :=
  length (filter (fun signal => negb (frame_skipped signal)) buff).

(** The number of faces among [dets] that [MatchFace] reports as new
    against the boxes stored in [this]. *)
Definition unmatched (options_ : LipTrackCalculatorOptions)
    (this : LipTrackCalculator) (dets : list Detection) : nat :=
  length (filter (fun bbox =>
                    (MatchFace options_ (face_bbox_ this) bbox =? -1)%Z)
                 dets).

(** [m] is the meta-face id that the frame update gives to the face
    [bbox] that comes after the faces [before] in its frame: the id of
    the previous face it matches, or the next unused id. *)
Definition meta_id_of (options_ : LipTrackCalculatorOptions)
    (this : LipTrackCalculator) (scene : SceneLocals)
    (before : list Detection) (bbox : Detection) (m : Z) : Prop :=
  let previous_face_idx := MatchFace options_ (face_bbox_ this) bbox in
  if (previous_face_idx =? -1)%Z
  then m = (meta_face_count scene
            + Z.of_nat (unmatched options_ this before))%Z
  else vec_get (meta_face_indices_ this) previous_face_idx = Ok m.

(** The object on which [Process] evaluates a window when the input
    has a video frame: the frame size is fixed and the input's signal
    is buffered. *)
Definition buffered (this : LipTrackCalculator) (input : ProcessInput)
    : LipTrackCalculator :=
  match video input with
  | None => this
  | Some (frame_w, frame_h) =>
      let '(w, h) :=
        if (frame_width_ this <? 0)%Z then (frame_w, frame_h)
        else (frame_width_ this, frame_height_ this) in
      mkCalculator (face_bbox_ this) (face_statistics_ this)
        (meta_face_indices_ this) (speaker_mean_ this)
        (speaker_variance_ this) (pre_dominate_speaker_id_ this)
        (pre_dominate_speaker_detection_ this) (last_shot_timestamp_ this)
        w h (signal_buff_ this ++ [signal_of input])
  end.

(** In the frame loop of the window evaluated from [start], the
    ratchet is zero at the start of every buffered frame. *)
Definition frames_start_at_zero (sqrtf : float -> float)
    (options_ : LipTrackCalculatorOptions) (start : LipTrackCalculator)
    : Prop :=
  forall visited signal rest this_i scene_i,
    signal_buff_ start = visited ++ signal :: rest ->
    for_each (frame_step sqrtf options_ (length (signal_buff_ start)))
      visited 0%Z (start, mkScene StdMap.empty 0%Z StdMap.empty)
    = Ok (this_i, scene_i) ->
    ratchet this_i = (zero, zero).

(** The meta face of the speaker of one buffered frame, as the frame
    loop determines it before it counts the hit
    ([cur_meta_face_indices[cur_speaker_id]]): none when the frame is
    passed over or no face of it is classified as speaking. *)
Definition frame_speaker (sqrtf : float -> float)
    (options_ : LipTrackCalculatorOptions) (buff_size : nat)
    (s : LipTrackCalculator * SceneLocals) (buff_position : Z)
    (signal : LipSignal) : option Z :=
  let '(this, scene) := s in
  if frame_skipped signal then None
  else
    match for_each
            (face_step options_ buff_size buff_position
               (GetStatistics sqrtf (frame_width_ this) (frame_height_ this)
                  (landmark_lists signal) []))
            (detections signal) 0%Z
            (this, scene, mkFrame StdMap.empty [] (-1)%Z) with
    | Ok (_, _, frame) =>
        if (cur_speaker_id frame =? -1)%Z then None
        else match vec_get (cur_meta_face_indices frame)
                           (cur_speaker_id frame) with
             | Ok meta_face => Some meta_face
             | _ => None
             end
    | _ => None
    end.

(** The speakers of the buffered frames [buff], in buffer order, when
    the frame loop runs over them from the state [s]. *)
Fixpoint window_speakers (sqrtf : float -> float)
    (options_ : LipTrackCalculatorOptions) (buff_size : nat)
    (buff : list LipSignal) (buff_position : Z)
    (s : LipTrackCalculator * SceneLocals) : list (option Z) :=
  match buff with
  | [] => []
  | signal :: rest =>
      frame_speaker sqrtf options_ buff_size s buff_position signal
      :: match frame_step sqrtf options_ buff_size s buff_position signal with
         | Ok s' =>
             window_speakers sqrtf options_ buff_size rest
               (buff_position + 1)%Z s'
         | _ => []
         end
  end.

(** The speakers of the frames of the window evaluated from [this]. *)
Definition speakers_of (sqrtf : float -> float)
    (options_ : LipTrackCalculatorOptions) (this : LipTrackCalculator)
    : list (option Z) :=
  window_speakers sqrtf options_ (length (signal_buff_ this))
    (signal_buff_ this) 0%Z (this, mkScene StdMap.empty 0%Z StdMap.empty).

(** The speaking-hit count of a meta face: the number of frames whose
    speaker it is. *)
Definition speaking_hits (meta_face : Z) (speakers : list (option Z)) : Z :=
  Z.of_nat
    (length (filter (fun speaker : option Z =>
                       match speaker with
                       | Some m => (m =? meta_face)%Z
                       | None => false
                       end)
                    speakers)).

(** [dominate] is the meta face with the most speaking hits, the lowest
    id among those with the most; [-1] stands for no dominant speaker,
    which is the case just when no meta face has a hit. *)
Definition most_hits (speakers : list (option Z)) (dominate : Z) : Prop :=
  ((forall m, speaking_hits m speakers = 0%Z) /\ dominate = (-1)%Z)
  \/ (dominate <> (-1)%Z
      /\ (0 < speaking_hits dominate speakers)%Z
      /\ forall m,
           (speaking_hits m speakers <= speaking_hits dominate speakers)%Z
           /\ (speaking_hits m speakers = speaking_hits dominate speakers ->
               (dominate <= m)%Z)).

(* ================================================================= *)
(** ** Further concrete inputs *)

(** Three buffered frames: no face in the first, a speaking face in the
    second, and a different speaking face elsewhere in the third. *)
Definition gap_window : list LipSignal :=
  [ mkSignal [] [] 0%Z;
    mkSignal [face 1 2] [box 0 0 1 1] 1%Z;
    mkSignal [face 1 1] [box 5 5 1 1] 2%Z ].

(** Options whose windows span two timestamp units. *)
Definition span_options : LipTrackCalculatorOptions :=
  mkOptions 2 1 1 (Fin 1) (Fin 0) (Fin 1) (Fin 0) (Fin (1 # 2)) (Fin 2)
            true false.

(** Five frames with the same speaking face at timestamps 0 to 4: the
    third input closes the first window, the fourth opens the next. *)
Definition span_inputs : list ProcessInput :=
  [ frame_input [face 1 2] [box 0 0 1 1] 0;
    frame_input [face 1 2] [box 0 0 1 1] 1;
    frame_input [face 1 2] [box 0 0 1 1] 2;
    frame_input [face 1 2] [box 0 0 1 1] 3;
    frame_input [face 1 2] [box 0 0 1 1] 4 ]%Z.

(** A video frame of 1 x 1 pixels without landmarks or detections, and
    a later one of 4 x 3 pixels. *)
Definition small_frame : ProcessInput := mkInput (Some (1, 1)%Z) None None 0%Z.
Definition large_frame : ProcessInput := mkInput (Some (4, 3)%Z) None None 1%Z.

(** A graph that does not connect the IS_SPEAKER_CHANGE stream. *)
Definition silent_graph : GraphConfig := mkGraph false.

(** Options that ask for histories of more than two values. *)
Definition long_history_options : LipTrackCalculatorOptions :=
  mkOptions 0 4 1 (Fin 1) (Fin 0) (Fin 1) (Fin 0) (Fin (1 # 2)) (Fin 2)
            true false.

(** The second frame of a window: the box of the first frame again,
    and a box elsewhere. *)
Definition two_face_signal : LipSignal :=
  mkSignal [face 1 2; face 1 1] [box 5 5 1 1; box 0 0 1 1] 1%Z.

(** Members in the middle of a window of two frames: the frame before
    had one face, with the box [box 0 0 1 1] and the meta-face id 0. *)
Definition after_first_frame : LipTrackCalculator :=
  mkCalculator [box 0 0 1 1] [(0%Z, [Fin 2])] [0%Z] zero zero (-1)%Z [] 0%Z
    1%Z 1%Z [mkSignal [face 1 2] [box 0 0 1 1] 0%Z; two_face_signal].

(** The scene locals that go with [after_first_frame]. *)
Definition after_first_scene : SceneLocals :=
  mkScene [(0%Z, [0%Z; (-1)%Z])] 1%Z [(0%Z, 1%Z)].

(** An input without a video frame. *)
Definition blind_input : ProcessInput :=
  mkInput None (Some [face 1 2]) (Some [box 0 0 1 1]) 9000000%Z.

(** A window of one frame evaluated after a window whose dominant
    speaker had the box [box 0 0 1 1]. *)
Definition follow_up : LipTrackCalculator :=
  mkCalculator [] StdMap.empty [] zero zero 0%Z [box 0 0 1 1] 0%Z 1%Z 1%Z
    [mkSignal [face 1 2] [box 0 0 1 1] 5000000%Z].

(** Three buffered frames: a speaking face, then twice a speaking face
    elsewhere. *)
Definition contest_window : list LipSignal :=
  [ mkSignal [face 1 2] [box 0 0 1 1] 0%Z;
    mkSignal [face 1 2] [box 5 5 1 1] 1%Z;
    mkSignal [face 1 2] [box 5 5 1 1] 2%Z ].

(** Members in the middle of a window of two frames: the frame before
    had one face, with the box [box 0 0 1 1] and the history of two
    values [1; 2]. *)
Definition full_history_state : LipTrackCalculator :=
  mkCalculator [box 0 0 1 1] [(0%Z, [Fin 1; Fin 2])] [0%Z] zero zero (-1)%Z []
    0%Z 1%Z 1%Z
    [ mkSignal [face 1 1] [box 0 0 1 1] 0%Z;
      mkSignal [face 1 3] [box 0 0 1 1] 1%Z ].

(* ================================================================= *)
(** * Proofs *)

Unset Implicit Arguments.

(** ** Order facts on [F.float] *)

Lemma Qlt_bool_iff (a b : Q) : Qlt_bool a b = true <-> (a < b)%Q.
Proof.
  unfold Qlt_bool. rewrite negb_true_iff. split; intro H.
  - apply Qnot_le_lt. intro Hle. apply Qle_bool_iff in Hle. congruence.
  - destruct (Qle_bool b a) eqn:E; [|reflexivity].
    apply Qle_bool_iff in E. exfalso. apply (Qlt_not_le _ _ H E).
Qed.

Lemma Qlt_bool_false_iff (a b : Q) : Qlt_bool a b = false <-> (b <= a)%Q.
Proof.
  unfold Qlt_bool. rewrite negb_false_iff. apply Qle_bool_iff.
Qed.

Lemma Qle_bool_false_iff (a b : Q) : Qle_bool a b = false <-> (b < a)%Q.
Proof.
  rewrite <- Qlt_bool_iff. unfold Qlt_bool.
  destruct (Qle_bool a b); simpl; intuition congruence.
Qed.

Lemma Qeq_bool_false_iff (a b : Q) : Qeq_bool a b = false <-> ~ (a == b)%Q.
Proof.
  split; intro H.
  - intro E. apply Qeq_bool_iff in E. congruence.
  - destruct (Qeq_bool a b) eqn:E; [|reflexivity].
    apply Qeq_bool_iff in E. contradiction.
Qed.

(** Turns boolean comparisons of rationals into propositions. *)
Ltac qprop :=
  repeat match goal with
  | H : Qlt_bool _ _ = true |- _ => apply Qlt_bool_iff in H
  | H : Qlt_bool _ _ = false |- _ => apply Qlt_bool_false_iff in H
  | H : Qle_bool _ _ = true |- _ => apply Qle_bool_iff in H
  | H : Qle_bool _ _ = false |- _ => apply Qle_bool_false_iff in H
  | H : Qeq_bool _ _ = true |- _ => apply Qeq_bool_iff in H
  | H : Qeq_bool _ _ = false |- _ => apply Qeq_bool_false_iff in H
  | |- Qlt_bool _ _ = true => apply Qlt_bool_iff
  | |- Qlt_bool _ _ = false => apply Qlt_bool_false_iff
  | |- Qle_bool _ _ = true => apply Qle_bool_iff
  | |- Qle_bool _ _ = false => apply Qle_bool_false_iff
  | |- Qeq_bool _ _ = true => apply Qeq_bool_iff
  | |- Qeq_bool _ _ = false => apply Qeq_bool_false_iff
  end.

(** Decides an order fact between floats by cases on their shape. *)
Ltac float_order :=
  intros;
  repeat match goal with
  | a : float |- _ => destruct a as [? | [|] | ]
  end;
  simpl in *; try discriminate; try reflexivity; try assumption;
  qprop; try lra.

Lemma ltb_irrefl (a : float) : ltb a a = false.
Proof. float_order. Qed.

Lemma below_threshold_not_above (v thr m : float) :
  ltb v thr = true -> ltb m thr = false -> ltb zero m = true ->
  leb m v = false.
Proof. float_order. Qed.

Lemma not_positive_not_above (v m : float) :
  ltb zero v = false -> ltb zero m = true -> leb m v = false.
Proof. float_order. Qed.

Lemma leb_false_ltb_false (a b : float) : leb a b = false -> ltb a b = false.
Proof. float_order. Qed.

Lemma not_above_trans (m m' v : float) :
  ltb m m' = true -> ltb m v = false -> leb m' v = false.
Proof. float_order. Qed.

(* ================================================================= *)
(** ** Intersection over union of zero-area boxes *)

Lemma zero_area_cases (x y w h : Q) :
  zero_area (mkDetection (Fin x) (Fin y) (Fin w) (Fin h)) = true ->
  (w == 0)%Q \/ (h == 0)%Q.
Proof.
  unfold zero_area, rect_area, DetectionToRect; simpl. intro H.
  apply Qeq_bool_iff in H. apply Qmult_integral in H. exact H.
Qed.

(** The intersection of a zero-area box with anything is the default
    (all-zero) rectangle. *)
Lemma rect_and_zero_area (x y w h x' y' w' h' : Q) :
  (w == 0)%Q \/ (h == 0)%Q ->
  rect_and (mkRect (Fin x) (Fin y) (Fin w) (Fin h))
           (mkRect (Fin x') (Fin y') (Fin w') (Fin h')) = rect_default.
Proof.
  intro Hz. unfold rect_and, min, max; simpl.
  destruct (Qlt_bool x x') eqn:E1, (Qlt_bool (x' + w') (x + w)) eqn:E2,
           (Qlt_bool y y') eqn:E3, (Qlt_bool (y' + h') (y + h)) eqn:E4;
    simpl;
    match goal with
    | |- (if ?c then _ else _) = _ =>
        assert (Hc : c = true); [ | rewrite Hc; reflexivity ]
    end;
    apply orb_true_iff; qprop;
    (destruct Hz as [Hz | Hz]; [left | right]);
    qprop; lra.
Qed.

Lemma rect_or_zero_area (x y w h : Q) (r : Rect2f) :
  (w == 0)%Q \/ (h == 0)%Q ->
  rect_or (mkRect (Fin x) (Fin y) (Fin w) (Fin h)) r = r.
Proof.
  intro Hz. unfold rect_or, rect_empty; simpl.
  assert (Hc : Qle_bool w 0 || Qle_bool h 0 = true).
  { apply orb_true_iff. destruct Hz; [left | right]; qprop; lra. }
  rewrite Hc. reflexivity.
Qed.

(** C6 (as amended): for two zero-area boxes with finite coordinates
    [GetIOU] divides a zero intersection area by a zero union area and
    returns NaN; no guard replaces the result by 0. *)
Theorem GetIOU_zero_area_is_nan (bbox_1 bbox_2 : Detection) :
  finite_box bbox_1 -> finite_box bbox_2 ->
  zero_area bbox_1 = true -> zero_area bbox_2 = true ->
  GetIOU bbox_1 bbox_2 = NaN.
Proof.
  intros (x & y & w & h & ->) (x' & y' & w' & h' & ->) Ha Hb.
  pose proof (zero_area_cases _ _ _ _ Ha) as Hz.
  unfold GetIOU, DetectionToRect; simpl.
  rewrite (rect_and_zero_area x y w h x' y' w' h' Hz).
  rewrite (rect_or_zero_area x y w h _ Hz).
  unfold zero_area, rect_area, DetectionToRect in Hb; simpl in Hb.
  unfold rect_area; simpl. rewrite Hb. reflexivity.
Qed.

Lemma GetIOU_zero_area_is_nan_witness :
  GetIOU (box 0 0 0 1) (box 5 5 2 0) = NaN.
Proof.
  apply GetIOU_zero_area_is_nan.
  - exists 0%Q, 0%Q, 0%Q, 1%Q. reflexivity.
  - exists 5%Q, 5%Q, 2%Q, 0%Q. reflexivity.
  - reflexivity.
  - reflexivity.
Defined.

(** C6 (as stated) fails: the all-zero box has zero area, and its IOU
    with itself is NaN, which is not 0. *)
Lemma GetIOU_degenerate_not_zero :
  zero_area (box 0 0 0 0) = true /\
  GetIOU (box 0 0 0 0) (box 0 0 0 0) = NaN /\
  ~ (forall bbox_1 bbox_2 : Detection,
       zero_area bbox_1 = true -> zero_area bbox_2 = true ->
       eqb (GetIOU bbox_1 bbox_2) zero = true).
Proof.
  split; [reflexivity | split; [reflexivity | ]].
  intro H. specialize (H (box 0 0 0 0) (box 0 0 0 0) eq_refl eq_refl).
  vm_compute in H. discriminate.
Qed.

(* ================================================================= *)
(** ** Face association *)

Lemma ltb_trans (a b c : float) :
  ltb a b = true -> ltb b c = true -> ltb a c = true.
Proof. float_order. Qed.

Lemma match_state_skip iou_thr face_bbox seen idx maxi_iou bbox :
  match_state iou_thr face_bbox seen idx maxi_iou ->
  ltb (GetIOU bbox face_bbox) iou_thr = true
  \/ (ltb (GetIOU bbox face_bbox) iou_thr = false
      /\ gtb (GetIOU bbox face_bbox) maxi_iou = false) ->
  match_state iou_thr face_bbox (seen ++ [bbox]) idx maxi_iou.
Proof.
  intros [(-> & -> & Hno) | (Hfm & b & Hb & ->)] Hv.
  - left. repeat split; trivial. intros b' Hin.
    apply in_app_or in Hin. destruct Hin as [Hin | [<- | []]]; auto.
    destruct Hv as [Hv | [_ Hv]]; auto.
  - right. destruct Hfm as (Hpos & b0 & Hb0 & Hthr & Hgt & Hmax & Hfirst).
    assert (b0 = b) by congruence. subst b0.
    assert (Hlen : (Z.to_nat idx < length seen)%nat).
    { apply nth_error_Some. congruence. }
    split.
    + split; trivial. exists b. repeat split; trivial.
      * rewrite nth_error_app1; trivial.
      * intros other Hin. apply in_app_or in Hin.
        destruct Hin as [Hin | [<- | []]]; auto.
        destruct Hv as [Hv | [_ Hv]].
        -- apply leb_false_ltb_false.
           apply (below_threshold_not_above _ _ _ Hv Hthr Hgt).
        -- exact Hv.
      * intros j other Hj Hnth. apply (Hfirst j other Hj).
        rewrite nth_error_app1 in Hnth; trivial. lia.
    + exists b. split; trivial. rewrite nth_error_app1; trivial.
Qed.

Lemma match_state_take iou_thr face_bbox seen idx maxi_iou bbox :
  match_state iou_thr face_bbox seen idx maxi_iou ->
  ltb (GetIOU bbox face_bbox) iou_thr = false ->
  gtb (GetIOU bbox face_bbox) maxi_iou = true ->
  match_state iou_thr face_bbox (seen ++ [bbox])
    (Z.of_nat (length seen)) (GetIOU bbox face_bbox).
Proof.
  intros Hst Hthr Hgt. unfold gtb in Hgt.
  assert (Hnth : nth_error (seen ++ [bbox]) (Z.to_nat (Z.of_nat (length seen)))
                 = Some bbox).
  { rewrite Nat2Z.id, nth_error_app2, Nat.sub_diag by lia. reflexivity. }
  assert (Hpos : gtb (GetIOU bbox face_bbox) zero = true).
  { destruct Hst as [(_ & -> & _) | ((_ & b0 & Hb0 & _ & Hg0 & _) & b & Hb & ->)].
    - exact Hgt.
    - assert (b0 = b) by congruence. subst b0.
      unfold gtb in *. exact (ltb_trans _ _ _ Hg0 Hgt). }
  assert (Hseen : forall other, In other seen ->
            leb (GetIOU bbox face_bbox) (GetIOU other face_bbox) = false).
  { intros other Hin.
    destruct Hst as [(_ & _ & Hno) | ((_ & b0 & Hb0 & _ & _ & Hmax & _) & b & Hb & ->)].
    - destruct (Hno other Hin) as [Hlow | Hnp].
      + exact (below_threshold_not_above _ _ _ Hlow Hthr Hpos).
      + exact (not_positive_not_above _ _ Hnp Hpos).
    - assert (b0 = b) by congruence. subst b0.
      exact (not_above_trans _ _ _ Hgt (Hmax other Hin)). }
  right. split.
  - split; [lia | ]. exists bbox. repeat split; trivial.
    + intros other Hin. apply in_app_or in Hin.
      destruct Hin as [Hin | [<- | []]].
      * apply leb_false_ltb_false. auto.
      * apply ltb_irrefl.
    + intros j other Hj Hnthj. rewrite Nat2Z.id in Hj.
      rewrite nth_error_app1 in Hnthj by trivial.
      apply Hseen. exact (nth_error_In _ _ Hnthj).
  - exists bbox. split; trivial.
Qed.

Lemma MatchFace_loop_state iou_thr face_bbox rest :
  forall seen idx maxi_iou,
    match_state iou_thr face_bbox seen idx maxi_iou ->
    exists maxi_iou',
      match_state iou_thr face_bbox (seen ++ rest)
        (MatchFace_loop iou_thr face_bbox rest (Z.of_nat (length seen))
           idx maxi_iou)
        maxi_iou'.
Proof.
  induction rest as [| bbox rest IH]; intros seen idx maxi_iou Hst; simpl.
  - rewrite app_nil_r. eauto.
  - replace (seen ++ bbox :: rest) with ((seen ++ [bbox]) ++ rest)
      by (rewrite <- app_assoc; reflexivity).
    replace (Z.of_nat (length seen) + 1)%Z
      with (Z.of_nat (length (seen ++ [bbox])))
      by (rewrite length_app; simpl; lia).
    destruct (ltb (GetIOU bbox face_bbox) iou_thr) eqn:Hthr.
    + apply IH. apply match_state_skip; auto.
    + destruct (gtb (GetIOU bbox face_bbox) maxi_iou) eqn:Hgt.
      * apply IH. apply (match_state_take _ _ _ idx maxi_iou); auto.
      * apply IH. apply match_state_skip; auto.
Qed.

(** The two outcomes of [MatchFace]. *)
Lemma MatchFace_outcome (options_ : LipTrackCalculatorOptions)
    (previous : list Detection) (face_bbox : Detection) :
  (MatchFace options_ previous face_bbox = (-1)%Z
   /\ no_candidate (iou_threshold options_) face_bbox previous)
  \/ first_maximum (iou_threshold options_) face_bbox previous
       (MatchFace options_ previous face_bbox).
Proof.
  unfold MatchFace.
  destruct (MatchFace_loop_state (iou_threshold options_) face_bbox previous
              [] (-1)%Z zero) as (m & Hm).
  - left. repeat split. intros b [].
  - simpl in Hm. destruct Hm as [(H1 & _ & H3) | (H1 & _)]; auto.
Qed.

(** C5 (as amended): [MatchFace] returns [-1] ("new") when no previous
    detection has an IOU that is both not below [iou_threshold] and
    above zero; otherwise it returns the index of the previous
    detection of maximum IOU, the first one in previous-detection
    order under ties. An IOU equal to the threshold matches. *)
Theorem MatchFace_first_maximum (options_ : LipTrackCalculatorOptions)
    (previous : list Detection) (face_bbox : Detection) :
  (MatchFace options_ previous face_bbox = (-1)%Z
   /\ no_candidate (iou_threshold options_) face_bbox previous)
  \/ first_maximum (iou_threshold options_) face_bbox previous
       (MatchFace options_ previous face_bbox).
Proof. apply MatchFace_outcome. Qed.

(** C5 (as stated) fails: a previous box whose IOU equals the
    threshold 1/2 is returned as the match. *)
Lemma MatchFace_equal_threshold_matches :
  iou_threshold example_options = Fin (1 # 2) /\
  GetIOU (box 0 0 1 1) (box 0 0 1 2) = Fin (1 # 2) /\
  gtb (GetIOU (box 0 0 1 1) (box 0 0 1 2)) (iou_threshold example_options)
    = false /\
  MatchFace example_options [box 0 0 1 1] (box 0 0 1 2) = 0%Z.
Proof. repeat split. Qed.

(* ================================================================= *)
(** ** The short mean of the classifier *)

Lemma skipn_nth_cons (d : list float) :
  forall first, (first < length d)%nat ->
    skipn first d = nth first d zero :: skipn (S first) d.
Proof.
  induction d as [| v d IH]; intros [| first] Hlt; simpl in *; try lia.
  - reflexivity.
  - apply IH. lia.
Qed.

Lemma sum_indices_skipn (d : list float) :
  forall count first acc,
    (first + count = length d)%nat ->
    sum_indices d first count acc = sum_from acc (skipn first d).
Proof.
  induction count as [| count IH]; intros first acc Hlen; simpl.
  - rewrite skipn_all2 by lia. reflexivity.
  - rewrite IH by lia. rewrite (skipn_nth_cons d first) by lia. reflexivity.
Qed.

Lemma last_values_skipn (n : nat) (history : list float) :
  last_values n history = skipn (length history - n) history.
Proof.
  unfold last_values. rewrite firstn_rev, rev_involutive. reflexivity.
Qed.

Lemma length_last_values (n : nat) (history : list float) :
  (n <= length history)%nat -> length (last_values n history) = n.
Proof.
  intro H. rewrite last_values_skipn, length_skipn. lia.
Qed.

(** C4 (as amended): for a history that passes the minimum-evidence
    check, [mean_short] is the average of the last [mean_history]
    values when the history has at least that many, and otherwise it
    is the value at the front of the history (the oldest one), which is
    the only stored value just when the length is 1. *)
Theorem mean_short_of_history (options_ : LipTrackCalculatorOptions)
    (history : list float) :
  (variance_history options_ / 2 < length history)%nat ->
  (forall mean variance,
      snd (IsActiveSpeaker options_ mean variance history)
      = if speaking_test options_ mean variance
             (mean_short_of options_ history) (variance_of history)
        then (mean_short_of options_ history, variance_of history)
        else (mean, variance))
  /\ ((mean_history options_ <= length history)%nat ->
      mean_short_of options_ history
      = average (last_values (mean_history options_) history))
  /\ ((length history < mean_history options_)%nat ->
      exists oldest rest,
        history = oldest :: rest /\ mean_short_of options_ history = oldest).
Proof.
  intro Hpass. split; [ | split ].
  - intros mean variance. unfold IsActiveSpeaker.
    destruct (Nat.leb_spec (length history) (variance_history options_ / 2));
      [lia | ].
    destruct (speaking_test _ _ _ _ _); reflexivity.
  - intro Hlen. unfold mean_short_of, average.
    destruct (Nat.ltb_spec (length history) (mean_history options_)); [lia | ].
    rewrite sum_indices_skipn by lia.
    rewrite length_last_values by trivial.
    rewrite last_values_skipn. reflexivity.
  - intro Hlen. unfold mean_short_of.
    destruct (Nat.ltb_spec (length history) (mean_history options_)); [ | lia].
    destruct history as [| oldest rest]; [simpl in Hpass; lia | ].
    exists oldest, rest. split; reflexivity.
Qed.

Lemma mean_short_of_history_witness :
  mean_short_of example_options [Fin 3]
  = average (last_values 1 [Fin 3]).
Proof.
  apply (mean_short_of_history example_options [Fin 3]); simpl; lia.
Defined.

(** C4 (as stated) fails for a history of two values that is shorter
    than [mean_history]: [mean_short] is the older value 1; the history
    is not a single value, and 1 is neither the newest value nor the
    average. *)
Lemma mean_short_not_single_value :
  let history := [Fin 1; Fin 2] in
  (variance_history short_history_options / 2 < length history)%nat /\
  (length history < mean_history short_history_options)%nat /\
  mean_short_of short_history_options history = Fin 1 /\
  ~ (exists value, history = [value]
                   /\ mean_short_of short_history_options history = value).
Proof.
  simpl. repeat split; try (simpl; lia).
  intros (value & H & _). discriminate.
Qed.

(* ================================================================= *)
(** ** The lip statistic extractor *)

Section Statistics.

Variable sqrtf : float -> float.
Variables frame_width frame_height : Z.

(** The extractor appends one entry per face that is not skipped. *)
Lemma GetStatistics_loop_length (landmark_lists : list NormalizedLandmarkList) :
  forall mouth_width mouth_height lip_statistics,
    length (GetStatistics_loop sqrtf frame_width frame_height landmark_lists
              mouth_width mouth_height lip_statistics)
    = (length lip_statistics + length (full_faces landmark_lists))%nat.
Proof.
  induction landmark_lists as [| l rest IH]; intros mw mh stats; simpl.
  - lia.
  - unfold full_face.
    destruct (Z.of_nat (length l) <? kFaceMeshLandmarks)%Z; simpl.
    + apply IH.
    + rewrite IH, length_app. simpl. lia.
Qed.

Lemma GetStatistics_length (landmark_lists : list NormalizedLandmarkList) :
  length (GetStatistics sqrtf frame_width frame_height landmark_lists [])
  = length (full_faces landmark_lists).
Proof. unfold GetStatistics. rewrite GetStatistics_loop_length. reflexivity. Qed.

(** For the first face that is not skipped the statistic is the mouth
    aspect ratio of that face. *)
Lemma GetStatistics_single_face (l : NormalizedLandmarkList) :
  (Z.of_nat (length l) <? kFaceMeshLandmarks)%Z = false ->
  GetStatistics sqrtf frame_width frame_height [l] []
  = [mouth_aspect_ratio sqrtf frame_width frame_height l].
Proof.
  intro Hfull. unfold GetStatistics. simpl. rewrite Hfull. reflexivity.
Qed.

(** For a second face the height accumulator starts from the first
    face's averaged height instead of zero. *)
Lemma GetStatistics_two_faces (l1 l2 : NormalizedLandmarkList) :
  (Z.of_nat (length l1) <? kFaceMeshLandmarks)%Z = false ->
  (Z.of_nat (length l2) <? kFaceMeshLandmarks)%Z = false ->
  GetStatistics sqrtf frame_width frame_height [l1; l2] []
  = [ mouth_aspect_ratio sqrtf frame_width frame_height l1;
      div (div (add_heights sqrtf frame_width frame_height l2
                  (div (add_heights sqrtf frame_width frame_height l1 zero)
                       (of_nat 3)))
               (of_nat 3))
          (GetDistance sqrtf frame_width frame_height
             (landmark l2 kLipLeftInnerCornerIdx)
             (landmark l2 kLipRightInnerCornerIdx)) ].
Proof.
  intros H1 H2. unfold GetStatistics. simpl. rewrite H1, H2. reflexivity.
Qed.

End Statistics.

(** C2 (code defect): with two full faces in one frame, each with mouth
    width 2 and lip distances 1, the first statistic is the aspect
    ratio 1/2 but the second is 2/3: [mouth_height] is not reset between
    faces, so the first face's average is added to the second face's
    sum before it is averaged. *)
Theorem GetStatistics_second_face_not_ratio :
  let lists := [face 2 1; face 2 1] in
  let statistics := GetStatistics sqrt_exact 1 1 lists [] in
  full_faces lists = lists /\
  statistics = [Fin (3 # 6); Fin (12 # 18)] /\
  mouth_aspect_ratio sqrt_exact 1 1 (face 2 1) = Fin (3 # 6) /\
  eqb (nth 1 statistics zero) (mouth_aspect_ratio sqrt_exact 1 1 (face 2 1))
  = false.
Proof. vm_compute. repeat split. Qed.

(** C1 (code defect): a frame whose first face has a short landmark
    list. The extractor returns a single statistic, the one of the
    second face; [statistics[0]], read for the first detection, is that
    value, and [statistics[1]], read for the second detection, is out of
    range, so the window evaluation has undefined behaviour. *)
Theorem statistics_read_misaligned :
  let lists := [short_face; face 2 1] in
  let dets := [box 0 0 1 1; box 2 2 1 1] in
  let statistics := GetStatistics sqrt_exact 1 1 lists [] in
  statistics = [mouth_aspect_ratio sqrt_exact 1 1 (face 2 1)] /\
  vec_get statistics 0 = Ok (mouth_aspect_ratio sqrt_exact 1 1 (face 2 1)) /\
  vec_get statistics 1 = Undefined /\
  Process sqrt_exact example_options example_graph initial
    (frame_input lists dets 0) = Undefined.
Proof. vm_compute. repeat split. Qed.

(** With one more face the reads stay in range but are shifted: the
    first detection, whose face was skipped, is classified with the
    second face's statistic and becomes the dominant speaker. *)
Lemma statistics_read_shifted :
  let lists := [short_face; face 1 2; face 2 1] in
  let dets := [box 0 0 1 1; box 2 2 1 1] in
  exists this,
    Process sqrt_exact example_options example_graph initial
      (frame_input lists dets 0)
    = Ok (this, mkOutputs [(false, 0%Z)] [([box 0 0 1 1], 0%Z)]).
Proof. eexists. vm_compute. reflexivity. Qed.

(* ================================================================= *)
(** ** Loops and maps *)

(** Invariant rule for [for_each]: [P] relates the elements already
    visited to the loop state. *)
Lemma for_each_prefix {A S : Type} (body : S -> Z -> A -> outcome S)
    (P : list A -> S -> Prop) :
  (forall visited a s s',
      P visited s -> body s (Z.of_nat (length visited)) a = Ok s' ->
      P (visited ++ [a]) s') ->
  forall v visited s s',
    P visited s ->
    for_each body v (Z.of_nat (length visited)) s = Ok s' ->
    P (visited ++ v) s'.
Proof.
  intros Hstep. induction v as [| a v IH]; intros visited s s' HP Hrun.
  - simpl in Hrun. injection Hrun as <-. rewrite app_nil_r. exact HP.
  - simpl in Hrun. destruct (body s (Z.of_nat (length visited)) a) as [s1 | |] eqn:Hb;
      simpl in Hrun; try discriminate.
    replace (visited ++ a :: v) with ((visited ++ [a]) ++ v)
      by (rewrite <- app_assoc; reflexivity).
    apply (IH (visited ++ [a]) s1 s').
    + exact (Hstep visited a s s1 HP Hb).
    + replace (Z.of_nat (length (visited ++ [a])))
        with (Z.of_nat (length visited) + 1)%Z
        by (rewrite length_app; simpl; lia).
      exact Hrun.
Qed.

Lemma for_each_invariant {A S : Type} (body : S -> Z -> A -> outcome S)
    (P : S -> Prop) :
  (forall a i s s', P s -> body s i a = Ok s' -> P s') ->
  forall v s s', P s -> for_each body v 0%Z s = Ok s' -> P s'.
Proof.
  intros Hstep v s s' HP Hrun.
  apply (for_each_prefix body (fun _ => P)
           (fun visited a s0 s1 H0 H1 => Hstep a _ s0 s1 H0 H1)
           v [] s s' HP Hrun).
Qed.

Lemma bind_Ok {A B : Type} (m : outcome A) (k : A -> outcome B) (b : B) :
  bind m k = Ok b -> exists a, m = Ok a /\ k a = Ok b.
Proof. destruct m; simpl; intro H; try discriminate. eauto. Qed.

Lemma vec_get_Ok {A : Type} (v : list A) (i : Z) (a : A) :
  vec_get v i = Ok a -> (0 <= i)%Z /\ nth_error v (Z.to_nat i) = Some a.
Proof.
  unfold vec_get. destruct (Z.ltb_spec i 0) as [Hi | Hi]; [discriminate | ].
  destruct (nth_error v (Z.to_nat i)); intro Hget; inversion Hget. auto.
Qed.

Lemma vec_get_in_range {A : Type} (v : list A) (i : Z) :
  (0 <= i < Z.of_nat (length v))%Z -> exists a, vec_get v i = Ok a.
Proof.
  intro Hr. unfold vec_get. destruct (Z.ltb_spec i 0); [lia | ].
  destruct (nth_error v (Z.to_nat i)) eqn:E; eauto.
  apply nth_error_None in E. lia.
Qed.

Module StdMapFacts.

Import StdMap.

Lemma find_set_same {V : Type} (k : Z) (v : V) (m : t V) :
  find k (set k v m) = Some v.
Proof.
  induction m as [| [k' v'] tl IH]; simpl.
  - rewrite Z.eqb_refl. reflexivity.
  - destruct (Z.ltb_spec k k'); simpl.
    + rewrite Z.eqb_refl. reflexivity.
    + destruct (Z.eqb_spec k k'); simpl.
      * rewrite Z.eqb_refl. reflexivity.
      * destruct (Z.eqb_spec k' k); [congruence | exact IH].
Qed.

Lemma find_set_other {V : Type} (k k0 : Z) (v : V) (m : t V) :
  k0 <> k -> find k0 (set k v m) = find k0 m.
Proof.
  intro Hne. induction m as [| [k' v'] tl IH]; simpl.
  - destruct (Z.eqb_spec k k0); [congruence | reflexivity].
  - destruct (Z.ltb_spec k k'); simpl.
    + destruct (Z.eqb_spec k k0); [congruence | reflexivity].
    + destruct (Z.eqb_spec k k'); simpl.
      * subst k'. destruct (Z.eqb_spec k k0); [congruence | reflexivity].
      * destruct (Z.eqb_spec k' k0); [reflexivity | exact IH].
Qed.

Lemma find_insert_other {V : Type} (k k0 : Z) (v : V) (m : t V) :
  k0 <> k -> find k0 (insert k v m) = find k0 m.
Proof.
  intro Hne. induction m as [| [k' v'] tl IH]; simpl.
  - destruct (Z.eqb_spec k k0); [congruence | reflexivity].
  - destruct (Z.ltb_spec k k'); simpl.
    + destruct (Z.eqb_spec k k0); [congruence | reflexivity].
    + destruct (Z.eqb_spec k k'); simpl.
      * reflexivity.
      * destruct (Z.eqb_spec k' k0); [reflexivity | exact IH].
Qed.

Lemma find_insert_fresh {V : Type} (k : Z) (v : V) (m : t V) :
  find k m = None -> find k (insert k v m) = Some v.
Proof.
  induction m as [| [k' v'] tl IH]; simpl.
  - rewrite Z.eqb_refl. reflexivity.
  - destruct (Z.eqb_spec k' k); [discriminate | ]. intro Hnone.
    destruct (Z.ltb_spec k k'); simpl.
    + rewrite Z.eqb_refl. reflexivity.
    + destruct (Z.eqb_spec k k'); [congruence | ]. simpl.
      destruct (Z.eqb_spec k' k); [congruence | auto].
Qed.

Lemma find_In {V : Type} (k : Z) (v : V) (m : t V) :
  find k m = Some v -> In (k, v) m.
Proof.
  induction m as [| [k' v'] tl IH]; simpl; [discriminate | ].
  destruct (Z.eqb_spec k' k).
  - intro Hf. inversion Hf. subst. auto.
  - auto.
Qed.

Lemma In_set_inv {V : Type} (k : Z) (v : V) (m : t V) (k0 : Z) (v0 : V) :
  In (k0, v0) (set k v m) -> (k0 = k /\ v0 = v) \/ In (k0, v0) m.
Proof.
  induction m as [| [k' v'] tl IH]; simpl.
  - intros [Hi | []]. inversion Hi. auto.
  - destruct (Z.ltb_spec k k'); simpl.
    + intros [Hi | Hi]; [inversion Hi | ]; auto.
    + destruct (Z.eqb_spec k k'); simpl.
      * intros [Hi | Hi]; [inversion Hi | ]; auto.
      * intros [Hi | Hi]; [auto | ]. destruct (IH Hi); auto.
Qed.

Lemma In_insert_inv {V : Type} (k : Z) (v : V) (m : t V) (k0 : Z) (v0 : V) :
  In (k0, v0) (insert k v m) -> (k0 = k /\ v0 = v) \/ In (k0, v0) m.
Proof.
  induction m as [| [k' v'] tl IH]; simpl.
  - intros [Hi | []]. inversion Hi. auto.
  - destruct (Z.ltb_spec k k'); simpl.
    + intros [Hi | Hi]; [inversion Hi | ]; auto.
    + destruct (Z.eqb_spec k k'); simpl.
      * auto.
      * intros [Hi | Hi]; [auto | ]. destruct (IH Hi); auto.
Qed.

Lemma keys_In {V : Type} (k : Z) (m : t V) :
  In k (keys m) -> exists v, In (k, v) m.
Proof.
  unfold keys. intro Hi. apply in_map_iff in Hi.
  destruct Hi as ([k' v] & Hk & Hi). simpl in Hk. subst. eauto.
Qed.

Lemma In_keys {V : Type} (k : Z) (v : V) (m : t V) :
  In (k, v) m -> In k (keys m).
Proof. intro Hi. unfold keys. apply in_map_iff. exists (k, v). auto. Qed.

Lemma ordered_set {V : Type} (k : Z) (v : V) (m : t V) :
  ordered m -> ordered (set k v m).
Proof.
  induction m as [| [k' v'] tl IH]; simpl.
  - intros _. split; [intros k0 [] | exact I].
  - intros [Hlt Htl]. destruct (Z.ltb_spec k k'); simpl.
    + split; [ | split; assumption].
      intros k0 [<- | Hk0]; [lia | ]. specialize (Hlt k0 Hk0). lia.
    + destruct (Z.eqb_spec k k'); simpl.
      * subst k'. split; assumption.
      * split; [ | auto]. intros k0 Hk0.
        apply keys_In in Hk0. destruct Hk0 as (v0 & Hv0).
        apply In_set_inv in Hv0. destruct Hv0 as [[-> _] | Hv0]; [lia | ].
        apply Hlt. exact (In_keys _ _ _ Hv0).
Qed.

Lemma ordered_insert {V : Type} (k : Z) (v : V) (m : t V) :
  ordered m -> ordered (insert k v m).
Proof.
  induction m as [| [k' v'] tl IH]; simpl.
  - intros _. split; [intros k0 [] | exact I].
  - intros [Hlt Htl]. destruct (Z.ltb_spec k k'); simpl.
    + split; [ | split; assumption].
      intros k0 [<- | Hk0]; [lia | ]. specialize (Hlt k0 Hk0). lia.
    + destruct (Z.eqb_spec k k'); simpl.
      * split; assumption.
      * split; [ | auto]. intros k0 Hk0.
        apply keys_In in Hk0. destruct Hk0 as (v0 & Hv0).
        apply In_insert_inv in Hv0. destruct Hv0 as [[-> _] | Hv0]; [lia | ].
        apply Hlt. exact (In_keys _ _ _ Hv0).
Qed.

End StdMapFacts.

(* ================================================================= *)
(** ** One face of one frame *)

Section FaceStep.

Variable sqrtf : float -> float.
Variable options_ : LipTrackCalculatorOptions.

(** What a successful [face_step] did. *)
Lemma face_step_Ok (buff_size : nat) (buff_position : Z)
    (statistics : list float) this scene frame cur_face_idx bbox
    this' scene' frame' :
  face_step options_ buff_size buff_position statistics
    (this, scene, frame) cur_face_idx bbox = Ok (this', scene', frame') ->
  let previous_face_idx := MatchFace options_ (face_bbox_ this) bbox in
  let stats0 := StdMap.insert cur_face_idx [] (cur_face_statistics frame) in
  exists value meta_face_idx,
    vec_get statistics cur_face_idx = Ok value
    /\ cur_face_statistics frame'
       = StdMap.set cur_face_idx
           (stored_history options_ previous_face_idx
              (StdMap.at_default cur_face_idx [] stats0)
              (StdMap.at_default previous_face_idx [] (face_statistics_ this))
              value)
           stats0
    /\ cur_meta_face_indices frame'
       = cur_meta_face_indices frame ++ [meta_face_idx]
    /\ (if (previous_face_idx =? -1)%Z
        then meta_face_idx = meta_face_count scene
             /\ meta_face_count scene' = (meta_face_count scene + 1)%Z
        else vec_get (meta_face_indices_ this) previous_face_idx
             = Ok meta_face_idx
             /\ meta_face_count scene' = meta_face_count scene)
    /\ num_of_active_speaker scene' = num_of_active_speaker scene
    /\ (let '(speaking, ratchet) :=
          IsActiveSpeaker options_ (speaker_mean_ this) (speaker_variance_ this)
            (StdMap.at_default cur_face_idx [] (cur_face_statistics frame')) in
        (speaker_mean_ this', speaker_variance_ this') = ratchet
        /\ cur_speaker_id frame'
           = if speaking then cur_face_idx else cur_speaker_id frame)
    /\ face_bbox_ this' = face_bbox_ this
    /\ face_statistics_ this' = face_statistics_ this
    /\ meta_face_indices_ this' = meta_face_indices_ this
    /\ pre_dominate_speaker_id_ this' = pre_dominate_speaker_id_ this
    /\ pre_dominate_speaker_detection_ this'
       = pre_dominate_speaker_detection_ this
    /\ last_shot_timestamp_ this' = last_shot_timestamp_ this
    /\ frame_width_ this' = frame_width_ this
    /\ frame_height_ this' = frame_height_ this
    /\ signal_buff_ this' = signal_buff_ this.
Proof.
  unfold face_step, stored_history. intro Hstep. simpl.
  apply bind_Ok in Hstep. destruct Hstep as ([[stats1 scene1] indices1] & Hbranch & Hrest).
  destruct (IsActiveSpeaker options_ (speaker_mean_ this) (speaker_variance_ this)
              (StdMap.at_default cur_face_idx [] stats1))
    as [speaking [mean' variance']] eqn:Hspeak.
  injection Hrest as <- <- <-. simpl.
  destruct (MatchFace options_ (face_bbox_ this) bbox =? -1)%Z eqn:Hmatch;
    simpl in Hbranch.
  - apply bind_Ok in Hbranch. destruct Hbranch as (value & Hvalue & Hbranch).
    apply bind_Ok in Hbranch. destruct Hbranch as (row & Hrow & Hbranch).
    injection Hbranch as <- <- <-. simpl.
    exists value, (meta_face_count scene).
    rewrite Hspeak. repeat split; trivial.
  - apply bind_Ok in Hbranch. destruct Hbranch as (value & Hvalue & Hbranch).
    apply bind_Ok in Hbranch. destruct Hbranch as (meta_face_idx & Hmeta & Hbranch).
    apply bind_Ok in Hbranch. destruct Hbranch as (row & Hrow & Hbranch).
    injection Hbranch as <- <- <-. simpl.
    exists value, meta_face_idx.
    rewrite Hspeak. repeat split; trivial.
Qed.

End FaceStep.

(* ================================================================= *)
(** ** The rolling statistics store *)

Lemma trim_history_skipn (n : nat) (d : list float) :
  trim_history n d = skipn (length d - n) d.
Proof.
  induction d as [| x tl IH]; simpl; [reflexivity | ].
  destruct (Nat.ltb_spec n (S (length tl))).
  - rewrite IH. destruct n as [| n'].
    + rewrite Nat.sub_0_r. reflexivity.
    + replace (length tl - n')%nat with (S (length tl - S n')) by lia.
      reflexivity.
  - replace (length tl - (n - 1))%nat with 0%nat by lia.
    destruct n; [lia | ]. 
    replace (length tl - n)%nat with 0%nat by lia. reflexivity.
Qed.

Lemma trim_history_length (n : nat) (d : list float) :
  (length (trim_history n d) <= n)%nat.
Proof. rewrite trim_history_skipn, length_skipn. lia. Qed.

Lemma IsActiveSpeaker_true options_ mean variance history mean' variance' :
  IsActiveSpeaker options_ mean variance history = (true, (mean', variance')) ->
  (variance_history options_ / 2 < length history)%nat
  /\ mean' = mean_short_of options_ history
  /\ variance' = variance_of history
  /\ (gtb mean' mean = true \/ gtb variance' variance = true).
Proof.
  unfold IsActiveSpeaker.
  destruct (Nat.leb_spec (length history) (variance_history options_ / 2));
    [discriminate | ].
  destruct (speaking_test options_ mean variance
              (mean_short_of options_ history) (variance_of history)) eqn:Htest;
    [ | discriminate].
  intro Heq. injection Heq as <- <-. repeat split; trivial.
  unfold speaking_test in Htest. apply orb_true_iff in Htest.
  destruct Htest as [Ht | Ht]; apply andb_true_iff in Ht; tauto.
Qed.

Lemma IsActiveSpeaker_false options_ mean variance history mean' variance' :
  IsActiveSpeaker options_ mean variance history = (false, (mean', variance')) ->
  mean' = mean /\ variance' = variance.
Proof.
  unfold IsActiveSpeaker.
  destruct (length history <=? variance_history options_ / 2)%nat.
  - intro Heq. injection Heq as <- <-. auto.
  - destruct (speaking_test _ _ _ _ _); [discriminate | ].
    intro Heq. injection Heq as <- <-. auto.
Qed.

Section FrameStep.

Variable sqrtf : float -> float.
Variable options_ : LipTrackCalculatorOptions.

Lemma same_but_ratchet_refl this : same_but_ratchet this this.
Proof. repeat split. Qed.

Lemma face_step_same (buff_size : nat) (buff_position : Z)
    (statistics : list float) this scene frame cur_face_idx bbox
    this' scene' frame' :
  face_step options_ buff_size buff_position statistics
    (this, scene, frame) cur_face_idx bbox = Ok (this', scene', frame') ->
  same_but_ratchet this' this.
Proof.
  intro Hstep. apply face_step_Ok in Hstep.
  destruct Hstep as (value & m & _ & _ & _ & _ & _ & _ & Hrest).
  exact Hrest.
Qed.

(** The face loop builds the history map of its faces. *)
Lemma face_loop_histories (buff_size : nat) (buff_position : Z)
    (statistics : list float) (this : LipTrackCalculator)
    (dets : list Detection) scene this1 scene1 frame1 :
  for_each (face_step options_ buff_size buff_position statistics) dets 0%Z
    (this, scene, mkFrame StdMap.empty [] (-1)%Z) = Ok (this1, scene1, frame1) ->
  same_but_ratchet this1 this
  /\ histories_of options_ this statistics dets (cur_face_statistics frame1).
Proof.
  intro Hrun.
  apply (for_each_prefix
           (face_step options_ buff_size buff_position statistics)
           (fun visited (s : LipTrackCalculator * SceneLocals * FrameLocals) =>
              same_but_ratchet (fst (fst s)) this
              /\ histories_of options_ this statistics visited
                   (cur_face_statistics (snd s))))
    with (visited := []) (v := dets)
         (s := (this, scene, mkFrame StdMap.empty [] (-1)%Z))
         (s' := (this1, scene1, frame1)); trivial.
  - clear Hrun this1 scene1 frame1.
    intros visited bbox [[thisi scenei] framei] [[thisj scenej] framej]
           [Hsame [Hout Hin]] Hstep. simpl in *.
    pose proof (face_step_same _ _ _ _ _ _ _ _ _ _ _ Hstep) as Hsame'.
    apply face_step_Ok in Hstep.
    destruct Hstep as (value & m & Hvalue & Hstats & _). simpl in Hstats.
    set (i := Z.of_nat (length visited)) in *.
    assert (Hfresh : StdMap.find i (cur_face_statistics framei) = None).
    { apply Hout. unfold i. lia. }
    assert (Hexisting : StdMap.at_default i []
                          (StdMap.insert i [] (cur_face_statistics framei)) = []).
    { unfold StdMap.at_default.
      rewrite (StdMapFacts.find_insert_fresh i [] _ Hfresh). reflexivity. }
    rewrite Hexisting in Hstats.
    destruct Hsame as (Hbbox & Hfs & F3 & F4 & F5 & F6 & F7 & F8 & F9).
    rewrite Hbbox, Hfs in Hstats.
    split.
    + destruct Hsame' as (E1 & E2 & E3 & E4 & E5 & E6 & E7 & E8 & E9).
      repeat split; congruence.
    + split.
      * intros k Hk. rewrite length_app in Hk. simpl in Hk.
        rewrite Hstats.
        rewrite StdMapFacts.find_set_other by (unfold i; lia).
        rewrite StdMapFacts.find_insert_other by (unfold i; lia).
        apply Hout. lia.
      * intros k Hk. rewrite length_app in Hk. simpl in Hk.
        destruct (Z.eq_dec k i) as [-> | Hne].
        -- exists bbox, value. repeat split; trivial.
           ++ unfold i. rewrite Nat2Z.id, nth_error_app2, Nat.sub_diag by lia.
              reflexivity.
           ++ rewrite Hstats. apply StdMapFacts.find_set_same.
        -- destruct (Hin k) as (b & x & Hb & Hx & Hfind); [unfold i in Hne; lia | ].
           exists b, x. repeat split; trivial.
           ++ rewrite nth_error_app1; trivial.
              apply nth_error_Some. congruence.
           ++ rewrite Hstats.
              rewrite StdMapFacts.find_set_other by trivial.
              rewrite StdMapFacts.find_insert_other by trivial.
              exact Hfind.
  - simpl. split; [apply same_but_ratchet_refl | ].
    split.
    + intros k _. reflexivity.
    + intros k Hk. simpl in Hk. lia.
Qed.

(** What a successful [frame_step] did. *)
Lemma frame_step_Ok (buff_size : nat) this scene buff_position signal
    this' scene' :
  frame_step sqrtf options_ buff_size (this, scene) buff_position signal
  = Ok (this', scene') ->
  if frame_skipped signal then this' = this /\ scene' = scene
  else
    exists this1 scene1 frame,
      for_each
        (face_step options_ buff_size buff_position
           (GetStatistics sqrtf (frame_width_ this) (frame_height_ this)
              (landmark_lists signal) []))
        (detections signal) 0%Z (this, scene, mkFrame StdMap.empty [] (-1)%Z)
      = Ok (this1, scene1, frame)
      /\ count_speaker frame scene1 = Ok scene'
      /\ this' = mkCalculator (detections signal) (cur_face_statistics frame)
                   (cur_meta_face_indices frame) zero zero
                   (pre_dominate_speaker_id_ this1)
                   (pre_dominate_speaker_detection_ this1)
                   (last_shot_timestamp_ this1) (frame_width_ this1)
                   (frame_height_ this1) (signal_buff_ this1).
Proof.
  unfold frame_step, frame_skipped.
  destruct (landmark_lists signal) as [| l ls];
    [intro Hs; injection Hs as <- <-; auto | ].
  destruct (detections signal) as [| d ds];
    [intro Hs; injection Hs as <- <-; auto | ].
  intro Hs. apply bind_Ok in Hs.
  destruct Hs as ([[this1 scene1] frame] & Hloop & Hs).
  apply bind_Ok in Hs. destruct Hs as (scene2 & Hcount & Hs).
  injection Hs as <- <-. exists this1, scene1, frame. auto.
Qed.

End FrameStep.

Lemma history_of_face_shape options_ this bbox value :
  let previous_face_idx := MatchFace options_ (face_bbox_ this) bbox in
  let previous :=
    StdMap.at_default previous_face_idx [] (face_statistics_ this) in
  (previous_face_idx = (-1)%Z
   /\ history_of_face options_ this bbox value = [value])
  \/ (previous_face_idx <> (-1)%Z
      /\ history_of_face options_ this bbox value
         = skipn (length (previous ++ [value]) - variance_history options_)
                 (previous ++ [value])
      /\ (length (history_of_face options_ this bbox value)
          <= variance_history options_)%nat).
Proof.
  unfold history_of_face, stored_history, matched_history, fresh_history.
  simpl. destruct (Z.eqb_spec (MatchFace options_ (face_bbox_ this) bbox) (-1)).
  - left. auto.
  - right. split; [trivial | ]. split.
    + apply trim_history_skipn.
    + apply trim_history_length.
Qed.

(** The histories that one frame update stores: one per face of the
    frame, fresh for a face without a match, and the matched previous
    history followed by the new value, trimmed from the front, for a
    matched face. *)
Lemma frame_step_histories (sqrtf : float -> float)
    (options_ : LipTrackCalculatorOptions) (buff_size : nat)
    this scene buff_position signal this' scene' :
  frame_step sqrtf options_ buff_size (this, scene) buff_position signal
  = Ok (this', scene') ->
  frame_skipped signal = false ->
  let statistics :=
    GetStatistics sqrtf (frame_width_ this) (frame_height_ this)
      (landmark_lists signal) [] in
  (forall k, (0 <= k < Z.of_nat (length (detections signal)))%Z ->
     exists history, StdMap.find k (face_statistics_ this') = Some history)
  /\ (forall k history,
        StdMap.find k (face_statistics_ this') = Some history ->
        exists bbox value,
          nth_error (detections signal) (Z.to_nat k) = Some bbox
          /\ vec_get statistics k = Ok value
          /\ let previous_face_idx :=
               MatchFace options_ (face_bbox_ this) bbox in
             let previous :=
               StdMap.at_default previous_face_idx []
                 (face_statistics_ this) in
             (previous_face_idx = (-1)%Z /\ history = [value])
             \/ (previous_face_idx <> (-1)%Z
                 /\ history
                    = skipn (length (previous ++ [value])
                             - variance_history options_)
                            (previous ++ [value])
                 /\ (length history <= variance_history options_)%nat)).
Proof.
  intros Hstep Hproc. apply frame_step_Ok in Hstep. rewrite Hproc in Hstep.
  destruct Hstep as (this1 & scene1 & frame & Hloop & _ & ->).
  cbv zeta. cbn [face_statistics_].
  apply face_loop_histories in Hloop. destruct Hloop as (_ & Hout & Hin).
  split.
  - intros k Hk. destruct (Hin k Hk) as (bbox & value & _ & _ & Hfind). eauto.
  - intros k history Hfind.
    destruct (Z.le_gt_cases 0 k) as [Hk0 | Hk0];
      [ destruct (Z.lt_ge_cases k (Z.of_nat (length (detections signal))))
          as [Hk1 | Hk1] | ].
    + destruct (Hin k (conj Hk0 Hk1)) as (bbox & value & Hb & Hv & Hfind').
      rewrite Hfind in Hfind'. injection Hfind' as ->.
      pose proof (history_of_face_shape options_ this bbox value) as Hshape.
      cbv zeta in Hshape.
      exists bbox, value. repeat split; trivial.
    + rewrite Hout in Hfind by lia. discriminate.
    + rewrite Hout in Hfind by lia. discriminate.
Qed.

(** C9: with [variance_history] at least 1, after the update of one
    buffered frame the store holds one history per face of the frame,
    each of length at most [variance_history]. For a face without a
    match it is the fresh single-value history; for a matched face it
    is the matched previous history followed by the new value, with
    exactly the oldest values dropped from the front, in order, until
    the length is at most [variance_history]. *)
Theorem history_bounded_fifo (sqrtf : float -> float)
    (options_ : LipTrackCalculatorOptions) (buff_size : nat)
    this scene buff_position signal this' scene' :
  (1 <= variance_history options_)%nat ->
  frame_step sqrtf options_ buff_size (this, scene) buff_position signal
  = Ok (this', scene') ->
  frame_skipped signal = false ->
  let statistics :=
    GetStatistics sqrtf (frame_width_ this) (frame_height_ this)
      (landmark_lists signal) [] in
  (forall k, (0 <= k < Z.of_nat (length (detections signal)))%Z ->
     exists history, StdMap.find k (face_statistics_ this') = Some history)
  /\ (forall k history,
        StdMap.find k (face_statistics_ this') = Some history ->
        (length history <= variance_history options_)%nat
        /\ exists bbox value,
             nth_error (detections signal) (Z.to_nat k) = Some bbox
             /\ vec_get statistics k = Ok value
             /\ let previous_face_idx :=
                  MatchFace options_ (face_bbox_ this) bbox in
                let previous :=
                  StdMap.at_default previous_face_idx []
                    (face_statistics_ this) in
                (previous_face_idx = (-1)%Z /\ history = [value])
                \/ (previous_face_idx <> (-1)%Z
                    /\ history
                       = skipn (length (previous ++ [value])
                                - variance_history options_)
                               (previous ++ [value]))).
Proof.
  intros Hpositive Hstep Hproc statistics.
  destruct (frame_step_histories sqrtf options_ buff_size this scene
              buff_position signal this' scene' Hstep Hproc)
    as [Hall Hshape].
  split; [exact Hall | ].
  intros k history Hfind.
  destruct (Hshape k history Hfind) as (bbox & value & Hb & Hv & Hcase).
  cbv zeta in Hcase. split.
  - destruct Hcase as [[_ ->] | (_ & _ & Hlen)]; [cbn [length]; lia | exact Hlen].
  - exists bbox, value. split; [exact Hb | ]. split; [exact Hv | ].
    cbv zeta. destruct Hcase as [Hnew | (Hold & Heq & _)]; [left | right]; auto.
Qed.

(** A matched face whose previous history [1; 2] is full
    ([variance_history] is 2): the new value 3 is appended and the
    oldest value is dropped. *)
Lemma history_bounded_fifo_witness :
  exists this' scene',
    frame_step sqrt_exact short_history_options 2
      (full_history_state, after_first_scene) 1%Z
      (mkSignal [face 1 3] [box 0 0 1 1] 1%Z) = Ok (this', scene')
    /\ StdMap.find 0%Z (face_statistics_ this') = Some [Fin 2; Fin (9 # 3)]
    /\ forall k history,
         StdMap.find k (face_statistics_ this') = Some history ->
         (length history <= variance_history short_history_options)%nat.
Proof.
  eexists. eexists. split; [vm_compute; reflexivity | ].
  split; [vm_compute; reflexivity | ].
  intros k history Hfind.
  eapply (history_bounded_fifo sqrt_exact short_history_options 2
            full_history_state after_first_scene 1%Z
            (mkSignal [face 1 3] [box 0 0 1 1] 1%Z)).
  - simpl. lia.
  - vm_compute. reflexivity.
  - reflexivity.
  - exact Hfind.
Defined.

(** The bound needs [variance_history] to be at least 1: when it is 0
    the fresh history of a new face still has length 1. *)
Lemma fresh_history_exceeds_zero_bound :
  exists this' scene',
    frame_step sqrt_exact zero_history_options 1 (ready [], mkScene [] 0%Z [])
      0%Z (mkSignal [face 2 1] [box 0 0 1 1] 0%Z) = Ok (this', scene')
    /\ StdMap.find 0%Z (face_statistics_ this') = Some [Fin (3 # 6)]
    /\ ~ (length [Fin (3 # 6)] <= variance_history zero_history_options)%nat.
Proof.
  eexists. eexists. split; [vm_compute; reflexivity | ].
  split; [reflexivity | ]. simpl. lia.
Qed.

(* ================================================================= *)
(** ** The ratchet of the classifier *)

Lemma frame_step_ratchet sqrtf options_ buff_size this scene buff_position
    signal this' scene' :
  frame_step sqrtf options_ buff_size (this, scene) buff_position signal
  = Ok (this', scene') ->
  ratchet this' = if frame_skipped signal then ratchet this else (zero, zero).
Proof.
  intro Hstep. apply frame_step_Ok in Hstep.
  destruct (frame_skipped signal).
  - destruct Hstep as [-> _]. reflexivity.
  - destruct Hstep as (this1 & scene1 & frame & _ & _ & ->). reflexivity.
Qed.

Lemma process_frames_ratchet sqrtf options_ this this' scene' :
  ratchet this = (zero, zero) ->
  process_frames sqrtf options_ this = Ok (this', scene') ->
  ratchet this' = (zero, zero).
Proof.
  unfold process_frames. intros Hzero Hrun.
  apply (for_each_invariant
           (frame_step sqrtf options_ (length (signal_buff_ this)))
           (fun s : LipTrackCalculator * SceneLocals =>
              ratchet (fst s) = (zero, zero)))
    with (s' := (this', scene')) in Hrun; trivial.
  intros signal i [thisi scenei] [thisj scenej] Hi Hstep. simpl in *.
  rewrite (frame_step_ratchet _ _ _ _ _ _ _ _ _ Hstep).
  destruct (frame_skipped signal); trivial.
Qed.

(** C3 (as stated) fails on a window of two frames. The face of the
    first frame is classified as speaking with strength (2, 0). The
    face of the second frame has [mean_short] 1 and variance 0, which
    does not exceed that strength, yet it is classified as speaking as
    well (two hits for meta face 0), because the ratchet was set back
    to zero after the first frame. *)
Lemma later_frame_ignores_incumbent :
  let first := [Fin (6 # 3)] in
  let second := [Fin (3 # 3)] in
  GetStatistics sqrt_exact 1 1 [face 1 2] [] = first /\
  GetStatistics sqrt_exact 1 1 [face 1 1] [] = second /\
  fst (IsActiveSpeaker example_options zero zero first) = true /\
  gtb (mean_short_of example_options second)
      (mean_short_of example_options first) = false /\
  gtb (variance_of second) (variance_of first) = false /\
  fst (IsActiveSpeaker example_options
         (mean_short_of example_options first) (variance_of first) second)
  = false /\
  exists this' scene',
    process_frames sqrt_exact example_options (ready two_frame_window)
    = Ok (this', scene')
    /\ num_of_active_speaker scene' = [(0%Z, 2%Z)]
    /\ ratchet this' = (zero, zero).
Proof.
  repeat (split; [vm_compute; reflexivity | ]).
  eexists. eexists. split; [vm_compute; reflexivity | ].
  split; reflexivity.
Qed.

(* ================================================================= *)
(** ** Dominant-speaker selection *)

Lemma dominate_loop_spec (m : StdMap.t Z) :
  StdMap.ordered m ->
  forall d0 c0,
    let r := dominate_loop m (d0, c0) in
    (forall k c, In (k, c) m -> (c <= snd r)%Z)
    /\ ((r = (d0, c0))
        \/ (In r m /\ (c0 < snd r)%Z
            /\ forall k, In (k, snd r) m -> (fst r <= k)%Z)).
Proof.
  induction m as [| [k1 c1] tl IH]; intros Hord d0 c0; simpl.
  - split; [intros k c [] | auto].
  - destruct Hord as [Hlt Htl]. unfold dominate_loop in *. simpl.
    destruct (Z.gtb_spec c1 c0) as [Hgt | Hle].
    + specialize (IH Htl k1 c1). simpl in IH. destruct IH as [Hmax Hcase].
      set (r := fold_left _ tl (k1, c1)) in *.
      assert (Hc1 : (c1 <= snd r)%Z).
      { destruct Hcase as [-> | (_ & Hlt' & _)]; simpl; lia. }
      split.
      * intros k c [Hin | Hin]; [inversion Hin; subst; exact Hc1 | eauto].
      * right. destruct Hcase as [Heq | (Hin & Hlt' & Hfirst)].
        -- rewrite Heq. simpl. split; [auto | ]. split; [lia | ].
           intros k [Hin | Hin]; [inversion Hin; lia | ].
           pose proof (Hlt k (StdMapFacts.In_keys _ _ _ Hin)). lia.
        -- split; [auto | ]. split; [lia | ].
           intros k [Hin' | Hin']; [inversion Hin'; lia | auto].
    + specialize (IH Htl d0 c0). simpl in IH. destruct IH as [Hmax Hcase].
      set (r := fold_left _ tl (d0, c0)) in *.
      assert (Hc0 : (c0 <= snd r)%Z).
      { destruct Hcase as [-> | (_ & Hlt' & _)]; simpl; lia. }
      split.
      * intros k c [Hin | Hin]; [inversion Hin; subst; lia | eauto].
      * destruct Hcase as [Heq | (Hin & Hlt' & Hfirst)]; [auto | ].
        right. split; [auto | ]. split; [lia | ].
        intros k [Hin' | Hin']; [inversion Hin'; lia | auto].
Qed.

(** The selection loop on a well-formed hit map. *)
Lemma find_dominate_speaker_spec (hits : StdMap.t Z) :
  hits_wellformed hits -> dominant_of hits (find_dominate_speaker hits).
Proof.
  intros [Hord Hpos]. unfold find_dominate_speaker.
  destruct (dominate_loop_spec hits Hord (-1)%Z 0%Z) as [Hmax Hcase].
  destruct Hcase as [Heq | (Hin & Hlt & Hfirst)].
  - left. rewrite Heq in *. simpl in *. split; [ | reflexivity].
    destruct hits as [| [k c] tl]; [reflexivity | ].
    specialize (Hmax k c (or_introl eq_refl)).
    destruct (Hpos k c (or_introl eq_refl)). lia.
  - right. destruct (dominate_loop hits ((-1)%Z, 0%Z)) as [d c]. simpl in *.
    split.
    + destruct (Hpos d c Hin). lia.
    + exists c. auto.
Qed.

Section SceneInvariant.

Variable sqrtf : float -> float.
Variable options_ : LipTrackCalculatorOptions.

Lemma vec_get_In {A : Type} (v : list A) (i : Z) (a : A) :
  vec_get v i = Ok a -> In a v.
Proof.
  intro Hget. apply vec_get_Ok in Hget. destruct Hget as [_ Hnth].
  exact (nth_error_In _ _ Hnth).
Qed.

Lemma face_loop_ids (buff_size : nat) (buff_position : Z)
    (statistics : list float) (this : LipTrackCalculator)
    (dets : list Detection) scene this1 scene1 frame1 :
  nonnegative (meta_face_indices_ this) ->
  (0 <= meta_face_count scene)%Z ->
  for_each (face_step options_ buff_size buff_position statistics) dets 0%Z
    (this, scene, mkFrame StdMap.empty [] (-1)%Z) = Ok (this1, scene1, frame1) ->
  nonnegative (cur_meta_face_indices frame1)
  /\ (0 <= meta_face_count scene1)%Z
  /\ num_of_active_speaker scene1 = num_of_active_speaker scene.
Proof.
  intros Hids Hcount Hrun.
  apply (for_each_invariant
           (face_step options_ buff_size buff_position statistics)
           (fun s : LipTrackCalculator * SceneLocals * FrameLocals =>
              meta_face_indices_ (fst (fst s)) = meta_face_indices_ this
              /\ nonnegative (cur_meta_face_indices (snd s))
              /\ (0 <= meta_face_count (snd (fst s)))%Z
              /\ num_of_active_speaker (snd (fst s))
                 = num_of_active_speaker scene))
    with (s' := (this1, scene1, frame1)) in Hrun.
  - simpl in Hrun. tauto.
  - intros bbox i [[thisi scenei] framei] [[thisj scenej] framej]
           (Hsame & Hnn & Hc & Hhits) Hstep. simpl in *.
    apply face_step_Ok in Hstep.
    destruct Hstep as (value & m & _ & _ & Hidx & Hm & Hnum & _ & _ & _
                       & Hmfi & _).
    repeat split.
    + congruence.
    + rewrite Hidx. intros id Hin. apply in_app_or in Hin.
      destruct Hin as [Hin | [<- | []]]; [auto | ].
      destruct (MatchFace options_ (face_bbox_ thisi) bbox =? -1)%Z.
      * destruct Hm as [-> _]. exact Hc.
      * destruct Hm as [Hget _]. apply vec_get_In in Hget.
        rewrite Hsame in Hget. auto.
    + destruct (MatchFace options_ (face_bbox_ thisi) bbox =? -1)%Z;
        destruct Hm as [_ ->]; lia.
    + congruence.
  - simpl. repeat split; trivial. intros id [].
Qed.

Lemma count_speaker_hits frame scene scene' :
  nonnegative (cur_meta_face_indices frame) ->
  hits_wellformed (num_of_active_speaker scene) ->
  count_speaker frame scene = Ok scene' ->
  hits_wellformed (num_of_active_speaker scene')
  /\ meta_face_count scene' = meta_face_count scene.
Proof.
  intros Hnn [Hord Hpos]. unfold count_speaker.
  destruct (negb (cur_speaker_id frame =? -1)%Z).
  - intro Hc. apply bind_Ok in Hc. destruct Hc as (meta_face & Hget & Hc).
    injection Hc as <-. simpl. split; [ | reflexivity].
    apply vec_get_In in Hget. apply Hnn in Hget.
    destruct (StdMap.find meta_face (num_of_active_speaker scene)) as [n |] eqn:Hf.
    + split; [apply StdMapFacts.ordered_set; exact Hord | ].
      intros k count Hin. apply StdMapFacts.In_set_inv in Hin.
      destruct Hin as [[-> ->] | Hin]; [ | auto].
      apply StdMapFacts.find_In in Hf. destruct (Hpos _ _ Hf). lia.
    + split; [apply StdMapFacts.ordered_insert; exact Hord | ].
      intros k count Hin. apply StdMapFacts.In_insert_inv in Hin.
      destruct Hin as [[-> ->] | Hin]; [lia | auto].
  - intro Hc. injection Hc as <-. split; [split; assumption | reflexivity].
Qed.

Lemma frame_step_invariant (buff_size : nat) this scene buff_position signal
    this' scene' :
  scene_invariant this scene ->
  frame_step sqrtf options_ buff_size (this, scene) buff_position signal
  = Ok (this', scene') ->
  scene_invariant this' scene'.
Proof.
  intros (Hids & Hcount & Hhits) Hstep. apply frame_step_Ok in Hstep.
  destruct (frame_skipped signal).
  - destruct Hstep as [-> ->]. unfold scene_invariant. auto.
  - destruct Hstep as (this1 & scene1 & frame & Hloop & Hcs & ->).
    apply face_loop_ids in Hloop; trivial.
    destruct Hloop as (Hnn & Hc1 & Hnum).
    rewrite <- Hnum in Hhits.
    destruct (count_speaker_hits _ _ _ Hnn Hhits Hcs) as [Hwf Hc'].
    unfold scene_invariant. simpl. rewrite Hc'. auto.
Qed.

Lemma process_frames_invariant this this' scene' :
  nonnegative (meta_face_indices_ this) ->
  process_frames sqrtf options_ this = Ok (this', scene') ->
  scene_invariant this' scene'.
Proof.
  unfold process_frames. intros Hids Hrun.
  apply (for_each_invariant
           (frame_step sqrtf options_ (length (signal_buff_ this)))
           (fun s : LipTrackCalculator * SceneLocals =>
              scene_invariant (fst s) (snd s)))
    with (s' := (this', scene')) in Hrun; trivial.
  - intros signal i [thisi scenei] [thisj scenej] Hinv Hstep. simpl in *.
    exact (frame_step_invariant _ _ _ _ _ _ _ Hinv Hstep).
  - unfold scene_invariant. simpl. split; [exact Hids | ]. split; [lia | ].
    split; [exact I | intros k count []].
Qed.

End SceneInvariant.

(* ================================================================= *)
(** ** The window evaluation *)

Section Window.

Variable sqrtf : float -> float.
Variable options_ : LipTrackCalculatorOptions.
Variable graph : GraphConfig.

Lemma frame_step_session (buff_size : nat) this scene buff_position signal
    this' scene' :
  frame_step sqrtf options_ buff_size (this, scene) buff_position signal
  = Ok (this', scene') ->
  same_session this' this.
Proof.
  intro Hstep. apply frame_step_Ok in Hstep.
  destruct (frame_skipped signal).
  - destruct Hstep as [-> _]. repeat split.
  - destruct Hstep as (this1 & scene1 & frame & Hloop & _ & ->).
    apply face_loop_histories in Hloop.
    destruct Hloop as ((_ & _ & _ & E4 & E5 & E6 & E7 & E8 & E9) & _).
    repeat split; assumption.
Qed.

Lemma process_frames_session this this' scene' :
  process_frames sqrtf options_ this = Ok (this', scene') ->
  same_session this' this.
Proof.
  unfold process_frames. intro Hrun.
  apply (for_each_invariant
           (frame_step sqrtf options_ (length (signal_buff_ this)))
           (fun s : LipTrackCalculator * SceneLocals =>
              same_session (fst s) this))
    with (s' := (this', scene')) in Hrun; trivial.
  - intros signal i [thisi scenei] [thisj scenej] Hinv Hstep. simpl in *.
    apply frame_step_session in Hstep.
    destruct Hinv as (E1 & E2 & E3 & E4 & E5 & E6).
    destruct Hstep as (F1 & F2 & F3 & F4 & F5 & F6).
    repeat split; congruence.
  - repeat split.
Qed.

(** What a successful [ProcessScene] did. *)
Lemma ProcessScene_Ok this this' out :
  ProcessScene sqrtf options_ graph this = Ok (this', out) ->
  exists this1 scene,
    process_frames sqrtf options_ this = Ok (this1, scene)
    /\ let dominate := find_dominate_speaker (num_of_active_speaker scene) in
       pre_dominate_speaker_id_ this' = dominate
       /\ signal_buff_ this' = []
       /\ if (dominate =? -1)%Z then
            last_shot_timestamp_ this' = last_shot_timestamp_ this
            /\ pre_dominate_speaker_detection_ this' = []
            /\ roi_packets out
               = map (fun signal => ([], timestamp signal)) (signal_buff_ this)
            /\ (if has_output_shot graph && output_shot_boundary options_
                then exists first,
                       vec_get (signal_buff_ this) 0%Z = Ok first
                       /\ shot_packets out
                          = Transmit options_ (last_shot_timestamp_ this)
                              false (timestamp first)
                else shot_packets out = [])
          else
            exists detection kept,
              closest_detection (signal_buff_ this)
                (StdMap.at_default dominate [] (meta_faces scene)) 0%Z
              = Ok detection
              /\ shot_boundary options_ graph this1 detection
                 = Ok (shot_packets out, last_shot_timestamp_ this')
              /\ pre_dominate_speaker_detection_ this' = [kept].
Proof.
  unfold ProcessScene. intro Hrun.
  apply bind_Ok in Hrun. destruct Hrun as ([this1 scene] & Hframes & Hrun).
  exists this1, scene. split; [exact Hframes | ].
  pose proof (process_frames_session _ _ _ Hframes)
    as (E1 & E2 & E3 & E4 & E5 & E6).
  cbv zeta.
  destruct (find_dominate_speaker (num_of_active_speaker scene) =? -1)%Z
    eqn:Hdom.
  - apply bind_Ok in Hrun. destruct Hrun as (shot & Hshot & Hrun).
    injection Hrun as <- <-. simpl.
    rewrite <- E3, <- E6. repeat split; trivial.
    destruct (has_output_shot graph && output_shot_boundary options_).
    + apply bind_Ok in Hshot. destruct Hshot as (first & Hfirst & Hshot).
      injection Hshot as <-. exists first. auto.
    + injection Hshot as <-. reflexivity.
  - apply bind_Ok in Hrun. destruct Hrun as (detection & Hdet & Hrun).
    apply bind_Ok in Hrun. destruct Hrun as ([shot last_shot] & Hshot & Hrun).
    apply bind_Ok in Hrun. destruct Hrun as ([roi final] & Hroi & Hrun).
    apply bind_Ok in Hrun. destruct Hrun as (kept & Hkept & Hrun).
    injection Hrun as <- <-. simpl.
    repeat split; trivial.
    exists detection, kept. rewrite <- E6. auto.
Qed.

End Window.

(** *** What the hit counts count *)

Lemma ordered_In_find {V : Type} (k : Z) (v : V) (m : StdMap.t V) :
  StdMap.ordered m -> In (k, v) m -> StdMap.find k m = Some v.
Proof.
  induction m as [| [k' v'] tl IH]; simpl; [intros _ [] | ].
  intros [Hlt Hord] [Heq | Hin].
  - injection Heq as -> ->. rewrite Z.eqb_refl. reflexivity.
  - destruct (Z.eqb_spec k' k) as [-> | Hne].
    + specialize (Hlt k (StdMapFacts.In_keys _ _ _ Hin)). lia.
    + apply IH; trivial.
Qed.

Lemma speaking_hits_cons (m : Z) (speaker : option Z)
    (speakers : list (option Z)) :
  speaking_hits m (speaker :: speakers)
  = (match speaker with
     | Some k => if (k =? m)%Z then 1 else 0
     | None => 0
     end + speaking_hits m speakers)%Z.
Proof.
  unfold speaking_hits. simpl.
  destruct speaker as [k |]; [destruct (k =? m)%Z | ]; simpl length; lia.
Qed.

Section HitCounts.

Variable sqrtf : float -> float.
Variable options_ : LipTrackCalculatorOptions.

Lemma face_loop_hits (buff_size : nat) (buff_position : Z)
    (statistics : list float) (dets : list Detection) s s' :
  for_each (face_step options_ buff_size buff_position statistics) dets 0%Z s
  = Ok s' ->
  num_of_active_speaker (snd (fst s')) = num_of_active_speaker (snd (fst s)).
Proof.
  intro Hloop.
  apply (for_each_invariant
           (face_step options_ buff_size buff_position statistics)
           (fun si : LipTrackCalculator * SceneLocals * FrameLocals =>
              num_of_active_speaker (snd (fst si))
              = num_of_active_speaker (snd (fst s))))
    with (s' := s') in Hloop; trivial.
  intros bbox i [[thisi scenei] framei] [[thisj scenej] framej] Hi Hstep.
  apply face_step_Ok in Hstep.
  destruct Hstep as (value & m & _ & _ & _ & _ & Hhits & _).
  simpl in *. congruence.
Qed.

(** [count_speaker] adds one hit for the meta face of the frame's
    speaker and changes no other count. *)
Lemma count_speaker_hit frame scene scene' (m : Z) :
  count_speaker frame scene = Ok scene' ->
  StdMap.at_default m 0%Z (num_of_active_speaker scene')
  = (StdMap.at_default m 0%Z (num_of_active_speaker scene)
     + speaking_hits m
         [ if (cur_speaker_id frame =? -1)%Z then None
           else match vec_get (cur_meta_face_indices frame)
                              (cur_speaker_id frame) with
                | Ok meta_face => Some meta_face
                | _ => None
                end ])%Z.
Proof.
  unfold count_speaker. rewrite speaking_hits_cons.
  destruct (cur_speaker_id frame =? -1)%Z; simpl negb; cbv iota.
  - intro H. injection H as <-. unfold speaking_hits. simpl. lia.
  - intro H. apply bind_Ok in H. destruct H as (meta_face & -> & H).
    injection H as <-. cbn [num_of_active_speaker].
    unfold speaking_hits at 1. cbn [filter length]. unfold StdMap.at_default.
    destruct (StdMap.find meta_face (num_of_active_speaker scene))
      as [n |] eqn:Hfind;
      destruct (Z.eqb_spec meta_face m) as [-> | Hne].
    + rewrite StdMapFacts.find_set_same, Hfind. lia.
    + rewrite StdMapFacts.find_set_other by congruence. lia.
    + rewrite (StdMapFacts.find_insert_fresh _ _ _ Hfind), Hfind. lia.
    + rewrite StdMapFacts.find_insert_other by congruence. lia.
Qed.

Lemma frame_step_hits (buff_size : nat) s buff_position signal s' (m : Z) :
  frame_step sqrtf options_ buff_size s buff_position signal = Ok s' ->
  StdMap.at_default m 0%Z (num_of_active_speaker (snd s'))
  = (StdMap.at_default m 0%Z (num_of_active_speaker (snd s))
     + speaking_hits m
         [frame_speaker sqrtf options_ buff_size s buff_position signal])%Z.
Proof.
  destruct s as [this scene], s' as [this' scene']. intro Hstep.
  apply frame_step_Ok in Hstep. unfold frame_speaker.
  destruct (frame_skipped signal).
  - destruct Hstep as [-> ->]. unfold speaking_hits. simpl. lia.
  - destruct Hstep as (this1 & scene1 & frame & Hloop & Hcount & _).
    rewrite Hloop. cbn [snd].
    rewrite (count_speaker_hit _ _ _ m Hcount).
    apply face_loop_hits in Hloop. simpl in Hloop. rewrite Hloop.
    reflexivity.
Qed.

(** After the frame loop the count of a meta face is the number of
    frames whose speaker it is. *)
Lemma window_hits (buff_size : nat) (buff : list LipSignal) (m : Z) :
  forall buff_position s s',
    for_each (frame_step sqrtf options_ buff_size) buff buff_position s
    = Ok s' ->
    StdMap.at_default m 0%Z (num_of_active_speaker (snd s'))
    = (StdMap.at_default m 0%Z (num_of_active_speaker (snd s))
       + speaking_hits m
           (window_speakers sqrtf options_ buff_size buff buff_position s))%Z.
Proof.
  induction buff as [| signal rest IH]; intros buff_position s s' Hloop.
  - simpl in Hloop. injection Hloop as <-. unfold speaking_hits. simpl. lia.
  - cbn [for_each] in Hloop. apply bind_Ok in Hloop.
    destruct Hloop as (s1 & Hstep & Hloop).
    cbn [window_speakers]. rewrite Hstep.
    rewrite (IH _ _ _ Hloop), (frame_step_hits _ _ _ _ _ m Hstep).
    rewrite !speaking_hits_cons. change (speaking_hits m []) with 0%Z. lia.
Qed.

End HitCounts.

Lemma dominant_most_hits (hits : StdMap.t Z) (speakers : list (option Z))
    (dominate : Z) :
  hits_wellformed hits ->
  (forall m, StdMap.at_default m 0%Z hits = speaking_hits m speakers) ->
  dominant_of hits dominate ->
  most_hits speakers dominate.
Proof.
  intros [Hordered Hwf] Hcount [[-> ->] | (Hsome & count & Hin & Hmax & Htie)].
  - left. split; [ | reflexivity]. intro m. rewrite <- Hcount. reflexivity.
  - right. split; [exact Hsome | ].
    assert (Hdom : speaking_hits dominate speakers = count).
    { rewrite <- Hcount. unfold StdMap.at_default.
      rewrite (ordered_In_find _ _ _ Hordered Hin). reflexivity. }
    destruct (Hwf _ _ Hin) as [_ Hone].
    rewrite Hdom. split; [lia | ].
    intro m. rewrite <- Hcount. unfold StdMap.at_default.
    destruct (StdMap.find m hits) as [c |] eqn:Hfind.
    + apply StdMapFacts.find_In in Hfind. split.
      * exact (Hmax _ _ Hfind).
      * intros ->. exact (Htie _ Hfind).
    + split; lia.
Qed.

(** C8: in a window evaluation the hit count of a meta face is the
    number of buffered frames whose speaker belongs to it, and the
    dominant speaker recorded by [ProcessScene] is the meta face with
    the highest count, the lowest meta-face id among those with that
    count; there is no dominant speaker ([-1]) exactly when no meta
    face has a hit. *)
Theorem dominant_speaker_highest_count (sqrtf : float -> float)
    (options_ : LipTrackCalculatorOptions) (graph : GraphConfig)
    this this' out :
  nonnegative (meta_face_indices_ this) ->
  ProcessScene sqrtf options_ graph this = Ok (this', out) ->
  exists this1 scene,
    process_frames sqrtf options_ this = Ok (this1, scene)
    /\ hits_wellformed (num_of_active_speaker scene)
    /\ dominant_of (num_of_active_speaker scene)
         (pre_dominate_speaker_id_ this')
    /\ (forall m,
          StdMap.at_default m 0%Z (num_of_active_speaker scene)
          = speaking_hits m (speakers_of sqrtf options_ this))
    /\ most_hits (speakers_of sqrtf options_ this)
         (pre_dominate_speaker_id_ this').
Proof.
  intros Hids Hrun. apply ProcessScene_Ok in Hrun.
  destruct Hrun as (this1 & scene & Hframes & Hdom & _).
  exists this1, scene. split; [exact Hframes | ].
  destruct (process_frames_invariant _ _ _ _ _ Hids Hframes) as (_ & _ & Hwf).
  split; [exact Hwf | ]. rewrite Hdom.
  pose proof (find_dominate_speaker_spec _ Hwf) as Hspec.
  split; [exact Hspec | ].
  assert (Hcount : forall m,
             StdMap.at_default m 0%Z (num_of_active_speaker scene)
             = speaking_hits m (speakers_of sqrtf options_ this)).
  { intro m. unfold process_frames in Hframes.
    pose proof (window_hits sqrtf options_ _ _ m _ _ _ Hframes) as Hhits.
    cbn [snd num_of_active_speaker] in Hhits. rewrite Hhits.
    unfold speakers_of, StdMap.at_default, StdMap.empty.
    cbn [StdMap.find]. lia. }
  split; [exact Hcount | ].
  exact (dominant_most_hits _ _ _ Hwf Hcount Hspec).
Qed.

(** Two windows with two meta faces each: in [contest_window] meta
    face 1 has two hits against one and wins; in [gap_window] the two
    meta faces have one hit each and the lower id wins. *)
Lemma dominant_speaker_highest_count_witness :
  (exists this' out,
      ProcessScene sqrt_exact example_options example_graph
        (ready contest_window) = Ok (this', out)
      /\ speakers_of sqrt_exact example_options (ready contest_window)
         = [Some 0; Some 1; Some 1]%Z
      /\ pre_dominate_speaker_id_ this' = 1%Z
      /\ most_hits (speakers_of sqrt_exact example_options
                      (ready contest_window))
           (pre_dominate_speaker_id_ this'))
  /\ (exists this' out,
        ProcessScene sqrt_exact example_options example_graph
          (ready gap_window) = Ok (this', out)
        /\ speakers_of sqrt_exact example_options (ready gap_window)
           = [None; Some 0; Some 1]%Z
        /\ pre_dominate_speaker_id_ this' = 0%Z
        /\ most_hits (speakers_of sqrt_exact example_options
                        (ready gap_window))
             (pre_dominate_speaker_id_ this')).
Proof.
  split.
  - eexists. eexists. split; [vm_compute; reflexivity | ].
    split; [vm_compute; reflexivity | ].
    split; [vm_compute; reflexivity | ].
    edestruct (dominant_speaker_highest_count sqrt_exact example_options
                 example_graph (ready contest_window))
      as (this1 & scene & _ & _ & _ & _ & Hmost).
    + intros id [].
    + vm_compute. reflexivity.
    + exact Hmost.
  - eexists. eexists. split; [vm_compute; reflexivity | ].
    split; [vm_compute; reflexivity | ].
    split; [vm_compute; reflexivity | ].
    edestruct (dominant_speaker_highest_count sqrt_exact example_options
                 example_graph (ready gap_window))
      as (this1 & scene & _ & _ & _ & _ & Hmost).
    + intros id [].
    + vm_compute. reflexivity.
    + exact Hmost.
Defined.

(* ================================================================= *)
(** ** The shot-boundary decision *)

Lemma Transmit_downgraded options_ last_shot is_speaker_change timestamp :
  ltb (diff_seconds timestamp last_shot) (min_shot_span options_) = true ->
  forall packet,
    In packet (Transmit options_ last_shot is_speaker_change timestamp) ->
    fst packet = false.
Proof.
  intros Hclose packet. unfold Transmit. rewrite Hclose.
  destruct (negb (output_shot_boundary_only_on_change options_));
    simpl; intro Hin; [destruct Hin as [<- | []]; reflexivity | destruct Hin].
Qed.

(** C10: whenever a window evaluation with the shot signal enabled
    finds a dominant speaker and its candidate decision is a change (no
    previous dominant speaker, or the IOU of the previous and the
    current dominant boxes is not above [iou_threshold]), the last-shot
    timestamp becomes the first buffered timestamp, also when
    [Transmit] downgrades the decision and emits no [true]. *)
Theorem suppressed_candidate_updates_last_shot (sqrtf : float -> float)
    (options_ : LipTrackCalculatorOptions) (graph : GraphConfig)
    this this' out :
  ProcessScene sqrtf options_ graph this = Ok (this', out) ->
  has_output_shot graph && output_shot_boundary options_ = true ->
  pre_dominate_speaker_id_ this' <> (-1)%Z ->
  (pre_dominate_speaker_id_ this = (-1)%Z
   \/ exists previous rest current rest',
        pre_dominate_speaker_detection_ this = previous :: rest
        /\ dominate_detection_of sqrtf options_ this = Ok (current :: rest')
        /\ gtb (GetIOU previous current) (iou_threshold options_) = false) ->
  exists first rest,
    signal_buff_ this = first :: rest
    /\ last_shot_timestamp_ this' = timestamp first
    /\ shot_packets out
       = Transmit options_ (last_shot_timestamp_ this) true (timestamp first)
    /\ (ltb (diff_seconds (timestamp first) (last_shot_timestamp_ this))
            (min_shot_span options_) = true ->
        forall packet, In packet (shot_packets out) -> fst packet = false).
Proof.
  intros Hrun Henabled Hdominant Hcandidate.
  apply ProcessScene_Ok in Hrun.
  destruct Hrun as (this1 & scene & Hframes & Hid & _ & Hcase).
  cbv zeta in Hid, Hcase. rewrite <- Hid in Hcase.
  destruct (Z.eqb_spec (pre_dominate_speaker_id_ this') (-1));
    [contradiction | ].
  destruct Hcase as (detection & kept & Hclosest & Hshot & _).
  pose proof (process_frames_session _ _ _ _ _ Hframes)
    as (E1 & E2 & E3 & E4 & E5 & E6).
  assert (Hcand : shot_candidate options_ graph this1 detection = Ok (Some true)).
  { unfold shot_candidate. rewrite Henabled, E1, E2.
    destruct (Z.eqb_spec (pre_dominate_speaker_id_ this) (-1)); [reflexivity | ].
    destruct Hcandidate as [Hnone | (previous & rest & current & rest' & Hpre
                                     & Hdet & Hiou)]; [contradiction | ].
    unfold dominate_detection_of in Hdet. rewrite Hframes in Hdet.
    simpl in Hdet. rewrite E6, <- Hid, Hclosest in Hdet. injection Hdet as ->.
    rewrite Hpre. simpl. rewrite Hiou. reflexivity. }
  unfold shot_boundary in Hshot. rewrite Hcand in Hshot. simpl in Hshot.
  apply bind_Ok in Hshot. destruct Hshot as (first & Hfirst & Hshot).
  injection Hshot as Hpackets Hlast.
  rewrite E6 in Hfirst. rewrite E3 in Hpackets.
  apply vec_get_Ok in Hfirst. destruct Hfirst as [_ Hfirst]. simpl in Hfirst.
  destruct (signal_buff_ this) as [| first' rest]; [discriminate | ].
  injection Hfirst as ->.
  exists first, rest. repeat split; auto.
  intros Hclose packet Hin. rewrite <- Hpackets in Hin.
  exact (Transmit_downgraded _ _ _ _ Hclose packet Hin).
Qed.

Lemma suppressed_candidate_updates_last_shot_witness :
  exists this' out,
    ProcessScene sqrt_exact example_options example_graph (ready late_window)
    = Ok (this', out)
    /\ exists first rest,
         signal_buff_ (ready late_window) = first :: rest
         /\ last_shot_timestamp_ this' = timestamp first
         /\ shot_packets out
            = Transmit example_options
                (last_shot_timestamp_ (ready late_window)) true
                (timestamp first)
         /\ (ltb (diff_seconds (timestamp first)
                     (last_shot_timestamp_ (ready late_window)))
                  (min_shot_span example_options) = true ->
             forall packet, In packet (shot_packets out) -> fst packet = false).
Proof.
  eexists. eexists. split; [vm_compute; reflexivity | ].
  apply (suppressed_candidate_updates_last_shot sqrt_exact example_options
           example_graph (ready late_window)).
  - vm_compute. reflexivity.
  - reflexivity.
  - simpl. discriminate.
  - left. reflexivity.
Defined.

(* ================================================================= *)
(** ** Debounce of the shot signal *)

Lemma diff_seconds_Fin (a b : Z) :
  diff_seconds a b = Fin (inject_Z (a - b) / inject_Z 1000000).
Proof. reflexivity. Qed.

Lemma diff_seconds_later (ts earlier last : Z) (span : float) :
  (earlier <= last)%Z ->
  ltb (diff_seconds ts last) span = false ->
  ltb (diff_seconds ts earlier) span = false.
Proof.
  intros Hle. rewrite !diff_seconds_Fin.
  assert (Hq : (inject_Z (ts - last) / inject_Z 1000000
                <= inject_Z (ts - earlier) / inject_Z 1000000)%Q).
  { unfold Qdiv. apply Qmult_le_compat_r.
    - rewrite <- Zle_Qle. lia.
    - apply Qinv_le_0_compat. unfold Qle. simpl. lia. }
  destruct span as [q | [|] | ]; simpl; trivial.
  intro H. qprop. lra.
Qed.

Lemma Transmit_true options_ last_shot is_speaker_change timestamp t :
  In (true, t) (Transmit options_ last_shot is_speaker_change timestamp) ->
  t = timestamp
  /\ is_speaker_change = true
  /\ ltb (diff_seconds timestamp last_shot) (min_shot_span options_) = false.
Proof.
  unfold Transmit.
  destruct (ltb (diff_seconds timestamp last_shot) (min_shot_span options_)).
  - destruct (negb (output_shot_boundary_only_on_change options_)); simpl;
      intro Hin; [destruct Hin as [Hin | []]; discriminate | destruct Hin].
  - destruct is_speaker_change.
    + simpl. intros [Hin | []]. inversion Hin. auto.
    + destruct (negb (output_shot_boundary_only_on_change options_)); simpl;
        intro Hin; [destruct Hin as [Hin | []]; discriminate | destruct Hin].
Qed.

Lemma Transmit_false options_ last_shot is_speaker_change timestamp t :
  In (false, t) (Transmit options_ last_shot is_speaker_change timestamp) ->
  output_shot_boundary_only_on_change options_ = false.
Proof.
  unfold Transmit.
  destruct (output_shot_boundary_only_on_change options_); [ | reflexivity].
  destruct (ltb (diff_seconds timestamp last_shot) (min_shot_span options_)),
           is_speaker_change; simpl; intro Hin;
    try (destruct Hin as [Hin | []]; discriminate); destruct Hin.
Qed.

Lemma Transmit_length options_ last_shot is_speaker_change timestamp :
  (length (Transmit options_ last_shot is_speaker_change timestamp) <= 1)%nat.
Proof.
  unfold Transmit.
  destruct (if ltb (diff_seconds timestamp last_shot) (min_shot_span options_)
            then false else is_speaker_change); simpl; [lia | ].
  destruct (negb (output_shot_boundary_only_on_change options_)); simpl; lia.
Qed.

Section Debounce.

Variable sqrtf : float -> float.
Variable options_ : LipTrackCalculatorOptions.
Variable graph : GraphConfig.

(** The shot packets of one window evaluation: nothing, or what
    [Transmit] adds for the first buffered timestamp; the last-shot
    timestamp moves to that timestamp exactly when the candidate
    decision is a change. *)
Lemma ProcessScene_shot this this' out :
  ProcessScene sqrtf options_ graph this = Ok (this', out) ->
  signal_buff_ this' = []
  /\ ((shot_packets out = []
       /\ last_shot_timestamp_ this' = last_shot_timestamp_ this)
      \/ exists first rest is_speaker_change,
           signal_buff_ this = first :: rest
           /\ shot_packets out
              = Transmit options_ (last_shot_timestamp_ this)
                  is_speaker_change (timestamp first)
           /\ last_shot_timestamp_ this'
              = if is_speaker_change then timestamp first
                else last_shot_timestamp_ this).
Proof.
  intro Hrun. apply ProcessScene_Ok in Hrun.
  destruct Hrun as (this1 & scene & Hframes & _ & Hbuff & Hcase).
  split; [exact Hbuff | ].
  pose proof (process_frames_session _ _ _ _ _ Hframes)
    as (E1 & E2 & E3 & E4 & E5 & E6).
  cbv zeta in Hcase.
  destruct (find_dominate_speaker (num_of_active_speaker scene) =? -1)%Z.
  - destruct Hcase as (Hlast & _ & _ & Hshot).
    destruct (has_output_shot graph && output_shot_boundary options_).
    + destruct Hshot as (first & Hfirst & Hpackets).
      apply vec_get_Ok in Hfirst. destruct Hfirst as [_ Hfirst].
      simpl in Hfirst.
      destruct (signal_buff_ this) as [| first' rest]; [discriminate | ].
      injection Hfirst as ->.
      right. exists first, rest, false. auto.
    + left. auto.
  - destruct Hcase as (detection & kept & _ & Hshot & _).
    unfold shot_boundary in Hshot.
    apply bind_Ok in Hshot. destruct Hshot as ([is_change |] & _ & Hshot).
    + apply bind_Ok in Hshot. destruct Hshot as (first & Hfirst & Hshot).
      injection Hshot as Hpackets Hlast.
      rewrite E6 in Hfirst. rewrite E3 in Hpackets, Hlast.
      apply vec_get_Ok in Hfirst. destruct Hfirst as [_ Hfirst].
      simpl in Hfirst.
      destruct (signal_buff_ this) as [| first' rest]; [discriminate | ].
      injection Hfirst as ->.
      right. exists first, rest, is_change. auto.
    + injection Hshot as Hpackets Hlast. left. split; congruence.
Qed.

Lemma nth_error_app_cases {A : Type} (l1 l2 : list A) (i : nat) (a : A) :
  nth_error (l1 ++ l2) i = Some a ->
  ((i < length l1)%nat /\ nth_error l1 i = Some a)
  \/ ((length l1 <= i)%nat /\ nth_error l2 (i - length l1) = Some a).
Proof.
  intro Hnth. destruct (Nat.lt_ge_cases i (length l1)) as [Hlt | Hge].
  - left. rewrite nth_error_app1 in Hnth; auto.
  - right. rewrite nth_error_app2 in Hnth; auto.
Qed.

(** A window evaluation keeps the invariant. *)
Lemma ProcessScene_debounce this packets inputs this' out :
  debounce_invariant options_ this packets inputs ->
  ProcessScene sqrtf options_ graph this = Ok (this', out) ->
  debounce_invariant options_ this' (packets ++ shot_packets out) inputs.
Proof.
  intros (Hdeb & Hlast & Hbuf & Hfut & Hord & Honly) Hrun.
  apply ProcessScene_shot in Hrun. destruct Hrun as [Hempty Hcase].
  unfold debounce_invariant. rewrite Hempty.
  destruct Hcase as [[-> Hl] | (first & rest & b & Hbuff & Hpackets & Hl)].
  - rewrite app_nil_r, Hl.
    exact (conj Hdeb
             (conj Hlast
                (conj (fun t s _ (H : In s []) => match H with end)
                   (conj Hfut
                      (conj (fun s input (H : In s []) => match H with end)
                            Honly))))).
  - set (ts := timestamp first) in *.
    assert (Hfirst_in : In first (signal_buff_ this))
      by (rewrite Hbuff; left; reflexivity).
    assert (Hnew : forall t, In (true, t) (shot_packets out) ->
              t = ts /\ b = true
              /\ ltb (diff_seconds ts (last_shot_timestamp_ this))
                     (min_shot_span options_) = false).
    { intros t Hin. rewrite Hpackets in Hin.
      exact (Transmit_true _ _ _ _ _ Hin). }
    assert (Hlen : (length (shot_packets out) <= 1)%nat).
    { rewrite Hpackets. apply Transmit_length. }
    split.
    { intros i j ti tj Hij Hi Hj.
      apply nth_error_app_cases in Hi. apply nth_error_app_cases in Hj.
      destruct Hj as [[Hj1 Hj] | [Hj1 Hj]].
      - destruct Hi as [[Hi1 Hi] | [Hi1 Hi]]; [ | lia].
        exact (Hdeb i j ti tj Hij Hi Hj).
      - destruct Hi as [[Hi1 Hi] | [Hi1 Hi]].
        + apply nth_error_In in Hi, Hj.
          destruct (Hnew tj Hj) as (-> & _ & Hfar).
          split; [exact (Hbuf ti first Hi Hfirst_in) | ].
          exact (diff_seconds_later ts ti _ _ (Hlast ti Hi) Hfar).
        + assert (j - length packets < length (shot_packets out))%nat
            by (apply nth_error_Some; congruence).
          lia. }
    split.
    { intros t Hin. apply in_app_or in Hin. destruct Hin as [Hin | Hin].
      - rewrite Hl. destruct b; [exact (Hbuf t first Hin Hfirst_in) | auto].
      - destruct (Hnew t Hin) as (-> & -> & _). rewrite Hl. lia. }
    split; [intros t s _ [] | ].
    split.
    { intros t input Hin Hinput. apply in_app_or in Hin.
      destruct Hin as [Hin | Hin]; [eauto | ].
      destruct (Hnew t Hin) as (-> & _ & _).
      exact (Hord first input Hfirst_in Hinput). }
    split; [intros s input [] | ].
    intros Hflag packet Hin. apply in_app_or in Hin.
    destruct Hin as [Hin | Hin]; [exact (Honly Hflag packet Hin) | ].
    destruct packet as [[|] t]; [reflexivity | ].
    rewrite Hpackets in Hin. apply Transmit_false in Hin. congruence.
Qed.

(** What a successful [Process] did. *)
Lemma Process_Ok this input this' out :
  Process sqrtf options_ graph this input = Ok (this', out) ->
  exists this1 signal,
    signal_buff_ this1 = signal_buff_ this ++ [signal]
    /\ timestamp signal = input_timestamp input
    /\ last_shot_timestamp_ this1 = last_shot_timestamp_ this
    /\ ((this' = this1 /\ out = no_outputs)
        \/ ProcessScene sqrtf options_ graph this1 = Ok (this', out)).
Proof.
  unfold Process. destruct (video input) as [[frame_w frame_h] |];
    [ | discriminate].
  destruct (if (frame_width_ this <? 0)%Z then (frame_w, frame_h)
            else (frame_width_ this, frame_height_ this)) as [w h].
  set (signal := match input_landmarks input, input_detections input with
                 | Some lists, Some dets =>
                     mkSignal lists dets (input_timestamp input)
                 | _, _ => mkSignal [] [] (input_timestamp input)
                 end).
  assert (Hts : timestamp signal = input_timestamp input).
  { unfold signal. destruct (input_landmarks input), (input_detections input);
      reflexivity. }
  set (this1 := mkCalculator _ _ _ _ _ _ _ _ _ _ _).
  intro Hrun. exists this1, signal. repeat split; trivial.
  destruct (signal_buff_ this ++ [signal]) as [| first rest].
  - left. injection Hrun as <- <-. auto.
  - destruct (input_timestamp input - timestamp first
              >=? min_speaker_span options_)%Z.
    + right. exact Hrun.
    + left. injection Hrun as <- <-. auto.
Qed.

(** One [Process] call keeps the invariant, for the inputs after it. *)
Lemma Process_debounce this packets input inputs this' out :
  debounce_invariant options_ this packets (input :: inputs) ->
  timestamps_ordered (input :: inputs) ->
  Process sqrtf options_ graph this input = Ok (this', out) ->
  debounce_invariant options_ this' (packets ++ shot_packets out) inputs.
Proof.
  intros (Hdeb & Hlast & Hbuf & Hfut & Hord & Honly) Hsorted Hrun.
  apply Process_Ok in Hrun.
  destruct Hrun as (this1 & signal & Hbuff & Hts & Hl & Hcase).
  assert (Hnext : forall later, In later inputs ->
            (input_timestamp input <= input_timestamp later)%Z).
  { intros later Hin. unfold timestamps_ordered in Hsorted. simpl in Hsorted.
    apply StronglySorted_inv in Hsorted. destruct Hsorted as [_ Hall].
    rewrite Forall_forall in Hall. apply Hall. apply in_map. exact Hin. }
  assert (Hinv1 : debounce_invariant options_ this1 packets inputs).
  { unfold debounce_invariant. rewrite Hbuff, Hl.
    split; [exact Hdeb | ]. split; [exact Hlast | ].
    split; [ | split; [ | split; [ | exact Honly]]].
    - intros t s Hin Hs. apply in_app_or in Hs.
      destruct Hs as [Hs | [<- | []]]; [eauto | ].
      rewrite Hts. apply (Hfut t input Hin). left. reflexivity.
    - intros t later Hin Hlater. apply (Hfut t later Hin). right. exact Hlater.
    - intros s later Hs Hlater. apply in_app_or in Hs.
      destruct Hs as [Hs | [<- | []]].
      + apply (Hord s later Hs). right. exact Hlater.
      + rewrite Hts. auto. }
  destruct Hcase as [[-> ->] | Hscene].
  - simpl. rewrite app_nil_r. exact Hinv1.
  - exact (ProcessScene_debounce _ _ _ _ _ Hinv1 Hscene).
Qed.

Lemma run_debounce inputs :
  forall this out this' out',
    debounce_invariant options_ this (shot_packets out) inputs ->
    timestamps_ordered inputs ->
    run sqrtf options_ graph this inputs out = Ok (this', out') ->
    debounce_invariant options_ this' (shot_packets out') [].
Proof.
  induction inputs as [| input inputs IH];
    intros this out this' out' Hinv Hsorted Hrun; simpl in Hrun.
  - injection Hrun as <- <-. exact Hinv.
  - apply bind_Ok in Hrun. destruct Hrun as ([this1 out1] & Hstep & Hrun).
    apply (IH this1 (append_outputs out out1) this' out'); trivial.
    + simpl. exact (Process_debounce _ _ _ _ _ _ Hinv Hsorted Hstep).
    + unfold timestamps_ordered in *. simpl in Hsorted.
      apply StronglySorted_inv in Hsorted. tauto.
Qed.

Lemma Close_debounce this packets this' out :
  debounce_invariant options_ this packets [] ->
  Close sqrtf options_ graph this = Ok (this', out) ->
  debounce_invariant options_ this' (packets ++ shot_packets out) [].
Proof.
  intros Hinv Hclose. unfold Close in Hclose.
  apply bind_Ok in Hclose. destruct Hclose as ([this1 out1] & Hscene & Hclose).
  injection Hclose as <- <-.
  assert (Hinv1 : debounce_invariant options_ this1
                    (packets ++ shot_packets out1) []).
  { destruct (signal_buff_ this) as [| first rest] eqn:Hbuff.
    - injection Hscene as <- <-. simpl. rewrite app_nil_r. exact Hinv.
    - exact (ProcessScene_debounce _ _ _ _ _ Hinv Hscene). }
  exact Hinv1.
Qed.

Lemma initial_debounce inputs :
  debounce_invariant options_ initial (shot_packets no_outputs) inputs.
Proof.
  unfold debounce_invariant. simpl.
  split; [intros i j ti tj _ Hi; destruct i; discriminate | ].
  split; [intros t [] | ]. split; [intros t s [] | ].
  split; [intros t input [] | ]. split; [intros s input [] | ].
  intros _ packet [].
Qed.

End Debounce.

(** C7: in an execution whose input timestamps do not decrease, any two
    shot packets emitted as [true] are not less than [min_shot_span]
    apart, both before and after [Close]; [Transmit] emits no [true]
    for a decision made less than [min_shot_span] after the last
    recorded shot timestamp; and with
    [output_shot_boundary_only_on_change] no [false] packet is ever
    emitted. *)
Theorem shot_signal_debounced (sqrtf : float -> float)
    (options_ : LipTrackCalculatorOptions) (graph : GraphConfig)
    (inputs : list ProcessInput) this out :
  timestamps_ordered inputs ->
  run sqrtf options_ graph initial inputs no_outputs = Ok (this, out) ->
  (debounced options_ (shot_packets out)
   /\ (output_shot_boundary_only_on_change options_ = true ->
       only_changes (shot_packets out)))
  /\ (forall this' out',
        Close sqrtf options_ graph this = Ok (this', out') ->
        debounced options_ (shot_packets (append_outputs out out'))
        /\ (output_shot_boundary_only_on_change options_ = true ->
            only_changes (shot_packets (append_outputs out out'))))
  /\ (forall last_shot is_speaker_change timestamp,
        ltb (diff_seconds timestamp last_shot) (min_shot_span options_) = true ->
        forall packet,
          In packet (Transmit options_ last_shot is_speaker_change timestamp) ->
          fst packet = false).
Proof.
  intros Hsorted Hrun.
  pose proof (run_debounce sqrtf options_ graph inputs initial no_outputs
                this out (initial_debounce options_ inputs) Hsorted Hrun)
    as Hinv.
  split; [ | split].
  - destruct Hinv as (Hdeb & _ & _ & _ & _ & Honly). auto.
  - intros this' out' Hclose.
    pose proof (Close_debounce sqrtf options_ graph this (shot_packets out)
                  this' out' Hinv Hclose)
      as (Hdeb & _ & _ & _ & _ & Honly).
    simpl. auto.
  - intros last_shot is_speaker_change timestamp.
    apply Transmit_downgraded.
Qed.

Lemma shot_signal_debounced_witness :
  exists this out,
    run sqrt_exact example_options example_graph initial debounce_inputs
      no_outputs = Ok (this, out)
    /\ shot_packets out
       = [(true, 3000000); (false, 4000000); (false, 5500000);
          (true, 8000000)]%Z
    /\ debounced example_options (shot_packets out).
Proof.
  eexists. eexists. split; [vm_compute; reflexivity | ].
  split; [reflexivity | ].
  refine (proj1 (proj1 (shot_signal_debounced sqrt_exact example_options
                          example_graph debounce_inputs _ _ _ _))).
  - unfold timestamps_ordered. simpl.
    repeat (constructor; try (apply Z.leb_le; reflexivity)).
  - vm_compute. reflexivity.
Defined.

(* ================================================================= *)
(** ** Aligned windows are evaluated without undefined behaviour *)

Lemma for_each_total {A S : Type} (body : S -> Z -> A -> outcome S)
    (P : list A -> S -> Prop) (all : list A) :
  (forall visited a rest s,
      all = visited ++ a :: rest -> P visited s ->
      exists s', body s (Z.of_nat (length visited)) a = Ok s'
                 /\ P (visited ++ [a]) s') ->
  forall v visited s,
    all = visited ++ v -> P visited s ->
    exists s', for_each body v (Z.of_nat (length visited)) s = Ok s'
               /\ P all s'.
Proof.
  intro Hstep. induction v as [| a v IH]; intros visited s Hall HP.
  - rewrite app_nil_r in Hall. subst. simpl. eauto.
  - destruct (Hstep visited a v s Hall HP) as (s1 & Hbody & HP1).
    destruct (IH (visited ++ [a]) s1) as (s' & Hrun & HP').
    + rewrite <- app_assoc. exact Hall.
    + exact HP1.
    + exists s'. split; [ | exact HP']. simpl. rewrite Hbody. simpl.
      replace (Z.of_nat (length visited) + 1)%Z
        with (Z.of_nat (length (visited ++ [a])))
        by (rewrite length_app; simpl; lia).
      exact Hrun.
Qed.

Lemma list_set_Some {A : Type} (v : list A) :
  forall n a, (n < length v)%nat ->
    exists v', list_set v n a = Some v'
               /\ length v' = length v
               /\ nth_error v' n = Some a
               /\ forall k, k <> n -> nth_error v' k = nth_error v k.
Proof.
  induction v as [| hd tl IH]; intros n a Hlt; simpl in Hlt; [lia | ].
  destruct n as [| n']; simpl.
  - exists (a :: tl). repeat split. intros [| k] Hk; [lia | reflexivity].
  - destruct (IH n' a) as (tl' & -> & Hlen & Hnth & Hother); [lia | ].
    exists (hd :: tl'). simpl. repeat split; auto.
    intros [| k] Hk; [reflexivity | ]. simpl. apply Hother. lia.
Qed.

Lemma vec_set_Ok {A : Type} (v : list A) (i : Z) (a : A) :
  (0 <= i < Z.of_nat (length v))%Z ->
  exists v', vec_set v i a = Ok v'
             /\ length v' = length v
             /\ nth_error v' (Z.to_nat i) = Some a
             /\ forall k, k <> Z.to_nat i -> nth_error v' k = nth_error v k.
Proof.
  intro Hr. unfold vec_set. destruct (Z.ltb_spec i 0); [lia | ].
  destruct (list_set_Some v (Z.to_nat i) a) as (v' & -> & Hrest); [lia | ].
  eauto.
Qed.

Lemma GetStatistics_aligned sqrtf frame_width frame_height signal k :
  aligned signal = true -> frame_skipped signal = false ->
  (0 <= k < Z.of_nat (length (detections signal)))%Z ->
  exists value,
    vec_get (GetStatistics sqrtf frame_width frame_height
               (landmark_lists signal) []) k = Ok value.
Proof.
  unfold aligned. intros Hal Hskip Hk. rewrite Hskip in Hal. simpl in Hal.
  apply andb_true_iff in Hal. destruct Hal as [Hfull Hlen].
  apply Nat.leb_le in Hlen. apply vec_get_in_range.
  rewrite GetStatistics_length.
  assert (Hall : full_faces (landmark_lists signal) = landmark_lists signal).
  { unfold full_faces. clear Hlen Hskip Hk.
    induction (landmark_lists signal) as [| l ls IH]; simpl; [reflexivity | ].
    simpl in Hfull. apply andb_true_iff in Hfull. destruct Hfull as [Hl Hls].
    rewrite Hl. rewrite (IH Hls). reflexivity. }
  rewrite Hall. lia.
Qed.

Section Totality.

Variable sqrtf : float -> float.
Variable options_ : LipTrackCalculatorOptions.
Variable graph : GraphConfig.

(** The effect on the loop invariant of writing the current face index
    into the row of meta face [m] at the current frame. *)
Lemma face_loop_invariant_update buff buff_position signal this hits visited
    bbox this_i scene_i frame_i this_j faces' count' m row' stats' speaker' :
  nth_error buff buff_position = Some signal ->
  (Z.of_nat (length visited) < Z.of_nat (length (detections signal)))%Z ->
  face_loop_invariant buff buff_position this hits visited
    (this_i, scene_i, frame_i) ->
  same_but_ratchet this_j this_i ->
  (forall m', (0 <= m' < count')%Z
              <-> ((0 <= m' < meta_face_count scene_i)%Z \/ m' = m)) ->
  StdMap.find m faces' = Some row' ->
  (forall m', m' <> m ->
     StdMap.find m' faces' = StdMap.find m' (meta_faces scene_i)) ->
  length row' = length buff ->
  nth_error row' buff_position = Some (Z.of_nat (length visited)) ->
  (forall k face_id, k <> buff_position ->
     nth_error row' k = Some face_id -> face_id <> (-1)%Z ->
     exists row, StdMap.find m (meta_faces scene_i) = Some row
                 /\ nth_error row k = Some face_id) ->
  (speaker' = cur_speaker_id frame_i
   \/ speaker' = Z.of_nat (length visited)) ->
  face_loop_invariant buff buff_position this hits (visited ++ [bbox])
    (this_j, mkScene faces' count' hits,
     mkFrame stats' (cur_meta_face_indices frame_i ++ [m]) speaker').
Proof.
  intros Hsignal Hi (Hsame & Hhits & (Hc0 & Hrows & Hnone & Hslots) & Hids
                     & Hhr & Hlen & Hcur & Hspk)
         Hsame' Hrange Hfind Hother Hlen' Hpos Hkeep Hspeaker.
  unfold face_loop_invariant, rows_wellformed, hits_have_rows. simpl.
  assert (Hm : (0 <= m < count')%Z) by (apply Hrange; auto).
  split.
  { destruct Hsame as (E1 & E2 & E3 & E4 & E5 & E6 & E7 & E8 & E9).
    destruct Hsame' as (F1 & F2 & F3 & F4 & F5 & F6 & F7 & F8 & F9).
    repeat split; congruence. }
  split; [reflexivity | ].
  split.
  { split; [lia | ]. split; [ | split].
    - intros m' Hm'. destruct (Z.eq_dec m' m) as [-> | Hne]; [eauto | ].
      rewrite (Hother m' Hne). apply Hrows. apply Hrange in Hm'. tauto.
    - intros m' Hm'. destruct (Z.eq_dec m' m) as [-> | Hne]; [tauto | ].
      rewrite (Hother m' Hne). apply Hnone. intro Hin. apply Hm'.
      apply Hrange. auto.
    - intros m' row i face_id Hrow Hnth Hface.
      destruct (Z.eq_dec m' m) as [-> | Hne].
      + rewrite Hfind in Hrow. injection Hrow as <-.
        destruct (Nat.eq_dec i buff_position) as [-> | Hk].
        * rewrite Hpos in Hnth. injection Hnth as <-.
          exists signal. split; [exact Hsignal | lia].
        * destruct (Hkeep i face_id Hk Hnth Hface) as (old & Hold & Hnth').
          exact (Hslots m old i face_id Hold Hnth' Hface).
      + rewrite (Hother m' Hne) in Hrow.
        exact (Hslots m' row i face_id Hrow Hnth Hface). }
  split.
  { intros m' Hin. apply Hrange. left. auto. }
  split.
  { intros m' count Hin.
    destruct (Hhr m' count Hin) as (row & i & face_id & Hrow & Hnth & Hface).
    destruct (Z.eq_dec m' m) as [-> | Hne].
    - exists row', buff_position, (Z.of_nat (length visited)).
      repeat split; trivial. lia.
    - exists row, i, face_id. rewrite (Hother m' Hne). auto. }
  split.
  { rewrite !length_app. simpl. lia. }
  split.
  { intros m' Hin. apply in_app_or in Hin.
    destruct (Z.eq_dec m' m) as [-> | Hne].
    - exists row', (Z.of_nat (length visited)). repeat split; trivial. lia.
    - destruct Hin as [Hin | [Heq | []]]; [ | congruence].
      destruct (Hcur m' Hin) as (row & face_id & Hrow & Hnth & Hface).
      exists row, face_id. rewrite (Hother m' Hne). auto. }
  rewrite length_app. simpl.
  destruct Hspeaker as [-> | ->]; [ | right; lia].
  destruct Hspk as [Hs | Hs]; [left; exact Hs | right; lia].
Qed.

Lemma MatchFace_range (previous : list Detection) (bbox : Detection) :
  MatchFace options_ previous bbox = (-1)%Z
  \/ (0 <= MatchFace options_ previous bbox < Z.of_nat (length previous))%Z.
Proof.
  destruct (MatchFace_outcome options_ previous bbox)
    as [[Hnew _] | (Hpos & b & Hnth & _)]; [auto | right].
  split; [exact Hpos | ].
  assert (Z.to_nat (MatchFace options_ previous bbox) < length previous)%nat
    by (apply nth_error_Some; congruence).
  lia.
Qed.

Lemma nth_error_repeat_inv (a b : Z) (n k : nat) :
  nth_error (repeat a n) k = Some b -> b = a.
Proof.
  intro Hnth. apply nth_error_In in Hnth. exact (repeat_spec _ _ _ Hnth).
Qed.

(** In an aligned frame every face is processed without undefined
    behaviour, and the loop invariant is kept. *)
Lemma face_step_total buff buff_position signal statistics this hits visited
    bbox rest s :
  nth_error buff buff_position = Some signal ->
  detections signal = visited ++ bbox :: rest ->
  (forall k, (0 <= k < Z.of_nat (length (detections signal)))%Z ->
     exists value, vec_get statistics k = Ok value) ->
  length (meta_face_indices_ this) = length (face_bbox_ this) ->
  face_loop_invariant buff buff_position this hits visited s ->
  exists s',
    face_step options_ (length buff) (Z.of_nat buff_position) statistics s
      (Z.of_nat (length visited)) bbox = Ok s'
    /\ face_loop_invariant buff buff_position this hits (visited ++ [bbox]) s'.
Proof.
  destruct s as [[this_i scene_i] frame_i].
  intros Hsignal Hdets Hstats Hlens Hinv.
  pose proof Hinv as (Hsame & Hhits & (Hc0 & Hrows & Hnone & Hslots) & Hids
                      & Hhr & Hlen & Hcur & Hspk).
  assert (Hi : (Z.of_nat (length visited)
                < Z.of_nat (length (detections signal)))%Z).
  { rewrite Hdets, length_app. simpl. lia. }
  assert (Hpos : (0 <= Z.of_nat buff_position < Z.of_nat (length buff))%Z).
  { assert (buff_position < length buff)%nat
      by (apply nth_error_Some; congruence). lia. }
  destruct (Hstats (Z.of_nat (length visited))) as (value & Hvalue); [lia | ].
  destruct Hsame as (Ebbox & Estats & Eids & Erest).
  unfold face_step. rewrite Ebbox, Estats, Eids, Hvalue.
  destruct (MatchFace_range (face_bbox_ this) bbox) as [Hp | Hp].
  - (* a new face *)
    rewrite Hp. simpl.
    set (count := meta_face_count scene_i) in *.
    assert (Hfresh : StdMap.find count (meta_faces scene_i) = None)
      by (apply Hnone; lia).
    assert (Hdefault : StdMap.at_default count []
                         (StdMap.insert count [] (meta_faces scene_i)) = []).
    { unfold StdMap.at_default.
      rewrite (StdMapFacts.find_insert_fresh count [] _ Hfresh). reflexivity. }
    rewrite Hdefault. cbn [app].
    destruct (vec_set_Ok (repeat (-1)%Z (length buff)) (Z.of_nat buff_position)
                (Z.of_nat (length visited)))
      as (row' & -> & Hlen' & Hnth' & Hother');
      [rewrite repeat_length; exact Hpos | ].
    rewrite Nat2Z.id in Hnth', Hother'. rewrite repeat_length in Hlen'.
    simpl.
    destruct (IsActiveSpeaker options_ (speaker_mean_ this_i)
                (speaker_variance_ this_i) _) as [speaking [mean' variance']].
    eexists. split; [reflexivity | ].
    rewrite <- Hhits.
    apply (face_loop_invariant_update buff buff_position signal this
             (num_of_active_speaker scene_i) visited bbox this_i scene_i
             frame_i _ _ _ count row'); trivial.
    + rewrite Hhits. exact Hinv.
    + repeat split; simpl; congruence.
    + intro m'. fold count. lia.
    + apply StdMapFacts.find_set_same.
    + intros m' Hne. rewrite StdMapFacts.find_set_other by trivial.
      apply StdMapFacts.find_insert_other. trivial.
    + intros k face_id Hk Hnth Hface. rewrite (Hother' k Hk) in Hnth.
      apply nth_error_repeat_inv in Hnth. contradiction.
    + destruct speaking; auto.
  - (* a face seen in the previous frame *)
    set (p := MatchFace options_ (face_bbox_ this) bbox) in *.
    destruct (Z.eqb_spec p (-1)) as [Hneg | _]; [lia | ]. simpl.
    destruct (vec_get_in_range (meta_face_indices_ this) p) as (m & Hm);
      [rewrite Hlens; exact Hp | ].
    rewrite Hm. simpl.
    destruct (Hrows m) as (row & Hrow & Hrowlen);
      [apply Hids; exact (vec_get_In _ _ _ Hm) | ].
    assert (Hdefault : StdMap.at_default m [] (meta_faces scene_i) = row).
    { unfold StdMap.at_default. rewrite Hrow. reflexivity. }
    rewrite Hdefault.
    destruct (vec_set_Ok row (Z.of_nat buff_position)
                (Z.of_nat (length visited)))
      as (row' & -> & Hlen' & Hnth' & Hother');
      [rewrite Hrowlen; exact Hpos | ].
    rewrite Nat2Z.id in Hnth', Hother'. simpl.
    destruct (IsActiveSpeaker options_ (speaker_mean_ this_i)
                (speaker_variance_ this_i) _) as [speaking [mean' variance']].
    eexists. split; [reflexivity | ].
    rewrite <- Hhits.
    apply (face_loop_invariant_update buff buff_position signal this
             (num_of_active_speaker scene_i) visited bbox this_i scene_i
             frame_i _ _ _ m row'); trivial.
    + rewrite Hhits. exact Hinv.
    + repeat split; simpl; congruence.
    + intro m'. pose proof (Hids m (vec_get_In _ _ _ Hm)). lia.
    + apply StdMapFacts.find_set_same.
    + intros m' Hne. apply StdMapFacts.find_set_other. trivial.
    + congruence.
    + intros k face_id Hk Hnth Hface. rewrite (Hother' k Hk) in Hnth. eauto.
    + destruct speaking; auto.
Qed.

Lemma count_speaker_total buff buff_position this hits dets this1 scene1 frame :
  face_loop_invariant buff buff_position this hits dets (this1, scene1, frame) ->
  exists scene2,
    count_speaker frame scene1 = Ok scene2
    /\ meta_faces scene2 = meta_faces scene1
    /\ meta_face_count scene2 = meta_face_count scene1
    /\ hits_have_rows (num_of_active_speaker scene2) scene2.
Proof.
  intros (_ & Hhits & _ & _ & Hhr & Hlen & Hcur & Hspk).
  unfold count_speaker.
  destruct (Z.eqb_spec (cur_speaker_id frame) (-1)) as [Hnone | Hsome]; simpl.
  - exists scene1. rewrite Hhits. repeat split; trivial.
  - destruct Hspk as [Hs | Hs]; [contradiction | ].
    destruct (vec_get_in_range (cur_meta_face_indices frame)
                (cur_speaker_id frame)) as (m & Hm); [rewrite Hlen; exact Hs | ].
    rewrite Hm. simpl. eexists. split; [reflexivity | ]. simpl.
    split; [reflexivity | ]. split; [reflexivity | ].
    unfold hits_have_rows. simpl.
    destruct (Hcur m (vec_get_In _ _ _ Hm)) as (row & face_id & Hrow & Hnth & Hf).
    intros m' count Hin.
    assert (Hcases : m' = m \/ In (m', count) hits).
    { rewrite Hhits in Hin.
      destruct (StdMap.find m hits).
      - apply StdMapFacts.In_set_inv in Hin. tauto.
      - apply StdMapFacts.In_insert_inv in Hin. tauto. }
    destruct Hcases as [-> | Hold]; [ | exact (Hhr m' count Hold)].
    exists row, buff_position, face_id. auto.
Qed.

Lemma frame_step_total buff buff_position signal this scene :
  nth_error buff buff_position = Some signal ->
  aligned signal = true ->
  window_invariant buff this scene ->
  exists this' scene',
    frame_step sqrtf options_ (length buff) (this, scene)
      (Z.of_nat buff_position) signal = Ok (this', scene')
    /\ window_invariant buff this' scene'.
Proof.
  intros Hsignal Haligned (Hlens & Hids & Hrows & Hhr).
  destruct (frame_skipped signal) eqn:Hskip.
  - exists this, scene.
    split; [ | exact (conj Hlens (conj Hids (conj Hrows Hhr)))].
    unfold frame_step. unfold frame_skipped in Hskip.
    destruct (landmark_lists signal), (detections signal);
      try reflexivity; discriminate.
  - destruct (for_each_total
                (face_step options_ (length buff) (Z.of_nat buff_position)
                   (GetStatistics sqrtf (frame_width_ this) (frame_height_ this)
                      (landmark_lists signal) []))
                (face_loop_invariant buff buff_position this
                   (num_of_active_speaker scene))
                (detections signal))
      with (v := detections signal) (visited := @nil Detection)
           (s := (this, scene, mkFrame StdMap.empty [] (-1)%Z))
      as ([[this1 scene1] frame] & Hloop & Hinv).
    + intros visited bbox rest s Hdets Hs.
      apply (face_step_total buff buff_position signal _ this _ visited bbox
               rest s); trivial.
      intros k Hk. apply GetStatistics_aligned; trivial.
    + reflexivity.
    + exact (conj (same_but_ratchet_refl this)
               (conj eq_refl
                  (conj Hrows
                     (conj Hids
                        (conj Hhr
                           (conj eq_refl
                              (conj (fun m (H : In m []) =>
                                       match H with end)
                                    (or_introl eq_refl)))))))).
    + simpl in Hloop.
      destruct (count_speaker_total _ _ _ _ _ _ _ _ Hinv)
        as (scene2 & Hcount & Hmf & Hmc & Hhr2).
      destruct Hinv as (_ & _ & (Hc0 & Hrows1 & Hnone1 & Hslots1) & _ & _
                        & Hlen & Hcur & _).
      exists (mkCalculator (detections signal) (cur_face_statistics frame)
                (cur_meta_face_indices frame) zero zero
                (pre_dominate_speaker_id_ this1)
                (pre_dominate_speaker_detection_ this1)
                (last_shot_timestamp_ this1) (frame_width_ this1)
                (frame_height_ this1) (signal_buff_ this1)), scene2.
      split.
      * unfold frame_step. unfold frame_skipped in Hskip.
        destruct (landmark_lists signal) as [| l ls] eqn:Hl;
          [discriminate | ].
        destruct (detections signal) as [| d ds] eqn:Hd; [discriminate | ].
        rewrite Hloop. simpl. rewrite Hcount. simpl. reflexivity.
      * unfold window_invariant, rows_wellformed. simpl.
        rewrite Hmf, Hmc.
        split; [exact Hlen | ]. split; [ | auto].
        intros m Hin.
        destruct (Hcur m Hin) as (row & face_id & Hrow & _).
        destruct (Z.le_gt_cases 0 m) as [H0 | H0];
          [ destruct (Z.lt_ge_cases m (meta_face_count scene1)) as [H1 | H1];
            [lia | ] | ];
          rewrite Hnone1 in Hrow by lia; discriminate.
Qed.

Lemma process_frames_total this :
  face_bbox_ this = [] -> meta_face_indices_ this = [] ->
  Forall (fun signal => aligned signal = true) (signal_buff_ this) ->
  exists this1 scene,
    process_frames sqrtf options_ this = Ok (this1, scene)
    /\ window_invariant (signal_buff_ this) this1 scene.
Proof.
  intros Hbbox Hids Haligned. unfold process_frames.
  destruct (for_each_total
              (frame_step sqrtf options_ (length (signal_buff_ this)))
              (fun (_ : list LipSignal) (s : LipTrackCalculator * SceneLocals) =>
                 window_invariant (signal_buff_ this) (fst s) (snd s))
              (signal_buff_ this))
    with (v := signal_buff_ this) (visited := @nil LipSignal)
         (s := (this, mkScene StdMap.empty 0%Z StdMap.empty))
    as ([this1 scene] & Hrun & Hinv).
  - intros visited signal rest [this_i scene_i] Hall Hinv. simpl in Hinv.
    destruct (frame_step_total (signal_buff_ this) (length visited) signal
                this_i scene_i) as (this' & scene' & Hstep & Hinv'); trivial.
    + rewrite Hall, nth_error_app2, Nat.sub_diag by lia. reflexivity.
    + rewrite Forall_forall in Haligned. apply Haligned.
      rewrite Hall. apply in_or_app. right. left. reflexivity.
    + exists (this', scene'). auto.
  - reflexivity.
  - unfold window_invariant, rows_wellformed, hits_have_rows. simpl.
    rewrite Hbbox, Hids. simpl.
    split; [reflexivity | ]. split; [intros m [] | ].
    split; [ | intros m count []].
    split; [lia | ]. split; [intros m Hm; lia | ].
    split; [reflexivity | discriminate].
  - exists this1, scene. auto.
Qed.

Lemma vec_get_nth {A : Type} (v : list A) (n : nat) (a : A) :
  nth_error v n = Some a -> vec_get v (Z.of_nat n) = Ok a.
Proof.
  intro Hnth. unfold vec_get. destruct (Z.ltb_spec (Z.of_nat n) 0); [lia | ].
  rewrite Nat2Z.id, Hnth. reflexivity.
Qed.

Lemma closest_detection_total buff row :
  forall offset,
    (forall k face_id, nth_error row k = Some face_id -> face_id <> (-1)%Z ->
       exists signal, nth_error buff (offset + k) = Some signal
                      /\ (0 <= face_id
                          < Z.of_nat (length (detections signal)))%Z) ->
    (exists k face_id, nth_error row k = Some face_id /\ face_id <> (-1)%Z) ->
    exists detection,
      closest_detection buff row (Z.of_nat offset) = Ok [detection].
Proof.
  induction row as [| face_id0 row IH]; intros offset Hslots (k & f & Hk & Hf).
  - destruct k; discriminate.
  - simpl. destruct (Z.eqb_spec face_id0 (-1)) as [Hnone | Hsome]; simpl.
    + replace (Z.of_nat offset + 1)%Z with (Z.of_nat (S offset)) by lia.
      apply IH.
      * intros k' f' Hk' Hf'. destruct (Hslots (S k') f' Hk' Hf')
          as (signal & Hsig & Hr).
        exists signal. split; [ | exact Hr].
        replace (S offset + k')%nat with (offset + S k')%nat by lia.
        exact Hsig.
      * destruct k as [| k']; [simpl in Hk; congruence | eauto].
    + destruct (Hslots 0%nat face_id0 eq_refl Hsome) as (signal & Hsig & Hr).
      rewrite Nat.add_0_r in Hsig. rewrite (vec_get_nth _ _ _ Hsig). simpl.
      destruct (vec_get_in_range (detections signal) face_id0 Hr) as (d & ->).
      simpl. eauto.
Qed.

Lemma roi_loop_total buff row detection :
  length row = length buff ->
  (forall k face_id, nth_error row k = Some face_id -> face_id <> (-1)%Z ->
     exists signal, nth_error buff k = Some signal
                    /\ (0 <= face_id
                        < Z.of_nat (length (detections signal)))%Z) ->
  exists packets kept,
    for_each (roi_step row) buff 0%Z ([], [detection]) = Ok (packets, [kept]).
Proof.
  intros Hlen Hslots.
  destruct (for_each_total (roi_step row)
              (fun (_ : list LipSignal)
                   (s : list (list Detection * Z) * list Detection) =>
                 exists kept, snd s = [kept])
              buff)
    with (v := buff) (visited := @nil LipSignal)
         (s := (@nil (list Detection * Z), [detection]))
    as ([packets final] & Hrun & (kept & Hkept)).
  - intros visited signal rest [packets current] Hall (kept & Hkept).
    simpl in Hkept. subst current. unfold roi_step.
    assert (Hsig : nth_error buff (length visited) = Some signal).
    { rewrite Hall, nth_error_app2, Nat.sub_diag by lia. reflexivity. }
    assert (Hrange : (length visited < length row)%nat).
    { rewrite Hlen. apply nth_error_Some. congruence. }
    destruct (nth_error row (length visited)) as [face_id |] eqn:Hrow;
      [ | apply nth_error_None in Hrow; lia].
    rewrite (vec_get_nth _ _ _ Hrow). simpl.
    destruct (Z.eqb_spec face_id (-1)) as [Hnone | Hsome]; simpl.
    + eexists. split; [reflexivity | ]. simpl. eauto.
    + destruct (Hslots _ _ Hrow Hsome) as (signal' & Hsig' & Hr).
      assert (signal' = signal) by congruence. subst signal'.
      destruct (vec_get_in_range (detections signal) face_id Hr) as (d & ->).
      simpl. eexists. split; [reflexivity | ]. simpl. eauto.
  - reflexivity.
  - simpl. eauto.
  - simpl in Hkept. subst final. exists packets, kept. exact Hrun.
Qed.

(** A window whose frames are aligned is evaluated without undefined
    behaviour. *)
Lemma ProcessScene_total this :
  window_ready this ->
  exists this' out, ProcessScene sqrtf options_ graph this = Ok (this', out).
Proof.
  intros (Hbbox & Hids & Hnonempty & Haligned).
  destruct (process_frames_total this Hbbox Hids Haligned)
    as (this1 & scene & Hframes & Hinv).
  pose proof (process_frames_session _ _ _ _ _ Hframes)
    as (E1 & E2 & E3 & E4 & E5 & E6).
  assert (Hwf : hits_wellformed (num_of_active_speaker scene)).
  { apply (process_frames_invariant sqrtf options_ this this1 scene);
      [rewrite Hids; intros id [] | exact Hframes]. }
  assert (Hfirst : exists first, vec_get (signal_buff_ this1) 0%Z = Ok first).
  { rewrite E6. destruct (signal_buff_ this); [contradiction | ].
    eexists. reflexivity. }
  destruct Hfirst as (first & Hfirst).
  unfold ProcessScene. rewrite Hframes. cbn [bind].
  destruct (find_dominate_speaker_spec _ Hwf)
    as [[_ Hnone] | (Hsome & count & Hin & _)].
  - rewrite Hnone. cbn [Z.eqb Pos.eqb]. rewrite Hfirst. cbn [bind].
    destruct (has_output_shot graph && output_shot_boundary options_);
      cbn [bind]; eauto.
  - set (dominate := find_dominate_speaker (num_of_active_speaker scene)) in *.
    destruct (Z.eqb_spec dominate (-1)); [contradiction | ].
    destruct Hinv as (_ & _ & (_ & Hrows & Hout & Hslots) & Hhr).
    destruct (Hhr dominate count Hin) as (row & i & face_id & Hrow & Hnth & Hf).
    assert (Hdefault : StdMap.at_default dominate [] (meta_faces scene) = row).
    { unfold StdMap.at_default. rewrite Hrow. reflexivity. }
    rewrite Hdefault, E6.
    destruct (closest_detection_total (signal_buff_ this) row 0)
      as (detection & Hclosest); [eauto | eauto | ].
    change (Z.of_nat 0) with 0%Z in Hclosest. rewrite Hclosest. cbn [bind].
    assert (Hshot : exists shot, shot_boundary options_ graph this1 [detection]
                                 = Ok shot).
    { unfold shot_boundary, shot_candidate.
      destruct (has_output_shot graph && output_shot_boundary options_);
        [ | simpl; eauto].
      destruct (pre_dominate_speaker_id_ this1 =? -1)%Z;
        [simpl; rewrite Hfirst; simpl; eauto | ].
      destruct (pre_dominate_speaker_detection_ this1) as [| previous others];
        [simpl; eauto | ].
      simpl. rewrite Hfirst. simpl. eauto. }
    destruct Hshot as ([shot last_shot] & ->). cbn [bind].
    assert (Hrowlen : length row = length (signal_buff_ this)).
    { destruct (Z.le_gt_cases 0 dominate) as [H0 | H0];
        [ destruct (Z.lt_ge_cases dominate (meta_face_count scene))
            as [H1 | H1] | ].
      - destruct (Hrows dominate (conj H0 H1)) as (row' & Hrow' & Hlen').
        congruence.
      - rewrite Hout in Hrow by lia. discriminate.
      - rewrite Hout in Hrow by lia. discriminate. }
    destruct (roi_loop_total (signal_buff_ this) row detection Hrowlen)
      as (packets & kept & ->); [eauto | ].
    simpl. eauto.
Qed.

End Totality.

Section RunTotality.

Variable sqrtf : float -> float.
Variable options_ : LipTrackCalculatorOptions.
Variable graph : GraphConfig.

Lemma ProcessScene_cleared this this' out :
  ProcessScene sqrtf options_ graph this = Ok (this', out) ->
  between_windows this'.
Proof.
  unfold ProcessScene. intro Hrun.
  apply bind_Ok in Hrun. destruct Hrun as ([this1 scene] & _ & Hrun).
  destruct (find_dominate_speaker (num_of_active_speaker scene) =? -1)%Z.
  - apply bind_Ok in Hrun. destruct Hrun as (shot & _ & Hrun).
    injection Hrun as <- _. repeat split. constructor.
  - apply bind_Ok in Hrun. destruct Hrun as (detection & _ & Hrun).
    apply bind_Ok in Hrun. destruct Hrun as ([shot last_shot] & _ & Hrun).
    apply bind_Ok in Hrun. destruct Hrun as ([roi final] & _ & Hrun).
    apply bind_Ok in Hrun. destruct Hrun as (kept & _ & Hrun).
    injection Hrun as <- _. repeat split. constructor.
Qed.

Lemma Process_total this input :
  between_windows this -> input_aligned input = true ->
  exists this' out,
    Process sqrtf options_ graph this input = Ok (this', out)
    /\ between_windows this'.
Proof.
  intros (Hbbox & Hids & Haligned) Hinput.
  unfold input_aligned in Hinput. unfold Process.
  destruct (video input) as [[frame_w frame_h] |]; [ | discriminate].
  destruct (if (frame_width_ this <? 0)%Z then (frame_w, frame_h)
            else (frame_width_ this, frame_height_ this)) as [w h].
  set (signal := match input_landmarks input, input_detections input with
                 | Some lists, Some dets =>
                     mkSignal lists dets (input_timestamp input)
                 | _, _ => mkSignal [] [] (input_timestamp input)
                 end).
  assert (Hsignal : aligned signal = true).
  { unfold signal.
    destruct (input_landmarks input), (input_detections input);
      trivial; reflexivity. }
  set (this1 := mkCalculator _ _ _ _ _ _ _ _ _ _ _).
  assert (Hbetween : between_windows this1).
  { repeat split; trivial. simpl. apply Forall_app. split; [exact Haligned | ].
    constructor; [exact Hsignal | constructor]. }
  assert (Hready : window_ready this1).
  { destruct Hbetween as (B1 & B2 & B3). repeat split; trivial.
    simpl. destruct (signal_buff_ this); discriminate. }
  destruct (signal_buff_ this ++ [signal]) as [| first rest].
  - eauto.
  - destruct (input_timestamp input - timestamp first
              >=? min_speaker_span options_)%Z.
    + destruct (ProcessScene_total sqrtf options_ graph this1 Hready)
        as (this' & out & Hscene).
      exists this', out. split; [exact Hscene | ].
      exact (ProcessScene_cleared _ _ _ Hscene).
    + eauto.
Qed.

(** A run over aligned inputs has no undefined behaviour. *)
Lemma run_total inputs :
  forall this out,
    between_windows this ->
    Forall (fun input => input_aligned input = true) inputs ->
    exists this' out',
      run sqrtf options_ graph this inputs out = Ok (this', out').
Proof.
  induction inputs as [| input inputs IH]; intros this out Hthis Hall; simpl.
  - eauto.
  - apply Forall_cons_iff in Hall. destruct Hall as [Hinput Hall].
    destruct (Process_total this input Hthis Hinput)
      as (this1 & out1 & -> & Hthis1).
    simpl. apply IH; trivial.
Qed.

End RunTotality.

(* ================================================================= *)
(** ** The per-frame detection output *)

Section RoiOutput.

Variable sqrtf : float -> float.
Variable options_ : LipTrackCalculatorOptions.
Variable graph : GraphConfig.

(** Everything a successful [ProcessScene] computed when a dominant
    speaker exists. *)
Lemma ProcessScene_dominant this this' out this1 scene :
  ProcessScene sqrtf options_ graph this = Ok (this', out) ->
  process_frames sqrtf options_ this = Ok (this1, scene) ->
  find_dominate_speaker (num_of_active_speaker scene) <> (-1)%Z ->
  exists detection shot last_shot roi final kept,
    closest_detection (signal_buff_ this) (dominate_row scene) 0%Z
    = Ok detection
    /\ shot_boundary options_ graph this1 detection = Ok (shot, last_shot)
    /\ for_each (roi_step (dominate_row scene)) (signal_buff_ this) 0%Z
         ([], detection) = Ok (roi, final)
    /\ vec_get final 0%Z = Ok kept
    /\ this' = update_history this1
                 (find_dominate_speaker (num_of_active_speaker scene))
                 [kept] last_shot
    /\ out = mkOutputs shot roi.
Proof.
  intros Hrun Hframes Hdom. unfold ProcessScene in Hrun.
  rewrite Hframes in Hrun. cbn [bind] in Hrun.
  pose proof (process_frames_session _ _ _ _ _ Hframes)
    as (_ & _ & _ & _ & _ & E6).
  destruct (Z.eqb_spec (find_dominate_speaker (num_of_active_speaker scene))
              (-1)); [contradiction | ].
  rewrite E6 in Hrun. fold (dominate_row scene) in Hrun.
  apply bind_Ok in Hrun. destruct Hrun as (detection & Hdet & Hrun).
  apply bind_Ok in Hrun. destruct Hrun as ([shot last_shot] & Hshot & Hrun).
  apply bind_Ok in Hrun. destruct Hrun as ([roi final] & Hroi & Hrun).
  apply bind_Ok in Hrun. destruct Hrun as (kept & Hkept & Hrun).
  injection Hrun as <- <-.
  exists detection, shot, last_shot, roi, final, kept.
  repeat split; trivial.
Qed.

Lemma closest_detection_shape buff row :
  forall i detection,
    closest_detection buff row i = Ok detection ->
    detection = [] \/ exists d, detection = [d].
Proof.
  induction row as [| face_id row IH]; intros i detection; simpl.
  - intro H. injection H as <-. auto.
  - destruct (negb (face_id =? -1)%Z).
    + intro H. apply bind_Ok in H. destruct H as (signal & _ & H).
      apply bind_Ok in H. destruct H as (d & _ & H).
      injection H as <-. eauto.
    + apply IH.
Qed.

Lemma vec_get_singleton {A : Type} (a b : A) :
  vec_get [a] 0%Z = Ok b -> b = a.
Proof. intro H. inversion H. reflexivity. Qed.

(** The ROI loop, started with one carried detection: one packet per
    frame with the frame's timestamp and one detection, which is the
    dominant speaker's detection in that frame when its slot is not
    [-1] and the carried one otherwise. *)
Lemma roi_loop_spec row buff closest roi final :
  for_each (roi_step row) buff 0%Z ([], [closest]) = Ok (roi, final) ->
  map snd roi = map timestamp buff
  /\ final = box_before closest roi (length buff)
  /\ forall p signal,
       nth_error buff p = Some signal ->
       exists face_id box,
         nth_error row p = Some face_id
         /\ nth_error roi p = Some ([box], timestamp signal)
         /\ (face_id <> (-1)%Z ->
             nth_error (detections signal) (Z.to_nat face_id) = Some box)
         /\ (face_id = (-1)%Z -> [box] = box_before closest roi p).
Proof.
  intro Hrun.
  apply (for_each_prefix (roi_step row)
           (fun visited (s : list (list Detection * Z) * list Detection) =>
              map snd (fst s) = map timestamp visited
              /\ snd s = box_before closest (fst s) (length visited)
              /\ (exists d, snd s = [d])
              /\ forall p signal,
                   nth_error visited p = Some signal ->
                   exists face_id box,
                     nth_error row p = Some face_id
                     /\ nth_error (fst s) p = Some ([box], timestamp signal)
                     /\ (face_id <> (-1)%Z ->
                         nth_error (detections signal) (Z.to_nat face_id)
                         = Some box)
                     /\ (face_id = (-1)%Z ->
                         [box] = box_before closest (fst s) p)))
    with (visited := []) (v := buff) (s := ([], [closest])) (s' := (roi, final))
    in Hrun.
  - simpl in Hrun. tauto.
  - clear. intros visited signal [packets carried] [packets' carried']
           (Hts & Hcarried & (d & Hd) & Hpoint) Hstep. simpl in *.
    assert (Hlen : length packets = length visited).
    { rewrite <- (length_map snd packets), Hts, length_map. reflexivity. }
    assert (Hbefore : forall extra p, (p <= length packets)%nat ->
              box_before closest (packets ++ extra) p
              = box_before closest packets p).
    { intros extra [| p'] Hp; simpl; [reflexivity | ].
      rewrite nth_error_app1 by lia. reflexivity. }
    unfold roi_step in Hstep.
    apply bind_Ok in Hstep. destruct Hstep as (face_id & Hface & Hstep).
    apply vec_get_Ok in Hface. destruct Hface as [_ Hface].
    rewrite Nat2Z.id in Hface.
    assert (Hold : forall new p signal0,
              nth_error visited p = Some signal0 ->
              exists face_id0 box,
                nth_error row p = Some face_id0
                /\ nth_error (packets ++ [new]) p
                   = Some ([box], timestamp signal0)
                /\ (face_id0 <> (-1)%Z ->
                    nth_error (detections signal0) (Z.to_nat face_id0)
                    = Some box)
                /\ (face_id0 = (-1)%Z ->
                    [box] = box_before closest (packets ++ [new]) p)).
    { intros new p signal0 Hp.
      assert (p < length visited)%nat by (apply nth_error_Some; congruence).
      destruct (Hpoint p signal0 Hp) as (f0 & box & H1 & H2 & H3 & H4).
      exists f0, box. rewrite nth_error_app1 by lia.
      rewrite Hbefore by lia. auto. }
    assert (Hlast : forall new,
              box_before closest (packets ++ [new])
                (length (visited ++ [signal])) = fst new).
    { intro new. rewrite length_app. simpl. rewrite Nat.add_1_r. simpl.
      rewrite <- Hlen, nth_error_app2, Nat.sub_diag by lia. reflexivity. }
    assert (Hnew : forall new p signal0,
              nth_error (visited ++ [signal]) p = Some signal0 ->
              (length visited <= p)%nat ->
              p = length visited /\ signal0 = signal
              /\ nth_error (packets ++ [new]) p = Some new).
    { intros new p signal0 Hp Hge. rewrite nth_error_app2 in Hp by lia.
      assert (p - length visited < 1)%nat
        by (apply (nth_error_Some [signal]); congruence).
      assert (p = length visited) by lia. subst p.
      rewrite Nat.sub_diag in Hp. injection Hp as <-.
      rewrite <- Hlen, nth_error_app2, Nat.sub_diag by lia. auto. }
    destruct (Z.eqb_spec face_id (-1)) as [Hnone | Hsome]; simpl in Hstep.
    + rewrite Hd in Hstep. simpl in Hstep. injection Hstep as <- <-.
      split; [rewrite !map_app, Hts; reflexivity | ].
      split; [rewrite Hlast; reflexivity | ].
      split; [eauto | ].
      intros p signal0 Hp.
      destruct (Nat.lt_ge_cases p (length visited)) as [Hlt | Hge].
      * apply Hold. rewrite nth_error_app1 in Hp by lia. exact Hp.
      * destruct (Hnew ([d], timestamp signal) p signal0 Hp Hge)
          as (-> & -> & Hpacket).
        exists face_id, d. repeat split; trivial; [contradiction | ].
        intros _. rewrite Hbefore by lia. rewrite <- Hcarried. auto.
    + apply bind_Ok in Hstep. destruct Hstep as (box & Hbox & Hstep).
      apply bind_Ok in Hstep. destruct Hstep as (updated & Hset & Hstep).
      injection Hstep as <- <-.
      apply vec_get_Ok in Hbox. destruct Hbox as [_ Hbox].
      rewrite Hd in Hset. inversion Hset. subst updated.
      split; [rewrite !map_app, Hts; reflexivity | ].
      split; [rewrite Hlast; reflexivity | ].
      split; [eauto | ].
      intros p signal0 Hp.
      destruct (Nat.lt_ge_cases p (length visited)) as [Hlt | Hge].
      * apply Hold. rewrite nth_error_app1 in Hp by lia. exact Hp.
      * destruct (Hnew ([box], timestamp signal) p signal0 Hp Hge)
          as (-> & -> & Hpacket).
        exists face_id, box. repeat split; trivial. intro. contradiction.
  - simpl. repeat split; eauto. intros p signal Hp. destruct p; discriminate.
Qed.

End RoiOutput.

Section RoiTheorems.

Variable sqrtf : float -> float.
Variable options_ : LipTrackCalculatorOptions.
Variable graph : GraphConfig.

Lemma list_set_length {A : Type} (v : list A) :
  forall n a v', list_set v n a = Some v' -> length v' = length v.
Proof.
  induction v as [| hd tl IH]; intros n a v'; simpl; [discriminate | ].
  destruct n as [| n'].
  - intro H. injection H as <-. reflexivity.
  - destruct (list_set tl n' a) as [tl' |] eqn:E; [ | discriminate].
    intro H. injection H as <-. simpl. f_equal. exact (IH _ _ _ E).
Qed.

Lemma vec_set_length {A : Type} (v : list A) (i : Z) (a : A) (v' : list A) :
  vec_set v i a = Ok v' -> length v' = length v.
Proof.
  unfold vec_set. destruct (i <? 0)%Z; [discriminate | ].
  destruct (list_set v (Z.to_nat i) a) as [w |] eqn:E; [ | discriminate].
  intro H. injection H as <-. exact (list_set_length _ _ _ _ E).
Qed.

Lemma roi_loop_carried_length row buff packets carried roi final :
  for_each (roi_step row) buff 0%Z (packets, carried) = Ok (roi, final) ->
  length final = length carried.
Proof.
  intro Hrun.
  apply (for_each_invariant (roi_step row)
           (fun s : list (list Detection * Z) * list Detection =>
              length (snd s) = length carried))
    with (s' := (roi, final)) in Hrun; trivial.
  intros signal i [packets0 carried0] [packets1 carried1] Hlen Hstep.
  simpl in *. unfold roi_step in Hstep.
  apply bind_Ok in Hstep. destruct Hstep as (face_id & _ & Hstep).
  destruct (negb (face_id =? -1)%Z).
  - apply bind_Ok in Hstep. destruct Hstep as (box & _ & Hstep).
    apply bind_Ok in Hstep. destruct Hstep as (updated & Hset & Hstep).
    injection Hstep as _ <-. rewrite (vec_set_length _ _ _ _ Hset). exact Hlen.
  - apply bind_Ok in Hstep. destruct Hstep as (box & _ & Hstep).
    injection Hstep as _ <-. exact Hlen.
Qed.

(** With a dominant speaker, the detection picked before the ROI loop
    is a single one and the loop behaves as [roi_loop_spec] says. *)
Lemma ProcessScene_roi this this' out this1 scene :
  ProcessScene sqrtf options_ graph this = Ok (this', out) ->
  process_frames sqrtf options_ this = Ok (this1, scene) ->
  find_dominate_speaker (num_of_active_speaker scene) <> (-1)%Z ->
  exists closest final,
    closest_detection (signal_buff_ this) (dominate_row scene) 0%Z
    = Ok [closest]
    /\ for_each (roi_step (dominate_row scene)) (signal_buff_ this) 0%Z
         ([], [closest]) = Ok (roi_packets out, final)
    /\ pre_dominate_speaker_detection_ this' = final.
Proof.
  intros Hrun Hframes Hdom.
  destruct (ProcessScene_dominant sqrtf options_ graph _ _ _ _ _
              Hrun Hframes Hdom)
    as (detection & shot & last_shot & roi & final & kept
        & Hclosest & _ & Hroi & Hkept & -> & ->).
  pose proof (roi_loop_carried_length _ _ _ _ _ _ Hroi) as Hlen.
  destruct (closest_detection_shape _ _ _ _ Hclosest) as [-> | (closest & ->)].
  - destruct final; [discriminate | discriminate].
  - exists closest, final. repeat split; trivial. simpl.
    destruct final as [| d [| d' rest]]; try discriminate.
    apply vec_get_singleton in Hkept. subst. reflexivity.
Qed.

Lemma ProcessScene_roi_timestamps this this' out :
  ProcessScene sqrtf options_ graph this = Ok (this', out) ->
  map snd (roi_packets out) = map timestamp (signal_buff_ this).
Proof.
  intro Hrun. pose proof Hrun as Hcopy. apply ProcessScene_Ok in Hcopy.
  destruct Hcopy as (this1 & scene & Hframes & _ & _ & Hcase).
  cbv zeta in Hcase.
  destruct (Z.eqb_spec (find_dominate_speaker (num_of_active_speaker scene))
              (-1)) as [Hnone | Hsome].
  - destruct Hcase as (_ & _ & -> & _). rewrite map_map. reflexivity.
  - destruct (ProcessScene_roi _ _ _ _ _ Hrun Hframes Hsome)
      as (closest & final & _ & Hroi & _).
    apply roi_loop_spec in Hroi. tauto.
Qed.

(** X1: a window evaluation adds one DETECTIONS_SPEAKERS packet per
    buffered frame, in buffer order and at the frame's timestamp. Every
    packet is an empty detection list when the window has no dominant
    speaker, and holds exactly one detection when it has one. *)
Theorem roi_one_packet_per_frame this this' out :
  ProcessScene sqrtf options_ graph this = Ok (this', out) ->
  map snd (roi_packets out) = map timestamp (signal_buff_ this)
  /\ (pre_dominate_speaker_id_ this' = (-1)%Z ->
      forall packet, In packet (roi_packets out) -> fst packet = [])
  /\ (pre_dominate_speaker_id_ this' <> (-1)%Z ->
      forall packet, In packet (roi_packets out) ->
        exists box, fst packet = [box]).
Proof.
  intro Hrun. split; [exact (ProcessScene_roi_timestamps _ _ _ Hrun) | ].
  pose proof Hrun as Hcopy. apply ProcessScene_Ok in Hcopy.
  destruct Hcopy as (this1 & scene & Hframes & Hid & _ & Hcase).
  cbv zeta in Hid, Hcase. rewrite Hid.
  destruct (Z.eqb_spec (find_dominate_speaker (num_of_active_speaker scene))
              (-1)) as [Hnone | Hsome].
  - split; [ | contradiction]. intros _ packet Hin.
    destruct Hcase as (_ & _ & Hroi & _). rewrite Hroi in Hin.
    apply in_map_iff in Hin. destruct Hin as (signal & <- & _). reflexivity.
  - split; [contradiction | ]. intros _ packet Hin.
    destruct (ProcessScene_roi _ _ _ _ _ Hrun Hframes Hsome)
      as (closest & final & _ & Hroi & _).
    apply roi_loop_spec in Hroi. destruct Hroi as (Hts & _ & Hpoint).
    apply In_nth_error in Hin. destruct Hin as (p & Hp).
    assert (Hlt : (p < length (signal_buff_ this))%nat).
    { rewrite <- (length_map timestamp), <- Hts, length_map.
      apply nth_error_Some. congruence. }
    destruct (nth_error (signal_buff_ this) p) as [signal |] eqn:Hsig;
      [ | apply nth_error_None in Hsig; lia].
    destruct (Hpoint p signal Hsig) as (face_id & box & _ & Hpacket & _).
    rewrite Hp in Hpacket. injection Hpacket as ->.
    exists box. reflexivity.
Qed.

Lemma closest_detection_first buff row :
  forall offset closest,
    closest_detection buff row (Z.of_nat offset) = Ok [closest] ->
    exists p signal face_id,
      nth_error row p = Some face_id
      /\ face_id <> (-1)%Z
      /\ (forall q, (q < p)%nat -> nth_error row q = Some (-1)%Z)
      /\ nth_error buff (offset + p) = Some signal
      /\ nth_error (detections signal) (Z.to_nat face_id) = Some closest.
Proof.
  induction row as [| face_id row IH]; intros offset closest; simpl.
  - discriminate.
  - destruct (Z.eqb_spec face_id (-1)) as [-> | Hsome]; simpl.
    + replace (Z.of_nat offset + 1)%Z with (Z.of_nat (S offset)) by lia.
      intro H. destruct (IH _ _ H) as (p & signal & f & H1 & H2 & H3 & H4 & H5).
      exists (S p), signal, f. repeat split; trivial.
      * intros [| q] Hq; [reflexivity | ]. simpl. apply H3. lia.
      * replace (offset + S p)%nat with (S offset + p)%nat by lia. exact H4.
    + intro H. apply bind_Ok in H. destruct H as (signal & Hsig & H).
      apply bind_Ok in H. destruct H as (d & Hd & H). injection H as <-.
      apply vec_get_Ok in Hsig, Hd. rewrite Nat2Z.id in Hsig.
      exists 0%nat, signal, face_id. rewrite Nat.add_0_r.
      repeat split; try tauto. intros q Hq. lia.
Qed.

(** X2: with a dominant speaker, the packet of each buffered frame
    holds the dominant meta face's detection of that frame when the
    meta face appears in it; otherwise it holds the box carried from
    the frame before, and before the first appearance the box of the
    first frame in which the meta face appears. The box of the last
    packet is kept as the previous dominant speaker's detection. *)
Theorem roi_follows_dominant this this' out this1 scene :
  ProcessScene sqrtf options_ graph this = Ok (this', out) ->
  process_frames sqrtf options_ this = Ok (this1, scene) ->
  pre_dominate_speaker_id_ this' <> (-1)%Z ->
  exists closest,
    (exists p signal face_id,
        nth_error (dominate_row scene) p = Some face_id
        /\ face_id <> (-1)%Z
        /\ (forall q, (q < p)%nat ->
              nth_error (dominate_row scene) q = Some (-1)%Z)
        /\ nth_error (signal_buff_ this) p = Some signal
        /\ nth_error (detections signal) (Z.to_nat face_id) = Some closest)
    /\ (forall p signal,
          nth_error (signal_buff_ this) p = Some signal ->
          exists face_id box,
            nth_error (dominate_row scene) p = Some face_id
            /\ nth_error (roi_packets out) p = Some ([box], timestamp signal)
            /\ (face_id <> (-1)%Z ->
                nth_error (detections signal) (Z.to_nat face_id) = Some box)
            /\ (face_id = (-1)%Z ->
                [box] = box_before closest (roi_packets out) p))
    /\ pre_dominate_speaker_detection_ this'
       = box_before closest (roi_packets out) (length (signal_buff_ this)).
Proof.
  intros Hrun Hframes Hdominant.
  pose proof Hrun as Hcopy. apply ProcessScene_Ok in Hcopy.
  destruct Hcopy as (this1' & scene' & Hframes' & Hid & _).
  rewrite Hframes in Hframes'. injection Hframes' as <- <-.
  cbv zeta in Hid. rewrite Hid in Hdominant.
  destruct (ProcessScene_roi _ _ _ _ _ Hrun Hframes Hdominant)
    as (closest & final & Hclosest & Hroi & Hkept).
  apply roi_loop_spec in Hroi. destruct Hroi as (_ & Hfinal & Hpoint).
  exists closest. split; [ | split].
  - exact (closest_detection_first _ _ 0%nat _ Hclosest).
  - exact Hpoint.
  - congruence.
Qed.

End RoiTheorems.

Lemma roi_one_packet_per_frame_witness :
  exists this' out,
    ProcessScene sqrt_exact example_options example_graph
      (ready two_frame_window) = Ok (this', out)
    /\ map snd (roi_packets out) = [0; 1]%Z
    /\ forall packet, In packet (roi_packets out) ->
         exists box, fst packet = [box].
Proof.
  eexists. eexists. split; [vm_compute; reflexivity | ].
  edestruct (roi_one_packet_per_frame sqrt_exact example_options example_graph
               (ready two_frame_window)) as (Hts & _ & Hone).
  - vm_compute. reflexivity.
  - split; [exact Hts | ]. apply Hone. vm_compute. discriminate.
Defined.

Lemma roi_follows_dominant_witness :
  exists this' out this1 scene,
    ProcessScene sqrt_exact example_options example_graph (ready gap_window)
    = Ok (this', out)
    /\ process_frames sqrt_exact example_options (ready gap_window)
       = Ok (this1, scene)
    /\ dominate_row scene = [-1; 0; -1]%Z
    /\ roi_packets out
       = [([box 0 0 1 1], 0); ([box 0 0 1 1], 1); ([box 0 0 1 1], 2)]%Z
    /\ exists closest,
         pre_dominate_speaker_detection_ this'
         = box_before closest (roi_packets out) (length gap_window).
Proof.
  eexists. eexists. eexists. eexists.
  split; [vm_compute; reflexivity | ].
  split; [vm_compute; reflexivity | ].
  split; [vm_compute; reflexivity | ].
  split; [vm_compute; reflexivity | ].
  edestruct (roi_follows_dominant sqrt_exact example_options example_graph
               (ready gap_window)) as (closest & _ & _ & Hkept).
  - vm_compute. reflexivity.
  - vm_compute. reflexivity.
  - vm_compute. discriminate.
  - exists closest. exact Hkept.
Defined.

(* ================================================================= *)
(** ** Runs of the calculator *)

Section Runs.

Variable sqrtf : float -> float.
Variable options_ : LipTrackCalculatorOptions.
Variable graph : GraphConfig.

(** The members after a successful [ProcessScene]. *)
Lemma ProcessScene_members this this' out :
  ProcessScene sqrtf options_ graph this = Ok (this', out) ->
  face_bbox_ this' = []
  /\ face_statistics_ this' = []
  /\ meta_face_indices_ this' = []
  /\ signal_buff_ this' = []
  /\ frame_width_ this' = frame_width_ this
  /\ frame_height_ this' = frame_height_ this
  /\ pre_consistent this'.
Proof.
  unfold ProcessScene. intro Hrun.
  apply bind_Ok in Hrun. destruct Hrun as ([this1 scene] & Hframes & Hrun).
  pose proof (process_frames_session _ _ _ _ _ Hframes)
    as (_ & _ & _ & E4 & E5 & _).
  destruct (Z.eqb_spec (find_dominate_speaker (num_of_active_speaker scene))
              (-1)) as [Hnone | Hsome].
  - apply bind_Ok in Hrun. destruct Hrun as (shot & _ & Hrun).
    injection Hrun as <- _. simpl. repeat split; trivial.
    left. simpl. auto.
  - apply bind_Ok in Hrun. destruct Hrun as (detection & _ & Hrun).
    apply bind_Ok in Hrun. destruct Hrun as ([shot last_shot] & _ & Hrun).
    apply bind_Ok in Hrun. destruct Hrun as ([roi final] & _ & Hrun).
    apply bind_Ok in Hrun. destruct Hrun as (kept & _ & Hrun).
    injection Hrun as <- _. simpl. repeat split; trivial.
    right. simpl. eauto.
Qed.

(** What a successful [Process] did: it buffered the input's signal,
    fixed the frame size if it was not fixed yet, and either returned
    (the buffer spans less than [min_speaker_span]) or evaluated the
    window. *)
Lemma Process_step this input this' out :
  Process sqrtf options_ graph this input = Ok (this', out) ->
  exists frame_w frame_h this1,
    video input = Some (frame_w, frame_h)
    /\ signal_buff_ this1 = signal_buff_ this ++ [signal_of input]
    /\ frame_width_ this1
       = (if (frame_width_ this <? 0)%Z then frame_w else frame_width_ this)
    /\ frame_height_ this1
       = (if (frame_width_ this <? 0)%Z then frame_h else frame_height_ this)
    /\ pre_dominate_speaker_id_ this1 = pre_dominate_speaker_id_ this
    /\ pre_dominate_speaker_detection_ this1
       = pre_dominate_speaker_detection_ this
    /\ last_shot_timestamp_ this1 = last_shot_timestamp_ this
    /\ exists first rest,
         signal_buff_ this1 = first :: rest
         /\ ((this' = this1 /\ out = no_outputs
              /\ (input_timestamp input - timestamp first
                  < min_speaker_span options_)%Z)
             \/ ((min_speaker_span options_
                  <= input_timestamp input - timestamp first)%Z
                 /\ ProcessScene sqrtf options_ graph this1 = Ok (this', out))).
Proof.
  unfold Process. destruct (video input) as [[frame_w frame_h] |];
    [ | discriminate].
  fold (signal_of input).
  destruct (frame_width_ this <? 0)%Z eqn:Hw;
    (set (this1 := mkCalculator _ _ _ _ _ _ _ _ _ _ _);
     intro Hrun; exists frame_w, frame_h, this1;
     repeat (split; [reflexivity | ]);
     simpl;
     destruct (signal_buff_ this ++ [signal_of input])
       as [| first rest] eqn:Hbuff;
     [ destruct (signal_buff_ this); discriminate | ];
     exists first, rest; split; [reflexivity | ];
     destruct (Z.geb_spec (input_timestamp input - timestamp first)
                 (min_speaker_span options_));
     [ right; split; [assumption | exact Hrun]
     | left; injection Hrun as <- <-; repeat split; assumption ]).
Qed.

Lemma Close_step this this' out :
  Close sqrtf options_ graph this = Ok (this', out) ->
  (signal_buff_ this = [] /\ out = no_outputs)
  \/ (signal_buff_ this <> []
      /\ exists this1, ProcessScene sqrtf options_ graph this = Ok (this1, out)).
Proof.
  unfold Close. intro Hclose.
  apply bind_Ok in Hclose. destruct Hclose as ([this1 out1] & Hscene & Hclose).
  injection Hclose as _ <-.
  destruct (signal_buff_ this) as [| first rest].
  - left. injection Hscene as _ <-. auto.
  - right. split; [discriminate | eauto].
Qed.

(** Invariant rule for [run]: [consumed] are the inputs processed so
    far. *)
Lemma run_preserves
    (I : LipTrackCalculator -> Outputs -> list ProcessInput -> Prop) :
  (forall this out consumed input this' out1,
      I this out consumed ->
      Process sqrtf options_ graph this input = Ok (this', out1) ->
      I this' (append_outputs out out1) (consumed ++ [input])) ->
  forall inputs this out consumed this' out',
    I this out consumed ->
    run sqrtf options_ graph this inputs out = Ok (this', out') ->
    I this' out' (consumed ++ inputs).
Proof.
  intro Hstep. induction inputs as [| input inputs IH];
    intros this out consumed this' out' HI Hrun; simpl in Hrun.
  - injection Hrun as <- <-. rewrite app_nil_r. exact HI.
  - apply bind_Ok in Hrun. destruct Hrun as ([this1 out1] & Hproc & Hrun).
    replace (consumed ++ input :: inputs) with ((consumed ++ [input]) ++ inputs)
      by (rewrite <- app_assoc; reflexivity).
    apply (IH this1 (append_outputs out out1)); [ | exact Hrun].
    exact (Hstep _ _ _ _ _ _ HI Hproc).
Qed.

(** X3: between two [Process] calls the buffered frames span less than
    [min_speaker_span]: every buffered timestamp is less than
    [min_speaker_span] after the first buffered one. *)
Theorem buffer_within_span inputs this out :
  run sqrtf options_ graph initial inputs no_outputs = Ok (this, out) ->
  within_span options_ (signal_buff_ this).
Proof.
  intro Hrun.
  apply (run_preserves
           (fun this0 _ _ => within_span options_ (signal_buff_ this0)))
    with (consumed := []) (inputs := inputs) (this := initial)
         (out := no_outputs) (this' := this) (out' := out); trivial.
  - clear. intros this out consumed input this' out1 Hspan Hproc.
    apply Process_step in Hproc.
    destruct Hproc as (w & h & this1 & _ & Hbuff & _ & _ & _ & _ & _
                       & first & rest & Hfirst & Hcase).
    destruct Hcase as [(-> & _ & Hlt) | (_ & Hscene)].
    + intros first' rest' signal Heq Hin. rewrite Hfirst in Heq.
      injection Heq as <- <-. rewrite Hbuff in Hin, Hfirst.
      apply in_app_or in Hin. destruct Hin as [Hin | [<- | []]].
      * destruct (signal_buff_ this) as [| f r] eqn:Hold; [destruct Hin | ].
        injection Hfirst as <- _. exact (Hspan f r signal eq_refl Hin).
      * unfold signal_of.
        destruct (input_landmarks input), (input_detections input);
          exact Hlt.
    + apply ProcessScene_members in Hscene.
      destruct Hscene as (_ & _ & _ & -> & _). intros f r s Heq. discriminate.
  - intros f r s Heq. discriminate.
Qed.

(** X4: every input frame gets exactly one DETECTIONS_SPEAKERS packet
    at its own timestamp, in input order: during a run the packets
    emitted so far followed by the buffered frames account for all
    inputs, and [Close] emits the packets of the frames still
    buffered. *)
Theorem one_detection_packet_per_input inputs this out :
  run sqrtf options_ graph initial inputs no_outputs = Ok (this, out) ->
  map snd (roi_packets out) ++ map timestamp (signal_buff_ this)
  = map input_timestamp inputs
  /\ forall this' out',
       Close sqrtf options_ graph this = Ok (this', out') ->
       map snd (roi_packets (append_outputs out out'))
       = map input_timestamp inputs.
Proof.
  intro Hrun.
  assert (Hinv : map snd (roi_packets out) ++ map timestamp (signal_buff_ this)
                 = map input_timestamp inputs).
  { apply (run_preserves
             (fun this0 out0 consumed =>
                map snd (roi_packets out0)
                ++ map timestamp (signal_buff_ this0)
                = map input_timestamp consumed))
      with (consumed := []) (inputs := inputs) (this := initial)
           (out := no_outputs) (this' := this) (out' := out); trivial.
    clear. intros this out consumed input this' out1 Hinv Hproc.
    apply Process_step in Hproc.
    destruct Hproc as (w & h & this1 & _ & Hbuff & _ & _ & _ & _ & _
                       & first & rest & _ & Hcase).
    assert (Hts : timestamp (signal_of input) = input_timestamp input).
    { unfold signal_of.
      destruct (input_landmarks input), (input_detections input);
        reflexivity. }
    rewrite map_app. simpl. rewrite <- Hinv, <- Hts.
    destruct Hcase as [(-> & -> & _) | (_ & Hscene)].
    - simpl. rewrite app_nil_r, Hbuff, map_app, app_assoc. reflexivity.
    - pose proof (ProcessScene_roi_timestamps _ _ _ _ _ _ Hscene) as Hroi.
      apply ProcessScene_members in Hscene.
      destruct Hscene as (_ & _ & _ & -> & _).
      simpl. rewrite map_app, Hroi, Hbuff, map_app, app_nil_r, app_assoc.
      reflexivity. }
  split; [exact Hinv | ].
  intros this' out' Hclose. apply Close_step in Hclose.
  destruct Hclose as [[Hempty ->] | (_ & this1 & Hscene)].
  - rewrite Hempty in Hinv. simpl in *. rewrite !app_nil_r in *. exact Hinv.
  - simpl. rewrite map_app.
    rewrite (ProcessScene_roi_timestamps _ _ _ _ _ _ Hscene). exact Hinv.
Qed.

(** X5: the frame size is the one of the first video frame and never
    changes afterwards. *)
Theorem frame_size_fixed_by_first_frame input inputs frame_w frame_h this out :
  video input = Some (frame_w, frame_h) ->
  (0 <= frame_w)%Z ->
  run sqrtf options_ graph initial (input :: inputs) no_outputs
  = Ok (this, out) ->
  frame_width_ this = frame_w /\ frame_height_ this = frame_h.
Proof.
  intros Hvideo Hw Hrun. simpl in Hrun.
  apply bind_Ok in Hrun. destruct Hrun as ([this1 out1] & Hproc & Hrun).
  assert (Hkeep : forall this0 input0 this0' out0,
            frame_width_ this0 = frame_w /\ frame_height_ this0 = frame_h ->
            Process sqrtf options_ graph this0 input0 = Ok (this0', out0) ->
            frame_width_ this0' = frame_w /\ frame_height_ this0' = frame_h).
  { intros this0 input0 this0' out0 [Hw0 Hh0] Hp. apply Process_step in Hp.
    destruct Hp as (w & h & this2 & _ & _ & Hw2 & Hh2 & _ & _ & _
                    & first & rest & _ & Hcase).
    destruct (Z.ltb_spec (frame_width_ this0) 0); [lia | ].
    destruct Hcase as [(-> & _) | (_ & Hscene)]; [split; congruence | ].
    apply ProcessScene_members in Hscene.
    destruct Hscene as (_ & _ & _ & _ & -> & -> & _). split; congruence. }
  apply (run_preserves
           (fun this0 _ _ =>
              frame_width_ this0 = frame_w /\ frame_height_ this0 = frame_h))
    with (consumed := []) (inputs := inputs) (this := this1)
         (out := append_outputs no_outputs out1) (this' := this) (out' := out);
    trivial.
  - intros this0 out0 consumed input0 this0' out0'. apply Hkeep.
  - apply Process_step in Hproc.
    destruct Hproc as (w & h & this2 & Hv & _ & Hw2 & Hh2 & _ & _ & _
                       & first & rest & _ & Hcase).
    rewrite Hvideo in Hv. injection Hv as <- <-. simpl in Hw2, Hh2.
    destruct Hcase as [(-> & _) | (_ & Hscene)]; [split; congruence | ].
    apply ProcessScene_members in Hscene.
    destruct Hscene as (_ & _ & _ & _ & -> & -> & _). split; congruence.
Qed.

(** X6: during a run the previous dominant speaker is recorded
    consistently: its id is [-1] and no detection is stored, or its id
    is a meta-face id and exactly one detection is stored. *)
Theorem previous_dominant_consistent inputs this out :
  run sqrtf options_ graph initial inputs no_outputs = Ok (this, out) ->
  pre_consistent this.
Proof.
  intro Hrun.
  apply (run_preserves (fun this0 _ _ => pre_consistent this0))
    with (consumed := []) (inputs := inputs) (this := initial)
         (out := no_outputs) (this' := this) (out' := out); trivial.
  - clear. intros this out consumed input this' out1 Hpre Hproc.
    apply Process_step in Hproc.
    destruct Hproc as (w & h & this1 & _ & _ & _ & _ & Hid & Hdet & _
                       & first & rest & _ & Hcase).
    destruct Hcase as [(-> & _) | (_ & Hscene)].
    + unfold pre_consistent in *. rewrite Hid, Hdet. exact Hpre.
    + apply ProcessScene_members in Hscene. tauto.
  - left. split; reflexivity.
Qed.

Lemma Transmit_one last_shot is_speaker_change timestamp :
  output_shot_boundary_only_on_change options_ = false ->
  exists emitted,
    Transmit options_ last_shot is_speaker_change timestamp
    = [(emitted, timestamp)].
Proof.
  intro Hflag. unfold Transmit. rewrite Hflag.
  destruct (ltb (diff_seconds timestamp last_shot) (min_shot_span options_)),
           is_speaker_change; simpl; eauto.
Qed.

(** X7: when the shot signal is enabled and [false] packets are not
    suppressed, a window evaluation that starts from a consistent
    record of the previous dominant speaker adds exactly one
    IS_SPEAKER_CHANGE packet, at the first buffered timestamp. *)
Theorem one_shot_packet_per_window this this' out :
  pre_consistent this ->
  has_output_shot graph && output_shot_boundary options_ = true ->
  output_shot_boundary_only_on_change options_ = false ->
  ProcessScene sqrtf options_ graph this = Ok (this', out) ->
  exists first rest emitted,
    signal_buff_ this = first :: rest
    /\ shot_packets out = [(emitted, timestamp first)].
Proof.
  intros Hpre Henabled Hflag Hrun.
  apply ProcessScene_Ok in Hrun.
  destruct Hrun as (this1 & scene & Hframes & _ & _ & Hcase).
  pose proof (process_frames_session _ _ _ _ _ Hframes)
    as (E1 & E2 & E3 & _ & _ & E6).
  cbv zeta in Hcase. rewrite Henabled in Hcase.
  assert (Hfirst : forall first,
            vec_get (signal_buff_ this) 0%Z = Ok first ->
            exists rest, signal_buff_ this = first :: rest).
  { intros first Hget. apply vec_get_Ok in Hget. destruct Hget as [_ Hget].
    simpl in Hget. destruct (signal_buff_ this); [discriminate | ].
    injection Hget as ->. eauto. }
  destruct (find_dominate_speaker (num_of_active_speaker scene) =? -1)%Z.
  - destruct Hcase as (_ & _ & _ & first & Hget & Hshot).
    destruct (Hfirst first Hget) as (rest & Hbuff).
    destruct (Transmit_one (last_shot_timestamp_ this) false (timestamp first)
                Hflag) as (emitted & Hone).
    exists first, rest, emitted. rewrite Hshot, Hone. auto.
  - destruct Hcase as (detection & kept & _ & Hshot & _).
    unfold shot_boundary in Hshot.
    apply bind_Ok in Hshot. destruct Hshot as (candidate & Hcand & Hshot).
    assert (Hsome : exists decision, candidate = Some decision).
    { unfold shot_candidate in Hcand. rewrite Henabled, E1, E2 in Hcand.
      destruct Hpre as [[Hid _] | (Hid & box & Hbox)].
      - rewrite Hid in Hcand. simpl in Hcand. injection Hcand as <-. eauto.
      - rewrite Hbox in Hcand.
        destruct (Z.eqb_spec (pre_dominate_speaker_id_ this) (-1));
          [contradiction | ].
        apply bind_Ok in Hcand. destruct Hcand as (previous & _ & Hcand).
        apply bind_Ok in Hcand. destruct Hcand as (current & _ & Hcand).
        injection Hcand as <-. eauto. }
    destruct Hsome as (decision & ->).
    apply bind_Ok in Hshot. destruct Hshot as (first & Hget & Hshot).
    rewrite E6 in Hget. destruct (Hfirst first Hget) as (rest & Hbuff).
    injection Hshot as Hpackets _.
    destruct (Transmit_one (last_shot_timestamp_ this1) decision
                (timestamp first) Hflag) as (emitted & Hone).
    exists first, rest, emitted. rewrite <- Hpackets, Hone. auto.
Qed.

(** X8: when the IS_SPEAKER_CHANGE stream is not connected or
    [output_shot_boundary] is off, no shot packet is ever emitted and
    the last-shot timestamp stays at its initial value 0. *)
Theorem no_shot_packet_when_disabled inputs this out :
  has_output_shot graph && output_shot_boundary options_ = false ->
  run sqrtf options_ graph initial inputs no_outputs = Ok (this, out) ->
  shot_packets out = []
  /\ last_shot_timestamp_ this = 0%Z
  /\ forall this' out',
       Close sqrtf options_ graph this = Ok (this', out') ->
       shot_packets (append_outputs out out') = [].
Proof.
  intros Hoff Hrun.
  assert (Hscene : forall this0 this0' out0,
            ProcessScene sqrtf options_ graph this0 = Ok (this0', out0) ->
            shot_packets out0 = []
            /\ last_shot_timestamp_ this0' = last_shot_timestamp_ this0).
  { intros this0 this0' out0 H0. apply ProcessScene_Ok in H0.
    destruct H0 as (this1 & scene & Hframes & _ & _ & Hcase).
    pose proof (process_frames_session _ _ _ _ _ Hframes)
      as (_ & _ & E3 & _).
    cbv zeta in Hcase. rewrite Hoff in Hcase.
    destruct (find_dominate_speaker (num_of_active_speaker scene) =? -1)%Z.
    - tauto.
    - destruct Hcase as (detection & kept & _ & Hshot & _).
      unfold shot_boundary, shot_candidate in Hshot. rewrite Hoff in Hshot.
      simpl in Hshot. injection Hshot as <- <-. auto. }
  assert (Hinv : shot_packets out = [] /\ last_shot_timestamp_ this = 0%Z).
  { apply (run_preserves
             (fun this0 out0 _ =>
                shot_packets out0 = [] /\ last_shot_timestamp_ this0 = 0%Z))
      with (consumed := []) (inputs := inputs) (this := initial)
           (out := no_outputs) (this' := this) (out' := out); auto.
    intros this0 out0 consumed input this0' out1 [Hp Hl] Hproc.
    apply Process_step in Hproc.
    destruct Hproc as (w & h & this1 & _ & _ & _ & _ & _ & _ & Hlast
                       & first & rest & _ & Hcase).
    simpl. rewrite Hp. simpl.
    destruct Hcase as [(-> & -> & _) | (_ & Hs)]; [split; [auto | congruence] | ].
    destruct (Hscene _ _ _ Hs) as [-> ->]. split; [auto | congruence]. }
  destruct Hinv as [Hp Hl]. repeat split; trivial.
  intros this' out' Hclose. simpl. rewrite Hp. simpl.
  apply Close_step in Hclose.
  destruct Hclose as [[_ ->] | (_ & this1 & Hs)]; [reflexivity | ].
  destruct (Hscene _ _ _ Hs) as [-> _]. reflexivity.
Qed.

(** X9: when no input timestamp is negative, no [true] shot signal is
    emitted for a timestamp less than [min_shot_span] seconds after
    time 0: the stream start counts as the last shot boundary. *)
Theorem no_change_signal_before_min_shot_span inputs this out :
  (forall input, In input inputs -> (0 <= input_timestamp input)%Z) ->
  run sqrtf options_ graph initial inputs no_outputs = Ok (this, out) ->
  (forall t, In (true, t) (shot_packets out) ->
     ltb (diff_seconds t 0) (min_shot_span options_) = false)
  /\ forall this' out',
       Close sqrtf options_ graph this = Ok (this', out') ->
       forall t, In (true, t) (shot_packets (append_outputs out out')) ->
         ltb (diff_seconds t 0) (min_shot_span options_) = false.
Proof.
  intros Hpositive Hrun.
  set (late := fun packets : list (bool * Z) =>
         forall t, In (true, t) packets ->
           ltb (diff_seconds t 0) (min_shot_span options_) = false).
  set (started := fun this0 : LipTrackCalculator =>
         (0 <= last_shot_timestamp_ this0)%Z
         /\ forall signal, In signal (signal_buff_ this0) ->
              (0 <= timestamp signal)%Z).
  assert (Hscene : forall this0 packets this0' out0,
            started this0 -> late packets ->
            ProcessScene sqrtf options_ graph this0 = Ok (this0', out0) ->
            started this0' /\ late (packets ++ shot_packets out0)).
  { intros this0 packets this0' out0 [Hlast Hbuff] Hlate Hs.
    apply ProcessScene_shot in Hs. destruct Hs as (Hempty & Hcase).
    unfold started. rewrite Hempty.
    destruct Hcase as [[-> ->] | (first & rest & change & Hfirst & -> & ->)].
    - rewrite app_nil_r. repeat split; trivial. intros signal [].
    - assert (Hts : (0 <= timestamp first)%Z).
      { apply Hbuff. rewrite Hfirst. left. reflexivity. }
      split; [split | ].
      + destruct change; trivial.
      + intros signal [].
      + intros t Hin. apply in_app_or in Hin. destruct Hin as [Hin | Hin].
        * exact (Hlate t Hin).
        * apply Transmit_true in Hin. destruct Hin as (-> & _ & Hfar).
          exact (diff_seconds_later _ _ _ _ Hlast Hfar). }
  assert (Hinv : started this /\ late (shot_packets out)).
  { apply (run_preserves
             (fun this0 out0 consumed =>
                (forall input, In input consumed ->
                   (0 <= input_timestamp input)%Z) ->
                started this0 /\ late (shot_packets out0)))
      with (consumed := []) (inputs := inputs) (this := initial)
           (out := no_outputs) (this' := this) (out' := out); trivial.
    - clear Hrun Hpositive this out.
      intros this out consumed input this' out1 Hinv Hproc Hpositive.
      destruct Hinv as [[Hlast Hbuff] Hlate].
      { intros i Hi. apply Hpositive. apply in_or_app. left. exact Hi. }
      assert (Hinput : (0 <= input_timestamp input)%Z).
      { apply Hpositive. apply in_or_app. right. left. reflexivity. }
      apply Process_step in Hproc.
      destruct Hproc as (w & h & this1 & _ & Hbuff1 & _ & _ & _ & _ & Hlast1
                         & first & rest & _ & Hcase).
      assert (Hstarted : started this1).
      { split; [rewrite Hlast1; exact Hlast | ].
        intros signal Hin. rewrite Hbuff1 in Hin.
        apply in_app_or in Hin. destruct Hin as [Hin | [<- | []]].
        - exact (Hbuff signal Hin).
        - unfold signal_of.
          destruct (input_landmarks input), (input_detections input);
            exact Hinput. }
      destruct Hcase as [(-> & -> & _) | (_ & Hs)].
      + simpl. rewrite app_nil_r. split; trivial.
      + exact (Hscene _ _ _ _ Hstarted Hlate Hs).
    - intros _. split; [split; [simpl; lia | intros signal []] | ].
      intros t []. }
  destruct Hinv as [Hstarted Hlate]. split; [exact Hlate | ].
  intros this' out' Hclose. simpl.
  apply Close_step in Hclose.
  destruct Hclose as [[_ ->] | (_ & this1 & Hs)].
  - simpl. rewrite app_nil_r. exact Hlate.
  - exact (proj2 (Hscene _ _ _ _ Hstarted Hlate Hs)).
Qed.

Lemma run_total_between inputs :
  forall this out,
    between_windows this ->
    Forall (fun input => input_aligned input = true) inputs ->
    exists this' out',
      run sqrtf options_ graph this inputs out = Ok (this', out')
      /\ between_windows this'.
Proof.
  induction inputs as [| input inputs IH]; intros this out Hthis Hall; simpl.
  - eauto.
  - apply Forall_cons_iff in Hall. destruct Hall as [Hinput Hall].
    destruct (Process_total sqrtf options_ graph this input Hthis Hinput)
      as (this1 & out1 & -> & Hthis1).
    simpl. apply IH; trivial.
Qed.

Lemma Close_total this :
  between_windows this ->
  exists this' out, Close sqrtf options_ graph this = Ok (this', out).
Proof.
  intros (Hbbox & Hids & Haligned). unfold Close.
  destruct (signal_buff_ this) as [| first rest] eqn:Hbuff.
  - simpl. eauto.
  - assert (Hready : window_ready this).
    { repeat split; trivial; rewrite Hbuff; [discriminate | exact Haligned]. }
    destruct (ProcessScene_total sqrtf options_ graph this Hready)
      as (this' & out & ->).
    simpl. eauto.
Qed.

(** X10: a run never indexes out of range and never fails when every
    input has a video frame and, where it has both landmarks and
    detections, every landmark list is a full face mesh and there are
    at least as many landmark lists as detections; [Close] then
    returns as well. *)
Theorem aligned_inputs_never_undefined inputs :
  Forall (fun input => input_aligned input = true) inputs ->
  exists this out,
    run sqrtf options_ graph initial inputs no_outputs = Ok (this, out)
    /\ exists this' out', Close sqrtf options_ graph this = Ok (this', out').
Proof.
  intro Hall.
  destruct (run_total_between inputs initial no_outputs) as
    (this & out & Hrun & Hbetween); trivial.
  - repeat split. constructor.
  - exists this, out. split; [exact Hrun | ].
    exact (Close_total this Hbetween).
Qed.

Lemma for_each_app {A S : Type} (body : S -> Z -> A -> outcome S)
    (l1 l2 : list A) :
  forall i s,
    for_each body (l1 ++ l2) i s
    = bind (for_each body l1 i s)
           (for_each body l2 (i + Z.of_nat (length l1))%Z).
Proof.
  induction l1 as [| a l1 IH]; intros i s; simpl.
  - rewrite Z.add_0_r. reflexivity.
  - destruct (body s i a) as [s' | |]; simpl; trivial.
    rewrite IH. replace (i + 1 + Z.of_nat (length l1))%Z
      with (i + Z.pos (Pos.of_succ_nat (length l1)))%Z by lia.
    reflexivity.
Qed.

(** The history stored for a face is at most one longer than the
    longest history of the frame before. *)
Lemma history_of_face_length this bbox value n :
  (forall k history,
      StdMap.find k (face_statistics_ this) = Some history ->
      (length history <= n)%nat) ->
  (length (history_of_face options_ this bbox value) <= S n)%nat.
Proof.
  intro Hbound.
  destruct (history_of_face_shape options_ this bbox value)
    as [[_ ->] | (_ & -> & _)]; [simpl; lia | ].
  rewrite length_skipn, length_app. simpl.
  unfold StdMap.at_default.
  destruct (StdMap.find (MatchFace options_ (face_bbox_ this) bbox)
              (face_statistics_ this)) as [history |] eqn:Hfind.
  - specialize (Hbound _ _ Hfind). lia.
  - cbn [length]. lia.
Qed.

(** While no history can exceed half of [variance_history], the face
    loop finds no speaker. *)
Lemma face_loop_quiet (buff_size : nat) (buff_position : Z)
    (statistics : list float) (this : LipTrackCalculator)
    (dets : list Detection) scene this1 scene1 frame1 n :
  (forall k history,
      StdMap.find k (face_statistics_ this) = Some history ->
      (length history <= n)%nat) ->
  (S n <= variance_history options_ / 2)%nat ->
  for_each (face_step options_ buff_size buff_position statistics) dets 0%Z
    (this, scene, mkFrame StdMap.empty [] (-1)%Z) = Ok (this1, scene1, frame1) ->
  cur_speaker_id frame1 = (-1)%Z
  /\ num_of_active_speaker scene1 = num_of_active_speaker scene.
Proof.
  intros Hbound Hfew Hrun.
  apply (for_each_prefix
           (face_step options_ buff_size buff_position statistics)
           (fun visited (s : LipTrackCalculator * SceneLocals * FrameLocals) =>
              for_each (face_step options_ buff_size buff_position statistics)
                visited 0%Z (this, scene, mkFrame StdMap.empty [] (-1)%Z)
              = Ok s
              /\ cur_speaker_id (snd s) = (-1)%Z
              /\ num_of_active_speaker (snd (fst s))
                 = num_of_active_speaker scene))
    with (visited := []) (v := dets)
         (s := (this, scene, mkFrame StdMap.empty [] (-1)%Z))
         (s' := (this1, scene1, frame1)) in Hrun; [tauto | | auto].
  clear Hrun this1 scene1 frame1.
  intros visited bbox [[thisi scenei] framei] [[thisj scenej] framej]
         (Hprefix & Hquiet & Hhits) Hstep. simpl in Hquiet, Hhits.
  split; [ | simpl].
  - rewrite for_each_app, Hprefix. cbn [bind for_each].
    rewrite Z.add_0_l, Hstep. reflexivity.
  - pose proof (face_loop_histories options_ _ _ _ _ _ _ _ _ _ Hprefix)
      as (Hsame & Hout & _).
    apply face_step_Ok in Hstep.
    destruct Hstep as (value & m & _ & Hstats & _ & _ & Hhits' & Hspeak & _).
    split; [ | congruence].
    set (i := Z.of_nat (length visited)) in *.
    assert (Hexisting : StdMap.at_default i []
                          (StdMap.insert i [] (cur_face_statistics framei)) = []).
    { unfold StdMap.at_default.
      rewrite StdMapFacts.find_insert_fresh; [reflexivity | ].
      apply Hout. unfold i. lia. }
    rewrite Hexisting in Hstats.
    destruct Hsame as (Hbbox & Hfs & _).
    rewrite Hbbox, Hfs in Hstats.
    assert (Hhistory :
              StdMap.at_default i [] (cur_face_statistics framej)
              = history_of_face options_ this bbox value).
    { unfold StdMap.at_default. rewrite Hstats, StdMapFacts.find_set_same.
      reflexivity. }
    rewrite Hhistory in Hspeak.
    pose proof (history_of_face_length this bbox value n Hbound) as Hlen.
    unfold IsActiveSpeaker in Hspeak.
    destruct (Nat.leb_spec
                (length (history_of_face options_ this bbox value))
                (variance_history options_ / 2)) as [_ | Hlong]; [ | lia].
    destruct Hspeak as [_ ->]. exact Hquiet.
Qed.

Lemma frame_step_quiet (buff_size : nat) this scene buff_position signal
    this' scene' n :
  (forall k history,
      StdMap.find k (face_statistics_ this) = Some history ->
      (length history <= n)%nat) ->
  (S n <= variance_history options_ / 2)%nat ->
  frame_skipped signal = false ->
  frame_step sqrtf options_ buff_size (this, scene) buff_position signal
  = Ok (this', scene') ->
  (forall k history,
      StdMap.find k (face_statistics_ this') = Some history ->
      (length history <= S n)%nat)
  /\ num_of_active_speaker scene' = num_of_active_speaker scene.
Proof.
  intros Hbound Hfew Hskip Hstep. apply frame_step_Ok in Hstep.
  rewrite Hskip in Hstep.
  destruct Hstep as (this1 & scene1 & frame & Hloop & Hcount & ->).
  destruct (face_loop_quiet _ _ _ _ _ _ _ _ _ n Hbound Hfew Hloop)
    as [Hquiet Hhits].
  apply face_loop_histories in Hloop. destruct Hloop as (_ & Hout & Hin).
  split.
  - intros k history Hfind. simpl in Hfind.
    destruct (Z_lt_dec k 0) as [Hneg | Hpos];
      [rewrite Hout in Hfind by lia; discriminate | ].
    destruct (Z_lt_dec k (Z.of_nat (length (detections signal))))
      as [Hlt | Hge];
      [ | rewrite Hout in Hfind by lia; discriminate].
    destruct (Hin k) as (bbox & value & _ & _ & Hfind'); [lia | ].
    rewrite Hfind in Hfind'. injection Hfind' as ->.
    apply history_of_face_length. exact Hbound.
  - unfold count_speaker in Hcount. rewrite Hquiet in Hcount.
    simpl in Hcount. injection Hcount as <-. exact Hhits.
Qed.

Lemma processed_frames_app (visited : list LipSignal) (signal : LipSignal) :
  processed_frames (visited ++ [signal])
  = (processed_frames visited
     + if frame_skipped signal then 0 else 1)%nat.
Proof.
  unfold processed_frames. rewrite filter_app, length_app. simpl.
  destruct (frame_skipped signal); reflexivity.
Qed.

(** X11: a window that starts without stored histories and has at most
    [variance_history / 2] frames with faces has no dominant speaker:
    every DETECTIONS_SPEAKERS packet of the window is empty. *)
Theorem few_frames_no_dominant_speaker this this' out :
  face_statistics_ this = [] ->
  (processed_frames (signal_buff_ this) <= variance_history options_ / 2)%nat ->
  ProcessScene sqrtf options_ graph this = Ok (this', out) ->
  pre_dominate_speaker_id_ this' = (-1)%Z
  /\ pre_dominate_speaker_detection_ this' = []
  /\ roi_packets out
     = map (fun signal => ([], timestamp signal)) (signal_buff_ this).
Proof.
  intros Hfresh Hfew Hrun. apply ProcessScene_Ok in Hrun.
  destruct Hrun as (this1 & scene & Hframes & Hid & _ & Hcase).
  assert (Hhits : num_of_active_speaker scene = []).
  { unfold process_frames in Hframes.
    apply (for_each_prefix
             (frame_step sqrtf options_ (length (signal_buff_ this)))
             (fun visited (s : LipTrackCalculator * SceneLocals) =>
                (processed_frames visited <= variance_history options_ / 2)%nat
                -> (forall k history,
                      StdMap.find k (face_statistics_ (fst s)) = Some history ->
                      (length history <= processed_frames visited)%nat)
                   /\ num_of_active_speaker (snd s) = []))
      with (visited := []) (v := signal_buff_ this)
           (s := (this, mkScene StdMap.empty 0%Z StdMap.empty))
           (s' := (this1, scene)) in Hframes.
    - simpl in Hframes. tauto.
    - clear. intros visited signal [thisi scenei] [thisj scenej] Hinv Hstep.
      cbn [fst snd] in *. rewrite processed_frames_app. intro Hfew.
      destruct (frame_skipped signal) eqn:Hskip.
      + apply frame_step_Ok in Hstep. rewrite Hskip in Hstep.
        destruct Hstep as [-> ->]. rewrite Nat.add_0_r in *. auto.
      + destruct Hinv as [Hbound Hhits]; [lia | ].
        assert (Hroom : (S (processed_frames visited)
                         <= variance_history options_ / 2)%nat) by lia.
        destruct (frame_step_quiet _ _ _ _ _ _ _ _ Hbound Hroom Hskip Hstep)
          as [Hbound' Hhits'].
        rewrite Nat.add_1_r. split; [exact Hbound' | congruence].
    - simpl. intros _. rewrite Hfresh. split; [ | reflexivity].
      intros k history Hfind. discriminate.
    - exact Hfew. }
  cbv zeta in Hid, Hcase. rewrite Hhits in Hid, Hcase. simpl in Hid, Hcase.
  tauto.
Qed.

End Runs.

(** *** Concrete runs *)

Lemma buffer_within_span_witness :
  exists this out,
    run sqrt_exact span_options example_graph initial span_inputs no_outputs
    = Ok (this, out)
    /\ map timestamp (signal_buff_ this) = [3; 4]%Z
    /\ within_span span_options (signal_buff_ this).
Proof.
  eexists. eexists. split; [vm_compute; reflexivity | ].
  split; [vm_compute; reflexivity | ].
  refine (buffer_within_span sqrt_exact span_options example_graph
            span_inputs _ _ _).
  vm_compute. reflexivity.
Defined.

Lemma one_detection_packet_per_input_witness :
  exists this out,
    run sqrt_exact span_options example_graph initial span_inputs no_outputs
    = Ok (this, out)
    /\ map snd (roi_packets out) = [0; 1; 2]%Z
    /\ map snd (roi_packets out) ++ map timestamp (signal_buff_ this)
       = map input_timestamp span_inputs.
Proof.
  eexists. eexists. split; [vm_compute; reflexivity | ].
  split; [vm_compute; reflexivity | ].
  refine (proj1 (one_detection_packet_per_input sqrt_exact span_options
                   example_graph span_inputs _ _ _)).
  vm_compute. reflexivity.
Defined.

Lemma frame_size_fixed_by_first_frame_witness :
  exists this out,
    run sqrt_exact example_options example_graph initial
      [small_frame; large_frame] no_outputs = Ok (this, out)
    /\ frame_width_ this = 1%Z /\ frame_height_ this = 1%Z.
Proof.
  eexists. eexists. split; [vm_compute; reflexivity | ].
  refine (frame_size_fixed_by_first_frame sqrt_exact example_options
            example_graph small_frame [large_frame] 1%Z 1%Z _ _ _ _ _).
  - reflexivity.
  - lia.
  - vm_compute. reflexivity.
Defined.

Lemma previous_dominant_consistent_witness :
  exists this out,
    run sqrt_exact example_options example_graph initial debounce_inputs
      no_outputs = Ok (this, out)
    /\ pre_consistent this.
Proof.
  eexists. eexists. split; [vm_compute; reflexivity | ].
  refine (previous_dominant_consistent sqrt_exact example_options
            example_graph debounce_inputs _ _ _).
  vm_compute. reflexivity.
Defined.

Lemma one_shot_packet_per_window_witness :
  exists this' out,
    ProcessScene sqrt_exact example_options example_graph
      (ready two_frame_window) = Ok (this', out)
    /\ exists first rest emitted,
         signal_buff_ (ready two_frame_window) = first :: rest
         /\ shot_packets out = [(emitted, timestamp first)].
Proof.
  eexists. eexists. split; [vm_compute; reflexivity | ].
  refine (one_shot_packet_per_window sqrt_exact example_options example_graph
            (ready two_frame_window) _ _ _ _ _ _).
  - left. split; reflexivity.
  - reflexivity.
  - reflexivity.
  - vm_compute. reflexivity.
Defined.

Lemma no_shot_packet_when_disabled_witness :
  exists this out,
    run sqrt_exact example_options silent_graph initial debounce_inputs
      no_outputs = Ok (this, out)
    /\ shot_packets out = []
    /\ last_shot_timestamp_ this = 0%Z.
Proof.
  eexists. eexists. split; [vm_compute; reflexivity | ].
  edestruct (no_shot_packet_when_disabled sqrt_exact example_options
               silent_graph debounce_inputs) as (Hnone & Hlast & _).
  - reflexivity.
  - vm_compute. reflexivity.
  - split; [exact Hnone | exact Hlast].
Defined.

Lemma no_change_signal_before_min_shot_span_witness :
  exists this out,
    run sqrt_exact example_options example_graph initial debounce_inputs
      no_outputs = Ok (this, out)
    /\ forall t, In (true, t) (shot_packets out) ->
         ltb (diff_seconds t 0) (min_shot_span example_options) = false.
Proof.
  eexists. eexists. split; [vm_compute; reflexivity | ].
  refine (proj1 (no_change_signal_before_min_shot_span sqrt_exact
                   example_options example_graph debounce_inputs _ _ _ _)).
  - intros input Hin. unfold debounce_inputs in Hin. cbn [In] in Hin.
    repeat (destruct Hin as [<- | Hin]; [simpl; lia | ]). destruct Hin.
  - vm_compute. reflexivity.
Defined.

Lemma aligned_inputs_never_undefined_witness :
  Forall (fun input => input_aligned input = true) debounce_inputs
  /\ exists this out,
       run sqrt_exact example_options example_graph initial debounce_inputs
         no_outputs = Ok (this, out)
       /\ exists this' out',
            Close sqrt_exact example_options example_graph this
            = Ok (this', out').
Proof.
  assert (Hall : Forall (fun input => input_aligned input = true)
                   debounce_inputs).
  { unfold debounce_inputs.
    repeat (constructor; [vm_compute; reflexivity | ]). constructor. }
  split; [exact Hall | ].
  exact (aligned_inputs_never_undefined sqrt_exact example_options
           example_graph debounce_inputs Hall).
Defined.

Lemma few_frames_no_dominant_speaker_witness :
  exists this' out,
    ProcessScene sqrt_exact long_history_options example_graph
      (ready two_frame_window) = Ok (this', out)
    /\ pre_dominate_speaker_id_ this' = (-1)%Z
    /\ pre_dominate_speaker_detection_ this' = []
    /\ roi_packets out
       = map (fun signal => ([], timestamp signal))
             (signal_buff_ (ready two_frame_window)).
Proof.
  eexists. eexists. split; [vm_compute; reflexivity | ].
  refine (few_frames_no_dominant_speaker sqrt_exact long_history_options
            example_graph (ready two_frame_window) _ _ _ _ _).
  - reflexivity.
  - apply Nat.leb_le. vm_compute. reflexivity.
  - vm_compute. reflexivity.
Defined.

(* ================================================================= *)
(** ** What the lip statistic extractor appends *)

Section StatisticsOrder.

Variable sqrtf : float -> float.
Variables frame_width frame_height : Z.

Lemma GetStatistics_loop_appends (landmark_lists : list NormalizedLandmarkList) :
  forall mouth_width mouth_height lip_statistics,
    exists new,
      GetStatistics_loop sqrtf frame_width frame_height landmark_lists
        mouth_width mouth_height lip_statistics
      = lip_statistics ++ new
      /\ length new = length (full_faces landmark_lists).
Proof.
  induction landmark_lists as [| l rest IH]; intros mw mh stats; simpl.
  - exists []. rewrite app_nil_r. auto.
  - unfold full_face.
    destruct (Z.of_nat (length l) <? kFaceMeshLandmarks)%Z; simpl.
    + apply IH.
    + match goal with
      | |- context [GetStatistics_loop _ _ _ rest ?w ?h (stats ++ [?v])] =>
          destruct (IH w h (stats ++ [v])) as (new & -> & Hlen);
          exists (v :: new)
      end.
      rewrite <- app_assoc. simpl. auto.
Qed.

(** X15: [GetStatistics] keeps what the output vector holds and
    appends one statistic for every landmark list of at least 468
    landmarks; shorter lists add nothing. *)
Theorem GetStatistics_appends_per_full_face
    (landmark_lists : list NormalizedLandmarkList)
    (lip_statistics : list float) :
  exists new,
    GetStatistics sqrtf frame_width frame_height landmark_lists lip_statistics
    = lip_statistics ++ new
    /\ length new = length (full_faces landmark_lists).
Proof. apply GetStatistics_loop_appends. Qed.

(** X16: the first statistic of a frame is the mouth aspect ratio of
    the first landmark list that is not skipped, however many short
    lists come before it. *)
Theorem first_full_face_statistic
    (landmark_lists : list NormalizedLandmarkList)
    (l : NormalizedLandmarkList) (rest : list NormalizedLandmarkList) :
  full_faces landmark_lists = l :: rest ->
  exists others,
    GetStatistics sqrtf frame_width frame_height landmark_lists []
    = mouth_aspect_ratio sqrtf frame_width frame_height l :: others
    /\ length others = length rest.
Proof.
  unfold GetStatistics.
  induction landmark_lists as [| l0 lists IH]; simpl; [discriminate | ].
  unfold full_face at 1.
  destruct (Z.of_nat (length l0) <? kFaceMeshLandmarks)%Z; simpl.
  - exact IH.
  - intro Hfull. injection Hfull as -> <-.
    match goal with
    | |- context [GetStatistics_loop _ _ _ lists ?w ?h [?v]] =>
        destruct (GetStatistics_loop_appends lists w h [v])
          as (new & -> & Hlen)
    end.
    exists new. split; [reflexivity | exact Hlen].
Qed.

End StatisticsOrder.

Lemma first_full_face_statistic_witness :
  exists others,
    GetStatistics sqrt_exact 1 1 [short_face; face 2 1; face 2 1] []
    = mouth_aspect_ratio sqrt_exact 1 1 (face 2 1) :: others
    /\ length others = 1%nat.
Proof.
  apply (first_full_face_statistic sqrt_exact 1 1
           [short_face; face 2 1; face 2 1] (face 2 1) [face 2 1]).
  vm_compute. reflexivity.
Defined.

(* ================================================================= *)
(** ** Meta-face ids within a window *)

Section Tracking.

Variable sqrtf : float -> float.
Variable options_ : LipTrackCalculatorOptions.

Lemma unmatched_app this (visited : list Detection) (bbox : Detection) :
  unmatched options_ this (visited ++ [bbox])
  = (unmatched options_ this visited
     + if (MatchFace options_ (face_bbox_ this) bbox =? -1)%Z
       then 1 else 0)%nat.
Proof.
  unfold unmatched. rewrite filter_app, length_app. simpl.
  destruct (MatchFace options_ (face_bbox_ this) bbox =? -1)%Z; reflexivity.
Qed.

Lemma face_loop_meta_ids (buff_size : nat) (buff_position : Z)
    (statistics : list float) (this : LipTrackCalculator)
    (dets : list Detection) scene this1 scene1 frame1 :
  for_each (face_step options_ buff_size buff_position statistics) dets 0%Z
    (this, scene, mkFrame StdMap.empty [] (-1)%Z) = Ok (this1, scene1, frame1) ->
  meta_face_count scene1
  = (meta_face_count scene + Z.of_nat (unmatched options_ this dets))%Z
  /\ length (cur_meta_face_indices frame1) = length dets
  /\ forall k bbox,
       nth_error dets k = Some bbox ->
       exists m,
         nth_error (cur_meta_face_indices frame1) k = Some m
         /\ meta_id_of options_ this scene (firstn k dets) bbox m.
Proof.
  intro Hrun.
  apply (for_each_prefix
           (face_step options_ buff_size buff_position statistics)
           (fun visited (s : LipTrackCalculator * SceneLocals * FrameLocals) =>
              (face_bbox_ (fst (fst s)) = face_bbox_ this
               /\ meta_face_indices_ (fst (fst s)) = meta_face_indices_ this)
              /\ meta_face_count (snd (fst s))
                 = (meta_face_count scene
                    + Z.of_nat (unmatched options_ this visited))%Z
              /\ length (cur_meta_face_indices (snd s)) = length visited
              /\ forall k bbox,
                   nth_error visited k = Some bbox ->
                   exists m,
                     nth_error (cur_meta_face_indices (snd s)) k = Some m
                     /\ meta_id_of options_ this scene (firstn k visited)
                          bbox m))
    with (visited := []) (v := dets)
         (s := (this, scene, mkFrame StdMap.empty [] (-1)%Z))
         (s' := (this1, scene1, frame1)) in Hrun.
  - simpl in Hrun. tauto.
  - clear Hrun this1 scene1 frame1.
    intros visited bbox [[thisi scenei] framei] [[thisj scenej] framej]
           ([Hbbox Hids] & Hcount & Hlen & Hpoint) Hstep.
    cbn [fst snd] in *.
    apply face_step_Ok in Hstep. cbv zeta in Hstep.
    destruct Hstep as (value & m & _ & _ & Hindices & Hid & _ & _
                       & Hbbox' & _ & Hids' & _).
    rewrite Hbbox, Hids in Hid.
    split; [split; congruence | ].
    split; [ | split].
    + rewrite unmatched_app.
      destruct (MatchFace options_ (face_bbox_ this) bbox =? -1)%Z;
        destruct Hid as [_ ->]; lia.
    + rewrite Hindices, !length_app. simpl. lia.
    + intros k b Hk. rewrite Hindices.
      destruct (nth_error_app_cases _ _ _ _ Hk) as [[Hlt Hb] | [Hge Hb]].
      * destruct (Hpoint k b Hb) as (m' & Hm' & Hmeta).
        exists m'. split.
        -- rewrite nth_error_app1 by lia. exact Hm'.
        -- rewrite firstn_app.
           replace (k - length visited)%nat with 0%nat by lia.
           simpl. rewrite app_nil_r. exact Hmeta.
      * assert (Hlast : k = length visited).
        { assert (Hin : (k - length visited < length [bbox])%nat)
            by (apply nth_error_Some; congruence).
          simpl in Hin. lia. }
        subst k. rewrite Nat.sub_diag in Hb. injection Hb as <-.
        exists m. split.
        -- rewrite nth_error_app2 by lia.
           rewrite Hlen, Nat.sub_diag. reflexivity.
        -- rewrite firstn_app, firstn_all, Nat.sub_diag. simpl.
           rewrite app_nil_r. unfold meta_id_of.
           destruct (MatchFace options_ (face_bbox_ this) bbox =? -1)%Z.
           ++ destruct Hid as [-> _]. exact Hcount.
           ++ tauto.
  - cbn [fst snd cur_meta_face_indices].
    split; [split; reflexivity | ].
    split; [unfold unmatched; simpl; lia | ].
    split; [reflexivity | ].
    intros [| k] bbox Hk; discriminate.
Qed.

(** X17: the frame update gives every face of the frame a meta-face
    id, in detection order: a face that [MatchFace] matches to a
    previous box takes over the id stored for that box, every other
    face gets the next unused id, and [meta_face_count] grows by the
    number of unmatched faces. The frame's boxes become the previous
    boxes of the next frame. *)
Theorem faces_keep_or_get_meta_ids (buff_size : nat) this scene buff_position
    signal this' scene' :
  frame_skipped signal = false ->
  frame_step sqrtf options_ buff_size (this, scene) buff_position signal
  = Ok (this', scene') ->
  face_bbox_ this' = detections signal
  /\ length (meta_face_indices_ this') = length (detections signal)
  /\ meta_face_count scene'
     = (meta_face_count scene
        + Z.of_nat (unmatched options_ this (detections signal)))%Z
  /\ forall k bbox,
       nth_error (detections signal) k = Some bbox ->
       exists m,
         nth_error (meta_face_indices_ this') k = Some m
         /\ meta_id_of options_ this scene (firstn k (detections signal))
              bbox m.
Proof.
  intros Hskip Hstep. apply frame_step_Ok in Hstep. rewrite Hskip in Hstep.
  destruct Hstep as (this1 & scene1 & frame & Hloop & Hcount & ->).
  apply face_loop_meta_ids in Hloop. destruct Hloop as (Hn & Hlen & Hpoint).
  cbn [face_bbox_ meta_face_indices_].
  split; [reflexivity | ]. split; [exact Hlen | ]. split; [ | exact Hpoint].
  rewrite <- Hn. unfold count_speaker in Hcount.
  destruct (negb (cur_speaker_id frame =? -1)%Z).
  - apply bind_Ok in Hcount. destruct Hcount as (meta_face & _ & Hcount).
    injection Hcount as <-. reflexivity.
  - injection Hcount as <-. reflexivity.
Qed.

End Tracking.

Lemma faces_keep_or_get_meta_ids_witness :
  exists this' scene',
    frame_step sqrt_exact example_options 2
      (after_first_frame, after_first_scene) 1%Z two_face_signal
    = Ok (this', scene')
    /\ meta_face_indices_ this' = [1; 0]%Z
    /\ meta_face_count scene'
       = (meta_face_count after_first_scene
          + Z.of_nat (unmatched example_options after_first_frame
                        (detections two_face_signal)))%Z.
Proof.
  eexists. eexists. split; [vm_compute; reflexivity | ].
  split; [vm_compute; reflexivity | ].
  edestruct (faces_keep_or_get_meta_ids sqrt_exact example_options 2
               after_first_frame after_first_scene 1%Z two_face_signal)
    as (_ & _ & Hcount & _).
  - reflexivity.
  - vm_compute. reflexivity.
  - exact Hcount.
Defined.

(* ================================================================= *)
(** ** Missing video frames and unchanged speakers *)

Section Edges.

Variable sqrtf : float -> float.
Variable options_ : LipTrackCalculatorOptions.
Variable graph : GraphConfig.

Lemma run_stops_at_error inputs :
  forall this out input rest,
    between_windows this ->
    Forall (fun input => input_aligned input = true) inputs ->
    video input = None ->
    run sqrtf options_ graph this (inputs ++ input :: rest) out = StatusError.
Proof.
  induction inputs as [| first inputs IH];
    intros this out input rest Hthis Hall Hvideo; simpl.
  - unfold Process. rewrite Hvideo. reflexivity.
  - apply Forall_cons_iff in Hall. destruct Hall as [Hfirst Hall].
    destruct (Process_total sqrtf options_ graph this first Hthis Hfirst)
      as (this1 & out1 & -> & Hthis1).
    simpl. apply IH; trivial.
Qed.

(** X18: an input without a video frame makes the run fail with an
    error status, and nothing after it is processed, whatever the
    input holds besides and whatever follows. *)
Theorem missing_video_is_an_error inputs input rest :
  Forall (fun input => input_aligned input = true) inputs ->
  video input = None ->
  run sqrtf options_ graph initial (inputs ++ input :: rest) no_outputs
  = StatusError.
Proof.
  intros Hall Hvideo. apply run_stops_at_error; trivial.
  repeat split. constructor.
Qed.

Lemma Transmit_no_change last_shot timestamp packet :
  In packet (Transmit options_ last_shot false timestamp) ->
  fst packet = false.
Proof.
  unfold Transmit.
  destruct (ltb (diff_seconds timestamp last_shot) (min_shot_span options_)),
           (negb (output_shot_boundary_only_on_change options_));
    simpl; intro Hin; try (destruct Hin as [<- | []]; reflexivity);
    destruct Hin.
Qed.

(** X19: when the window has a dominant speaker, the window before had
    one as well, and the IOU of the previous dominant box and the new
    dominant box of the closest frame is above [iou_threshold], no
    speaker change is signalled: no [true] packet is emitted and the
    last-shot timestamp is unchanged. *)
Theorem overlapping_speaker_is_no_change this this' out previous rest
    current rest' :
  ProcessScene sqrtf options_ graph this = Ok (this', out) ->
  pre_dominate_speaker_id_ this' <> (-1)%Z ->
  pre_dominate_speaker_id_ this <> (-1)%Z ->
  pre_dominate_speaker_detection_ this = previous :: rest ->
  dominate_detection_of sqrtf options_ this = Ok (current :: rest') ->
  gtb (GetIOU previous current) (iou_threshold options_) = true ->
  last_shot_timestamp_ this' = last_shot_timestamp_ this
  /\ forall packet, In packet (shot_packets out) -> fst packet = false.
Proof.
  intros Hrun Hdominant Hbefore Hpre Hdet Hiou.
  apply ProcessScene_Ok in Hrun.
  destruct Hrun as (this1 & scene & Hframes & Hid & _ & Hcase).
  cbv zeta in Hid, Hcase. rewrite <- Hid in Hcase.
  destruct (Z.eqb_spec (pre_dominate_speaker_id_ this') (-1));
    [contradiction | ].
  destruct Hcase as (detection & kept & Hclosest & Hshot & _).
  pose proof (process_frames_session _ _ _ _ _ Hframes)
    as (E1 & E2 & E3 & E4 & E5 & E6).
  unfold dominate_detection_of in Hdet. rewrite Hframes in Hdet.
  simpl in Hdet. rewrite E6, <- Hid, Hclosest in Hdet. injection Hdet as ->.
  unfold shot_boundary, shot_candidate in Hshot.
  rewrite E1, E2, E3, Hpre in Hshot.
  destruct (has_output_shot graph && output_shot_boundary options_).
  - destruct (Z.eqb_spec (pre_dominate_speaker_id_ this) (-1));
      [contradiction | ].
    simpl in Hshot. rewrite Hiou in Hshot. simpl in Hshot.
    apply bind_Ok in Hshot. destruct Hshot as (first & _ & Hshot).
    injection Hshot as <- <-. split; [reflexivity | ].
    intros packet Hin. exact (Transmit_no_change _ _ _ Hin).
  - simpl in Hshot. injection Hshot as <- <-. split; [reflexivity | ].
    intros packet [].
Qed.

End Edges.

Lemma missing_video_is_an_error_witness :
  run sqrt_exact example_options example_graph initial
    (debounce_inputs ++ blind_input :: debounce_inputs) no_outputs
  = StatusError.
Proof.
  apply (missing_video_is_an_error sqrt_exact example_options example_graph
           debounce_inputs blind_input debounce_inputs).
  - unfold debounce_inputs.
    repeat (constructor; [vm_compute; reflexivity | ]). constructor.
  - reflexivity.
Defined.

Lemma overlapping_speaker_is_no_change_witness :
  exists this' out,
    ProcessScene sqrt_exact example_options example_graph follow_up
    = Ok (this', out)
    /\ last_shot_timestamp_ this' = last_shot_timestamp_ follow_up
    /\ forall packet, In packet (shot_packets out) -> fst packet = false.
Proof.
  eexists. eexists. split; [vm_compute; reflexivity | ].
  refine (overlapping_speaker_is_no_change sqrt_exact example_options
            example_graph follow_up _ _ (box 0 0 1 1) [] (box 0 0 1 1) []
            _ _ _ _ _ _).
  - vm_compute. reflexivity.
  - vm_compute. discriminate.
  - vm_compute. discriminate.
  - reflexivity.
  - vm_compute. reflexivity.
  - vm_compute. reflexivity.
Defined.

(* ================================================================= *)
(** ** The ratchet across a run *)

Section RatchetRuns.

Variable sqrtf : float -> float.
Variable options_ : LipTrackCalculatorOptions.
Variable graph : GraphConfig.

Lemma ratchet_buffered this input : ratchet (buffered this input) = ratchet this.
Proof.
  unfold buffered. destruct (video input) as [[frame_w frame_h] |]; trivial.
  destruct (frame_width_ this <? 0)%Z; reflexivity.
Qed.

(** [Process] buffers the input and returns, or evaluates the window of
    the buffered frames. *)
Lemma Process_buffered this input this' out :
  Process sqrtf options_ graph this input = Ok (this', out) ->
  (this' = buffered this input /\ out = no_outputs)
  \/ ProcessScene sqrtf options_ graph (buffered this input) = Ok (this', out).
Proof.
  unfold Process, buffered, signal_of.
  destruct (video input) as [[frame_w frame_h] |]; [ | discriminate].
  destruct (frame_width_ this <? 0)%Z; cbv zeta;
    (destruct (signal_buff_ this ++ _) as [| first rest];
     [ intro H; injection H as <- <-; left; split; reflexivity | ];
     destruct (input_timestamp input - timestamp first
               >=? min_speaker_span options_)%Z;
     [ intro H; right; exact H
     | intro H; injection H as <- <-; left; split; reflexivity ]).
Qed.

Lemma ProcessScene_ratchet this this' out :
  ratchet this = (zero, zero) ->
  ProcessScene sqrtf options_ graph this = Ok (this', out) ->
  ratchet this' = (zero, zero).
Proof.
  unfold ProcessScene. intros Hzero Hrun.
  apply bind_Ok in Hrun. destruct Hrun as ([this1 scene] & Hframes & Hrun).
  pose proof (process_frames_ratchet _ _ _ _ _ Hzero Hframes) as Hzero1.
  destruct (find_dominate_speaker (num_of_active_speaker scene) =? -1)%Z.
  - apply bind_Ok in Hrun. destruct Hrun as (shot & _ & Hrun).
    injection Hrun as <- _. exact Hzero1.
  - apply bind_Ok in Hrun. destruct Hrun as (detection & _ & Hrun).
    apply bind_Ok in Hrun. destruct Hrun as ([shot last_shot] & _ & Hrun).
    apply bind_Ok in Hrun. destruct Hrun as ([roi final] & _ & Hrun).
    apply bind_Ok in Hrun. destruct Hrun as (kept & _ & Hrun).
    injection Hrun as <- _. exact Hzero1.
Qed.

(** Between two [Process] calls the ratchet is zero. *)
Lemma run_ratchet inputs this out :
  run sqrtf options_ graph initial inputs no_outputs = Ok (this, out) ->
  ratchet this = (zero, zero).
Proof.
  intro Hrun.
  apply (run_preserves sqrtf options_ graph
           (fun this0 _ _ => ratchet this0 = (zero, zero)))
    with (consumed := []) (inputs := inputs) (this := initial)
         (out := no_outputs) (this' := this) (out' := out); trivial.
  clear. intros this out consumed input this' out1 Hzero Hproc.
  apply Process_buffered in Hproc.
  destruct Hproc as [[-> _] | Hscene].
  - rewrite ratchet_buffered. exact Hzero.
  - apply (ProcessScene_ratchet (buffered this input) this' out1); trivial.
    rewrite ratchet_buffered. exact Hzero.
Qed.

(** From a zero ratchet every frame of the window starts at zero. *)
Lemma frames_start_at_zero_from start :
  ratchet start = (zero, zero) -> frames_start_at_zero sqrtf options_ start.
Proof.
  intros Hzero visited signal rest this_i scene_i _ Hloop.
  apply (for_each_invariant
           (frame_step sqrtf options_ (length (signal_buff_ start)))
           (fun s : LipTrackCalculator * SceneLocals =>
              ratchet (fst s) = (zero, zero)))
    with (s' := (this_i, scene_i)) in Hloop; trivial.
  intros a i [thisi scenei] [thisj scenej] Hi Hstep. simpl in *.
  rewrite (frame_step_ratchet _ _ _ _ _ _ _ _ _ Hstep).
  destruct (frame_skipped a); trivial.
Qed.

End RatchetRuns.

(** C3 (as amended): the ratchet is not kept across the buffered frames
    of a window. Every frame that is processed ends by setting it back
    to zero (a skipped frame leaves it alone). In every run from the
    opened calculator the ratchet is zero between the [Process] calls,
    and in the window that the next [Process] call or [Close]
    evaluates every buffered frame starts with a zero ratchet. Within
    one frame the ratchet changes only when a face is classified as
    speaking; it then takes that face's [mean_short] and [variance],
    one of which exceeds the incumbent's. *)
Theorem ratchet_reset_every_frame (sqrtf : float -> float)
    (options_ : LipTrackCalculatorOptions) (graph : GraphConfig) :
  (forall buff_size this scene buff_position signal this' scene',
      frame_step sqrtf options_ buff_size (this, scene) buff_position signal
      = Ok (this', scene') ->
      ratchet this'
      = if frame_skipped signal then ratchet this else (zero, zero))
  /\ (forall inputs this out,
        run sqrtf options_ graph initial inputs no_outputs = Ok (this, out) ->
        ratchet this = (zero, zero)
        /\ (forall input,
              frames_start_at_zero sqrtf options_ (buffered this input))
        /\ frames_start_at_zero sqrtf options_ this)
  /\ (forall this input this' out,
        Process sqrtf options_ graph this input = Ok (this', out) ->
        (this' = buffered this input /\ out = no_outputs)
        \/ ProcessScene sqrtf options_ graph (buffered this input)
           = Ok (this', out))
  /\ (forall buff_size buff_position statistics this scene frame
             cur_face_idx bbox this' scene' frame',
        face_step options_ buff_size buff_position statistics
          (this, scene, frame) cur_face_idx bbox = Ok (this', scene', frame') ->
        let history :=
          StdMap.at_default cur_face_idx [] (cur_face_statistics frame') in
        (ratchet this' = ratchet this
         /\ cur_speaker_id frame' = cur_speaker_id frame)
        \/ (cur_speaker_id frame' = cur_face_idx
            /\ ratchet this'
               = (mean_short_of options_ history, variance_of history)
            /\ (gtb (mean_short_of options_ history) (speaker_mean_ this) = true
                \/ gtb (variance_of history) (speaker_variance_ this) = true))).
Proof.
  split; [ | split; [ | split]].
  - intros. apply (frame_step_ratchet sqrtf options_ buff_size this scene
                     buff_position signal this' scene'). assumption.
  - intros inputs this out Hrun.
    pose proof (run_ratchet sqrtf options_ graph inputs this out Hrun)
      as Hzero.
    split; [exact Hzero | ]. split.
    + intro input. apply frames_start_at_zero_from.
      rewrite ratchet_buffered. exact Hzero.
    + apply frames_start_at_zero_from. exact Hzero.
  - intros this input this' out. apply Process_buffered.
  - intros buff_size buff_position statistics this scene frame cur_face_idx
           bbox this' scene' frame' Hstep history.
    apply face_step_Ok in Hstep.
    destruct Hstep as (value & m & _ & _ & _ & _ & _ & Hspeak & _).
    fold history in Hspeak.
    destruct (IsActiveSpeaker options_ (speaker_mean_ this)
                (speaker_variance_ this) history)
      as [[|] [mean' variance']] eqn:Hactive;
      destruct Hspeak as [Hratchet Hid].
    + right. apply IsActiveSpeaker_true in Hactive.
      destruct Hactive as (_ & -> & -> & Hgt).
      unfold ratchet. auto.
    + left. apply IsActiveSpeaker_false in Hactive.
      destruct Hactive as [-> ->]. unfold ratchet. auto.
Qed.

(** Two frames are buffered; the third input closes the window. After
    the first two frames of that window, each with a speaking face,
    the third frame starts with a zero ratchet. *)
Lemma ratchet_reset_every_frame_witness :
  exists this out this_i scene_i,
    run sqrt_exact span_options example_graph initial (firstn 2 span_inputs)
      no_outputs = Ok (this, out)
    /\ map timestamp (signal_buff_ this) = [0; 1]%Z
    /\ for_each (frame_step sqrt_exact span_options 3)
         (firstn 2 (signal_buff_ (buffered this (nth 2 span_inputs blind_input))))
         0%Z
         (buffered this (nth 2 span_inputs blind_input),
          mkScene StdMap.empty 0%Z StdMap.empty)
       = Ok (this_i, scene_i)
    /\ num_of_active_speaker scene_i = [(0%Z, 2%Z)]
    /\ ratchet this = (zero, zero)
    /\ ratchet this_i = (zero, zero).
Proof.
  eexists. eexists. eexists. eexists.
  split; [vm_compute; reflexivity | ].
  split; [vm_compute; reflexivity | ].
  split; [vm_compute; reflexivity | ].
  split; [vm_compute; reflexivity | ].
  edestruct (proj1 (proj2 (ratchet_reset_every_frame sqrt_exact span_options
                             example_graph))
               (firstn 2 span_inputs)) as (Hzero & Hnext & _).
  - vm_compute. reflexivity.
  - split; [exact Hzero | ].
    eapply (Hnext (nth 2 span_inputs blind_input)
              [ mkSignal [face 1 2] [box 0 0 1 1] 0%Z;
                mkSignal [face 1 2] [box 0 0 1 1] 1%Z ]
              (mkSignal [face 1 2] [box 0 0 1 1] 2%Z) []).
    + vm_compute. reflexivity.
    + vm_compute. reflexivity.
Defined.
